(** * apiscope: capture engine and skill generator

    A shallow embedding of [bin/capture.js] (the capture engine), of
    [bin/generate-skill.js] (the analysis and synthesis engine) and of
    the target choice and cookie header of [bin/extract-cookies.js],
    with the properties of the specification stated and settled against
    it, followed by further properties of the three programs.

    JavaScript strings are modelled by [string] (sequences of code units,
    of which the programs only ever inspect the ASCII range); the
    platform services the programs call but do not define -- the [URL]
    class and [JSON.parse] -- are parameters of the development, and a
    small reference instance of each is given for running examples. *)

From Stdlib Require Import List String Ascii Bool Arith ZArith QArith Lia.
From Stdlib Require Import Qminmax DecimalString Sorted Permutation.
Import ListNotations.
Close Scope Q_scope.
Open Scope list_scope.
Set Warnings "-abstract-large-number".

Set Implicit Arguments.

(* ================================================================== *)
(** * JavaScript strings *)
(* ================================================================== *)

Module JS.
Local Open Scope string_scope.

Definition chars := list ascii.

Definition code (c : ascii) : N := N_of_ascii c.

(** [lo <= c <= hi] on code units. *)
Definition between (lo hi c : ascii) : bool :=
  (code lo <=? code c)%N && (code c <=? code hi)%N.

Definition toUpper (c : ascii) : ascii :=
  if between "a" "z" c then ascii_of_N (code c - 32) else c.

Definition toLower (c : ascii) : ascii :=
  if between "A" "Z" c then ascii_of_N (code c + 32) else c.

Fixpoint toLowerCase (s : string) : string :=
  match s with
  | EmptyString => EmptyString
  | String c s' => String (toLower c) (toLowerCase s')
  end.

(** Template-literal rendering of a non-negative integer. *)
Definition ofNat (n : nat) : string := NilEmpty.string_of_uint (Nat.to_uint n).

Definition dquote : string := String "034" EmptyString.
Definition nl : string := String "010" EmptyString.

(** [s.startsWith(p)] *)
Definition startsWith (p s : string) : bool := prefix p s.

(** [s.includes(p)] *)
Fixpoint includes (p s : string) : bool :=
  prefix p s ||
  match s with
  | EmptyString => false
  | String _ s' => includes p s'
  end.

(** [s.slice(0, n)] *)
Definition slice0 (n : nat) (s : string) : string := substring 0 n s.

(** [s.split(sep)] for a one-character separator. *)
Fixpoint split (sep : ascii) (s : string) : list string :=
  match s with
  | EmptyString => [EmptyString]
  | String c s' =>
      if Ascii.eqb c sep then EmptyString :: split sep s'
      else match split sep s' with
           | [] => [String c EmptyString]
           | w :: ws => String c w :: ws
           end
  end.

(** White space of the ASCII range, as [trim] removes it. *)
Definition isSpace (c : ascii) : bool :=
  (code c =? 32)%N || ((9 <=? code c)%N && (code c <=? 13)%N).

Fixpoint trimStart (s : string) : string :=
  match s with
  | String c s' => if isSpace c then trimStart s' else s
  | EmptyString => EmptyString
  end.

Fixpoint trimEnd (s : string) : string :=
  match s with
  | EmptyString => EmptyString
  | String c s' =>
      match trimEnd s' with
      | EmptyString => if isSpace c then EmptyString else String c EmptyString
      | t => String c t
      end
  end.

Definition trim (s : string) : string := trimEnd (trimStart s).

(** [l.join(sep)] *)
Definition join (sep : string) (l : list string) : string := concat sep l.

(** Truthiness of a string-or-null value: [null] and the empty string
    are falsy. *)
Definition truthy (o : option string) : option string :=
  match o with
  | Some EmptyString => None
  | _ => o
  end.

(** Insertion-ordered [Map] with string keys. *)
Section AssocMap.
Variable V : Type.

Fixpoint get (k : string) (m : list (string * V)) : option V :=
  match m with
  | [] => None
  | (k', v) :: m' => if String.eqb k k' then Some v else get k m'
  end.

Definition has (k : string) (m : list (string * V)) : bool :=
  match get k m with Some _ => true | None => false end.

(** [m.set(k, v)]: an existing key keeps its position. *)
Fixpoint set (k : string) (v : V) (m : list (string * V)) : list (string * V) :=
  match m with
  | [] => [(k, v)]
  | (k', v') :: m' =>
      if String.eqb k k' then (k, v) :: m' else (k', v') :: set k v m'
  end.

Fixpoint delete (k : string) (m : list (string * V)) : list (string * V) :=
  match m with
  | [] => []
  | (k', v') :: m' =>
      if String.eqb k k' then m' else (k', v') :: delete k m'
  end.
End AssocMap.

(** [Array.prototype.sort] with a comparator returning a number: the
    sort is stable, and [x] goes before [y] when [cmp x y <= 0]. *)
Section Sort.
Variable A : Type.
Variable cmp : A -> A -> Z.

Fixpoint insert (x : A) (l : list A) : list A :=
  match l with
  | [] => [x]
  | y :: l' => if (cmp x y <=? 0)%Z then x :: y :: l' else y :: insert x l'
  end.

Fixpoint sort (l : list A) : list A :=
  match l with
  | [] => []
  | x :: l' => insert x (sort l')
  end.
End Sort.

(** [s.endsWith(p)] *)
Fixpoint endsWith (p s : string) : bool :=
  String.eqb s p ||
  match s with
  | EmptyString => false
  | String _ s' => endsWith p s'
  end.

(** The comparison [Array.prototype.sort] makes of two strings when it
    is given no comparator: by code units, the shorter of two strings
    first when it begins the longer. *)
Definition compareStrings (a b : string) : Z :=
  match String.compare a b with
  | Lt => (-1)%Z
  | Eq => 0%Z
  | Gt => 1%Z
  end.

(** [args.indexOf(x)] on an array of strings; [None] stands for [-1]. *)
Fixpoint indexOf (x : string) (l : list string) : option nat :=
  match l with
  | [] => None
  | y :: l' => if String.eqb y x then Some 0 else option_map S (indexOf x l')
  end.
End JS.

(* ================================================================== *)
(** * Command-line arguments *)
(* ================================================================== *)

(** [getArg] and [hasFlag], which each of the programs defines in the
    same words over [args = process.argv.slice(2)]. *)
Module Args.
Import JS.
Local Open Scope string_scope.

Definition getArg (args : list string) (name : string) (defaultVal : option string)
  : option string :=
  match indexOf ("--" ++ name) args with
  | None => defaultVal
  | Some idx =>
      if (List.length args <=? idx + 1)%nat then defaultVal
      else nth_error args (idx + 1)
  end.

Definition hasFlag (args : list string) (name : string) : bool :=
  match indexOf ("--" ++ name) args with
  | None => false
  | Some _ => true
  end.
End Args.

(* ================================================================== *)
(** * Regular expressions *)
(* ================================================================== *)

(** The fragment of the regular-expression language the two programs
    use: literals, character classes, greedy bounded repetition of a
    one-character atom, sequence, alternation, positive look-ahead and
    the end-of-input assertion.  Matching follows the backtracking
    semantics of the language definition, with explicit continuations. *)
Module RegExp.
Import JS.

Inductive atom : Type :=
| Lit (c : ascii)                       (* a literal character *)
| Class (ranges : list (ascii * ascii)) (* [a-bc-d...] *)
| Dot                                   (* . : anything but a line end *).

Inductive re : Type :=
| Eps                                             (* empty pattern *)
| One (a : atom)
| Quant (a : atom) (lo : nat) (hi : option nat)   (* a{lo,hi}, greedy *)
| Seq (r1 r2 : re)
| Alt (r1 r2 : re)
| Ahead (r : re)                                  (* (?=r) *)
| Eoi.                                            (* $ *)

Definition inRanges (rs : list (ascii * ascii)) (c : ascii) : bool :=
  existsb (fun '(lo, hi) => between lo hi c) rs.

(** One-character matching; [icase] is the [i] flag. *)
Definition matches1 (icase : bool) (a : atom) (c : ascii) : bool :=
  match a with
  | Lit x => if icase then Ascii.eqb (toUpper x) (toUpper c) else Ascii.eqb x c
  | Class rs =>
      if icase then inRanges rs c || inRanges rs (toLower c) || inRanges rs (toUpper c)
      else inRanges rs c
  | Dot => negb ((code c =? 10)%N || (code c =? 13)%N)
  end.

Definition cont := chars -> option chars.

Definition exhausted (hi : option nat) : bool :=
  match hi with Some 0 => true | _ => false end.

(** Greedy repetition: take one more character when allowed, and fall
    back to stopping here when the rest cannot be matched. *)
Fixpoint greedy (p : ascii -> bool) (lo : nat) (hi : option nat)
         (s : chars) (k : cont) : option chars :=
  let stop := match lo with 0 => k s | S _ => None end in
  match s with
  | c :: s' =>
      if p c && negb (exhausted hi) then
        match greedy p (pred lo) (option_map pred hi) s' k with
        | Some r => Some r
        | None => stop
        end
      else stop
  | [] => stop
  end.

(** [run icase r s k]: match [r] at the head of [s], then continue
    with [k] on what is left; the result is what is left at the end. *)
Fixpoint run (icase : bool) (r : re) (s : chars) (k : cont) : option chars :=
  match r with
  | Eps => k s
  | One a =>
      match s with
      | c :: s' => if matches1 icase a c then k s' else None
      | [] => None
      end
  | Quant a lo hi => greedy (matches1 icase a) lo hi s k
  | Seq r1 r2 => run icase r1 s (fun s1 => run icase r2 s1 k)
  | Alt r1 r2 =>
      match run icase r1 s k with
      | Some x => Some x
      | None => run icase r2 s k
      end
  | Ahead r1 =>
      match run icase r1 s (fun _ => Some []) with
      | Some _ => k s
      | None => None
      end
  | Eoi => match s with [] => k [] | _ :: _ => None end
  end.

(** A match anchored at the head of [s]: what follows the match. *)
Definition matchAt (icase : bool) (r : re) (s : chars) : option chars :=
  run icase r s (fun rest => Some rest).

(** [re.test(s)]: a match starting anywhere. *)
Fixpoint test (icase : bool) (r : re) (s : chars) : bool :=
  match matchAt icase r s with
  | Some _ => true
  | None => match s with [] => false | _ :: s' => test icase r s' end
  end.

(** [s.replace(re, by)] with the [g] flag.  [skip] counts the
    characters of the current match still to be dropped; an empty
    match leaves the character in place and moves on by one. *)
Fixpoint replaceFrom (icase : bool) (r : re) (by_ : chars) (skip : nat)
         (s : chars) : chars :=
  match s with
  | [] =>
      match matchAt icase r [] with
      | Some _ => by_
      | None => []
      end
  | c :: s' =>
      match skip with
      | S n => replaceFrom icase r by_ n s'
      | 0 =>
          match matchAt icase r s with
          | Some rest =>
              match List.length s - List.length rest with
              | 0 => by_ ++ c :: replaceFrom icase r by_ 0 s'
              | S n => by_ ++ replaceFrom icase r by_ n s'
              end
          | None => c :: replaceFrom icase r by_ 0 s'
          end
      end
  end.

Definition replaceAll (icase : bool) (r : re) (by_ : chars) (s : chars) : chars :=
  replaceFrom icase r by_ 0 s.

(** [s.replace(re, by)] without the [g] flag: the first match only. *)
Fixpoint replaceFirst (icase : bool) (r : re) (by_ : chars) (s : chars) : chars :=
  match matchAt icase r s with
  | Some rest => by_ ++ rest
  | None => match s with [] => [] | c :: s' => c :: replaceFirst icase r by_ s' end
  end.

(** Pattern sugar. *)
Definition lit (c : ascii) : re := One (Lit c).
Definition exactly (n : nat) (a : atom) : re := Quant a n (Some n).
Definition opt (a : atom) : re := Quant a 0 (Some 1).

Fixpoint word (s : string) : re :=
  match s with
  | EmptyString => Eps
  | String c EmptyString => lit c
  | String c s' => Seq (lit c) (word s')
  end.

Fixpoint seqs (rs : list re) : re :=
  match rs with
  | [] => Eps
  | [r] => r
  | r :: rs' => Seq r (seqs rs')
  end.

Fixpoint alts (rs : list re) : re :=
  match rs with
  | [] => Eps
  | [r] => r
  | r :: rs' => Alt r (alts rs')
  end.

(** String-level wrappers. *)
Definition testS (icase : bool) (r : re) (s : string) : bool :=
  test icase r (list_ascii_of_string s).

Definition replaceAllS (icase : bool) (r : re) (by_ s : string) : string :=
  string_of_list_ascii
    (replaceAll icase r (list_ascii_of_string by_) (list_ascii_of_string s)).

Definition replaceFirstS (icase : bool) (r : re) (by_ s : string) : string :=
  string_of_list_ascii
    (replaceFirst icase r (list_ascii_of_string by_) (list_ascii_of_string s)).
End RegExp.

(* ================================================================== *)
(** * Data shared by the two programs *)
(* ================================================================== *)

(** What the programs read off a parsed [URL]. *)
Record URL : Type := mkURL {
  hostname : string;
  pathname : string;
  searchParams : list (string * string)
}.

(** A JSON value; an object lists its entries in the order
    [Object.entries] enumerates them. *)
#[warnings="-register-all"]
Inductive json : Type :=
| JNull
| JBool (b : bool)
| JNumber (lexeme : string)
| JString (s : string)
| JArray (items : list json)
| JObject (entries : list (string * json)).

(** One record of a capture session file; while it is in flight the
    same object is the PendingRequest. *)
Record entry : Type := mkEntry {
  timestamp : string;
  method : string;
  url : string;
  requestHeaders : list (string * string);
  requestBody : option string;
  resourceType : string;
  responseStatus : option nat;
  responseHeaders : list (string * string);
  responseBody : option string
}.

(** A capture session file. *)
Record capture : Type := mkCapture {
  capturedAt : string;
  duration : nat;
  cdpPort : nat;
  domain : string;
  requests : list entry
}.

(** What the programs read off a debugging target of the browser's
    [/json] listing. *)
Record target : Type := mkTarget {
  target_type : string;
  webSocketDebuggerUrl : option string;
  target_url : string
}.

(** A cookie of a [Network.getCookies] reply. *)
Record cookie : Type := mkCookie {
  cookie_name : string;
  cookie_value : string
}.

(* ================================================================== *)
(** * generate-skill.js *)
(* ================================================================== *)

Module Generate.
Import JS RegExp.
Local Open Scope string_scope.
Local Infix "+++" := (@List.app _) (at level 60, right associativity).

(** ** Patterns of [normalizePath] *)

Definition hex : atom := Class [("0", "9"); ("a", "f")]%char.
Definition digit : atom := Class [("0", "9")]%char.

(** [(?=\/|$)] *)
Definition boundary : re := Ahead (Alt (lit "/") Eoi).

(** [/[0-9a-f]{8}-[0-9a-f]{4}-[0-9a-f]{4}-[0-9a-f]{4}-[0-9a-f]{12}/gi] *)
Definition uuidRe : re :=
  seqs [exactly 8 hex; lit "-"; exactly 4 hex; lit "-"; exactly 4 hex; lit "-";
        exactly 4 hex; lit "-"; exactly 12 hex].

(** [/\/[0-9a-f]{8,64}(?=\/|$)/gi] *)
Definition hashRe : re := seqs [lit "/"; Quant hex 8 (Some 64); boundary].

(** [/\/\d{2,}(?=\/|$)/g] *)
Definition idRe : re := seqs [lit "/"; Quant digit 2 None; boundary].

(** [/\/\d{10,13}(?=\/|$)/g] *)
Definition tsRe : re := seqs [lit "/"; Quant digit 10 (Some 13); boundary].

(** The four replacements of [normalizePath], in the order of the
    source, on the path name. *)
Definition rewritePath (p : string) : string :=
  let p := replaceAllS true uuidRe "{uuid}" p in
  let p := replaceAllS true hashRe "/{hash}" p in
  let p := replaceAllS false idRe "/{id}" p in
  let p := replaceAllS false tsRe "/{ts}" p in
  p.

(** ** Schema inference *)

Definition typeofScalar (v : json) : string :=
  match v with
  | JBool _ => "boolean"
  | JNumber _ => "number"
  | JString _ => "string"
  | _ => "object"
  end.

Fixpoint describeType (val : json) (depth maxDepth : nat) {struct val} : string :=
  match val with
  | JNull => "null"
  | JArray items =>
      match items with
      | [] => "[]"
      | first :: _ =>
          if (maxDepth <=? depth)%nat
          then "[..." ++ ofNat (List.length items) ++ " items]"
          else "[" ++ describeType first (depth + 1) maxDepth ++ "] ("
               ++ ofNat (List.length items) ++ " items)"
      end
  | JObject entries =>
      if (maxDepth <=? depth)%nat
      then "{..." ++ ofNat (List.length entries) ++ " keys}"
      else
        let fields :=
          (fix fields (n : nat) (es : list (string * json)) {struct es} : list string :=
             match n, es with
             | S n', (k, v) :: es' =>
                 ("  " ++ k ++ ": " ++ describeType v (depth + 1) maxDepth)
                 :: fields n' es'
             | _, _ => []
             end) 15 entries in
        let extra :=
          if (15 <? List.length entries)%nat
          then nl ++ "  ..." ++ ofNat (List.length entries - 15) ++ " more keys"
          else "" in
        "{" ++ nl ++ join nl fields ++ extra ++ nl ++ "}"
  | JString s =>
      if (80 <? String.length s)%nat
      then "string (" ++ ofNat (String.length s) ++ " chars)"
      else dquote ++ s ++ dquote
  | _ => typeofScalar val
  end.

(** ** Authentication patterns *)

Definition bump (k : string) (m : list (string * nat)) : list (string * nat) :=
  set k (match get k m with Some n => n | None => 0 end + 1) m.

Definition orElse (s dflt : string) : string :=
  match s with EmptyString => dflt | _ => s end.

(** [(value || '').split(';').map(c => c.trim().split('=')[0]).filter(Boolean)] *)
Definition cookieNamesOf (value : string) : list string :=
  filter (fun n => negb (String.eqb n ""))
         (map (fun c => hd "" (split "=" (trim c))) (split ";" value)).

Record authPatterns : Type := mkAuth {
  authHeaders : list (string * nat);
  cookieNames : list (string * nat)
}.

Definition scanHeader (acc : authPatterns) (h : string * string) : authPatterns :=
  let '(key, value) := h in
  let lower := toLowerCase key in
  let acc :=
    if String.eqb lower "authorization" then
      let scheme := orElse (hd "" (split " " value)) "unknown" in
      let label := "Authorization: " ++ scheme ++ " ..." in
      mkAuth (bump label (authHeaders acc)) (cookieNames acc)
    else acc in
  let acc :=
    if includes "csrf" lower || includes "token" lower || includes "x-api" lower
    then mkAuth (bump key (authHeaders acc)) (cookieNames acc)
    else acc in
  if String.eqb lower "cookie" then
    mkAuth (authHeaders acc) (fold_left (fun m n => bump n m) (cookieNamesOf value) (cookieNames acc))
  else acc.

Definition detectAuthPatterns (reqs : list entry) : authPatterns :=
  fold_left (fun acc req => fold_left scanHeader (requestHeaders req) acc)
            reqs (mkAuth [] []).

(** [Math.max(1, requests.length * 0.5)] *)
Definition threshold (n : nat) : Q :=
  Qmax 1 (inject_Z (Z.of_nat n) * (5 # 10))%Q.

(** [count >= threshold] *)
Definition atLeast (t : Q) (count : nat) : bool :=
  Qle_bool t (inject_Z (Z.of_nat count)).

(** [(a, b) => b[1] - a[1]] *)
Definition byCountDesc (a b : string * nat) : Z :=
  (Z.of_nat (snd b) - Z.of_nat (snd a))%Z.

Definition consistent (counts : list (string * nat)) (total : nat) : list (string * nat) :=
  sort byCountDesc (filter (fun e => atLeast (threshold total) (snd e)) counts).

Definition consistentCookies (reqs : list entry) : list string :=
  map fst (consistent (cookieNames (detectAuthPatterns reqs)) (List.length reqs)).

Definition consistentAuthHeaders (reqs : list entry) : list (string * nat) :=
  consistent (authHeaders (detectAuthPatterns reqs)) (List.length reqs).

(** ** Choice of the capture file *)

(** [fs.readdirSync(domainDir).filter(f => f.endsWith('.json')).sort().reverse()] *)
Definition captureFiles (listing : list string) : list string :=
  rev (sort compareStrings (filter (endsWith ".json") listing)).

(** [files[0]]; [None] when there is no such file and [main] exits
    with an error. *)
Definition latestCapture (listing : list string) : option string :=
  hd_error (captureFiles listing).

Section Platform.
(** [new URL(s)]: [None] when the constructor throws. *)
Variable newURL : string -> option URL.
(** [JSON.parse(s)]: [None] when it throws. *)
Variable JSON_parse : string -> option json.

Definition normalizePath (urlStr : string) : string :=
  match newURL urlStr with
  | Some u => rewritePath (pathname u)
  | None => urlStr
  end.

Definition normalizeQueryParams (urlStr : string) : string :=
  match newURL urlStr with
  | Some u => join "," (sort compareStrings (map fst (searchParams u)))
  | None => ""
  end.

Definition endpointKey (method url : string) : string :=
  method ++ " " ++ normalizePath url.

Definition inferSchema (jsonStr : string) (maxDepth : nat) : option string :=
  match JSON_parse jsonStr with
  | Some obj => Some (describeType obj 0 maxDepth)
  | None => None
  end.

(** ** Endpoint clustering *)

Record endpoint : Type := mkEndpoint {
  ep_method : string;
  normalizedPath : string;
  ep_requests : list entry;
  queryParams : list string
}.

(** [Set.prototype.add] on an insertion-ordered set. *)
Definition addParam (ks : list string) (k : string) : list string :=
  if existsb (String.eqb k) ks then ks else ks +++ [k].

(** The body of the grouping loop of [main]. *)
Definition groupRequest (endpoints : list (string * endpoint)) (req : entry)
  : list (string * endpoint) :=
  let key := endpointKey (method req) (url req) in
  let endpoints :=
    if has key endpoints then endpoints
    else set key (mkEndpoint (method req) (normalizePath (url req)) [] []) endpoints in
  match get key endpoints with
  | Some ep =>
      let params :=
        match newURL (url req) with
        | Some u => fold_left addParam (map fst (searchParams u)) (queryParams ep)
        | None => queryParams ep
        end in
      set key (mkEndpoint (ep_method ep) (normalizedPath ep)
                          (ep_requests ep +++ [req]) params) endpoints
  | None => endpoints
  end.

(** [(a, b) => b.requests.length - a.requests.length] *)
Definition byObservedDesc (a b : endpoint) : Z :=
  (Z.of_nat (List.length (ep_requests b)) - Z.of_nat (List.length (ep_requests a)))%Z.

Definition sortedEndpoints (reqs : list entry) : list endpoint :=
  sort byObservedDesc (map snd (fold_left groupRequest reqs [])).

(** ** Rendering *)

(** [r.responseStatus || 0] *)
Definition statusOf (r : entry) : nat :=
  match responseStatus r with Some s => s | None => 0 end.

(** [statusCounts[s] = (statusCounts[s] || 0) + 1] on an object whose
    keys are integers: they are enumerated in ascending order. *)
Fixpoint bumpStatus (s : nat) (m : list (nat * nat)) : list (nat * nat) :=
  match m with
  | [] => [(s, 1)]
  | (k, c) :: m' =>
      if (s =? k)%nat then (k, c + 1) :: m'
      else if (s <? k)%nat then (s, 1) :: (k, c) :: m'
      else (k, c) :: bumpStatus s m'
  end.

(** [r.responseBody && r.responseStatus >= 200 && r.responseStatus < 400] *)
Definition successWithBody (r : entry) : bool :=
  match truthy (responseBody r), responseStatus r with
  | Some _, Some st => (200 <=? st)%nat && (st <? 400)%nat
  | _, _ => false
  end.

(** [ep.requests.find(...) || ep.requests[0]] *)
Definition representative (rs : list entry) : option entry :=
  match find successWithBody rs with
  | Some r => Some r
  | None => hd_error rs
  end.

Definition skipHeaders : list string :=
  ["cookie"; "host"; "user-agent"; "accept"; "accept-language";
   "accept-encoding"; "connection"; "referer"; "sec-ch-ua"; "sec-ch-ua-mobile";
   "sec-ch-ua-platform"; "sec-fetch-dest"; "sec-fetch-mode"; "sec-fetch-site";
   "origin"; "pragma"; "cache-control"; "content-length"; "if-none-match";
   "if-modified-since"].

Definition displayVal (value : string) : string :=
  if (80 <? String.length value)%nat then slice0 80 value ++ "..." else value.

Definition headerParts (headers : list (string * string)) : list string :=
  map (fun '(key, value) => "  -H '" ++ key ++ ": " ++ displayVal value ++ "'")
      (filter (fun '(key, _) => negb (existsb (String.eqb (toLowerCase key)) skipHeaders))
              headers).

(** [headers['Content-Type'] || headers['content-type'] || ''] *)
Definition contentTypeOf (headers : list (string * string)) : string :=
  match truthy (get "Content-Type" headers) with
  | Some c => c
  | None =>
      match truthy (get "content-type" headers) with
      | Some c => c
      | None => ""
      end
  end.

Definition bodyParts (rep : entry) : list string :=
  match truthy (requestBody rep) with
  | Some body =>
      if includes "json" (contentTypeOf (requestHeaders rep))
      then ["  -H 'Content-Type: application/json'";
            "  -d '" ++ slice0 500 body ++ "'"]
      else ["  -d '" ++ slice0 500 body ++ "'"]
  | None => []
  end.

Definition backslash : string := String "092" EmptyString.

Definition curlBlock (rep : entry) : list string :=
  ["```bash";
   join (" " ++ backslash ++ nl)
        (["curl -s '" ++ url rep ++ "'"; "  -H 'Cookie: $COOKIES'"]
           +++ headerParts (requestHeaders rep) +++ bodyParts rep);
   "```";
   ""].

(** A schema block: nothing when [inferSchema] gives no schema. *)
Definition schemaBlock (title body : string) : list string :=
  match inferSchema body 2 with
  | Some EmptyString => []
  | Some schema => [title; "```"; schema; "```"; ""]
  | None => []
  end.

Definition requestSchemaBlock (ep : endpoint) (rep : entry) : list string :=
  match truthy (requestBody rep) with
  | Some body =>
      if existsb (String.eqb (ep_method ep)) ["POST"; "PUT"; "PATCH"]
      then schemaBlock "**Request body schema:**" body
      else []
  | None => []
  end.

(** [representative.responseBody && !representative.responseBody.startsWith('[')] *)
Definition responseSchemaBlock (rep : entry) : list string :=
  match truthy (responseBody rep) with
  | Some body =>
      if negb (startsWith "[" body)
      then schemaBlock "**Response schema:**" body
      else []
  | None => []
  end.

Definition queryStr (ep : endpoint) : string :=
  match queryParams ep with
  | [] => ""
  | ks => "?" ++ join "&" (map (fun k => k ++ "={" ++ k ++ "}") ks)
  end.

Definition statusLine (rs : list entry) : string :=
  "**Status codes:** "
  ++ join ", " (map (fun '(s, c) => ofNat s ++ " (" ++ ofNat c ++ "x)")
                    (fold_left (fun m r => bumpStatus (statusOf r) m) rs [])).

(** One iteration of the loop over [sortedEndpoints]. *)
Definition endpointSection (ep : endpoint) : list string :=
  match representative (ep_requests ep) with
  | None => []   (* an endpoint always holds the request that created it *)
  | Some rep =>
      (["### " ++ ep_method ep ++ " " ++ normalizedPath ep ++ queryStr ep
          ++ "  (observed " ++ ofNat (List.length (ep_requests ep)) ++ "x)";
        "";
        "**Example URL:** `" ++ url rep ++ "`";
        "";
        statusLine (ep_requests ep);
        ""]
         +++ curlBlock rep
         +++ requestSchemaBlock ep rep
         +++ responseSchemaBlock rep)
  end.

(** Command-line options and the clock reading of one run. *)
Record run : Type := mkRun {
  DOMAIN : option string;
  SKILL_NAME : option string;
  isoNow : string   (* [new Date().toISOString()] *)
}.

(** [domain.replace(/\.com$|\.net$|\.org$|\.io$/, '').replace(/\./g, '-')] *)
Definition domainPrefix (domain : string) : string :=
  replaceAllS false (lit ".") "-"
    (replaceFirstS false
       (alts [Seq (word ".com") Eoi; Seq (word ".net") Eoi;
              Seq (word ".org") Eoi; Seq (word ".io") Eoi]) "" domain).

Definition domainOf (r : run) (c : capture) : string :=
  match truthy (DOMAIN r) with Some d => d | None => domain c end.

Definition skillNameOf (r : run) (c : capture) : string :=
  match truthy (SKILL_NAME r) with
  | Some n => n
  | None => "api-" ++ domainPrefix (domainOf r c)
  end.

(** [capture.cdpPort || 9222] *)
Definition portOf (c : capture) : string :=
  match cdpPort c with 0 => "9222" | p => ofNat p end.

(** [capture.duration || '?'] *)
Definition durationOf (c : capture) : string :=
  match duration c with 0 => "?" | d => ofNat d end.

Definition frontmatter (r : run) (c : capture) : list string :=
  ["---";
   "name: " ++ skillNameOf r c;
   "description: " ++ dquote ++ domainOf r c
     ++ " internal API — learned endpoints for direct curl access. Use instead of browser for repeat tasks."
     ++ dquote;
   "metadata: {" ++ dquote ++ "openclaw" ++ dquote ++ ":{" ++ dquote ++ "emoji"
     ++ dquote ++ ":" ++ dquote ++ "🔌" ++ dquote ++ "}}";
   "---";
   ""].

(** [now = new Date().toISOString().split('T')[0]] and the title
    that carries it. *)
Definition today (r : run) : string := hd "" (split "T" (isoNow r)).

Definition titleLine (r : run) (c : capture) : string :=
  "# " ++ domainOf r c ++ " API (learned " ++ today r ++ ")".

Definition authSection (r : run) (c : capture) : list string :=
  (["## Authentication";
    "";
    "Cookie-based. Extract fresh cookies before each session:";
    "```bash";
    "/opt/OpenClaw/scripts/extract-cookies.js --domain " ++ domainOf r c
      ++ " --port " ++ portOf c;
    "```";
    "";
    "### Required headers";
    "```"]
     +++ map fst (consistentAuthHeaders (requests c))
     +++ ["Cookie: <output from extract-cookies.js>";
         "```";
         ""]
     +++ match consistentCookies (requests c) with
        | [] => []
        | cookies =>
            ["### Key cookies (present in >50% of requests)";
             "`" ++ join "`, `" (firstn 20 cookies) ++ "`";
             ""]
        end).

Definition fallbackSection (r : run) (c : capture) : list string :=
  ["## Fallback";
   "";
   "If API calls return 401/403:";
   "1. Re-extract cookies using the command above";
   "2. If still failing, the site may have changed its auth mechanism";
   "3. Fall back to using the `browser` tool";
   "4. Report to Gannon that the API skill needs re-capture";
   "";
   "## Re-capture";
   "";
   "If endpoints have changed or new endpoints are needed:";
   "```bash";
   "/opt/OpenClaw/scripts/capture-api.js --port " ++ portOf c ++ " --duration 300";
   "/opt/OpenClaw/scripts/generate-api-skill.js --domain " ++ domainOf r c
     ++ " --name " ++ skillNameOf r c;
   "```"].

(** The lines pushed before and after the title line. *)
Definition linesBeforeTitle (r : run) (c : capture) : list string :=
  frontmatter r c.

Definition linesAfterTitle (r : run) (c : capture) : list string :=
  (["";
    "**WARNING:** Undocumented internal APIs learned by traffic capture. May change without notice.";
    "Captured from " ++ ofNat (List.length (requests c)) ++ " API calls over "
      ++ durationOf c ++ "s.";
    ""]
     +++ authSection r c
     +++ ["## Endpoints"; ""]
     +++ flat_map endpointSection (sortedEndpoints (requests c))
     +++ fallbackSection r c).

Definition skillLines (r : run) (c : capture) : list string :=
  linesBeforeTitle r c +++ titleLine r c :: linesAfterTitle r c.

(** The document [main] writes; [None] when the capture holds no
    request and the program exits with an error. *)
Definition skillContent (r : run) (c : capture) : option string :=
  match requests c with
  | [] => None
  | _ => Some (join nl (skillLines r c) ++ nl)
  end.
End Platform.
End Generate.

(* ================================================================== *)
(** * capture.js *)
(* ================================================================== *)

Module Capture.
Import JS RegExp.
Local Open Scope string_scope.
Local Infix "+++" := (@List.app _) (at level 60, right associativity).

Definition NOISE_DOMAINS : list string :=
  ["google-analytics.com"; "www.google-analytics.com"; "analytics.google.com";
   "googletagmanager.com"; "www.googletagmanager.com";
   "googlesyndication.com"; "pagead2.googlesyndication.com";
   "doubleclick.net"; "ad.doubleclick.net";
   "google.com"; "www.google.com";
   "facebook.com"; "www.facebook.com"; "connect.facebook.net";
   "facebook.net"; "www.facebook.net";
   "stripe.com"; "js.stripe.com"; "api.stripe.com"; "m.stripe.com";
   "sentry.io"; "sentry-cdn.com";
   "hotjar.com"; "static.hotjar.com"; "script.hotjar.com";
   "segment.io"; "api.segment.io"; "cdn.segment.com";
   "datadome.co"; "api-js.datadome.co";
   "recaptcha.net"; "www.recaptcha.net";
   "gstatic.com"; "www.gstatic.com";
   "newrelic.com"; "bam.nr-data.net"; "js-agent.newrelic.com";
   "fullstory.com"; "rs.fullstory.com";
   "optimizely.com"; "cdn.optimizely.com";
   "quantserve.com"; "pixel.quantserve.com";
   "branch.io"; "api.branch.io";
   "braze.com"; "sdk.iad-01.braze.com";
   "amplitude.com"; "api.amplitude.com";
   "mixpanel.com"; "api.mixpanel.com";
   "intercom.io"; "widget.intercom.io";
   "clarity.ms"; "www.clarity.ms";
   "mouseflow.com";
   "crazyegg.com";
   "tiktok.com"; "analytics.tiktok.com";
   "pinterest.com"; "ct.pinterest.com";
   "snapchat.com"; "tr.snapchat.com"].

Definition isNoise (d : string) : bool := existsb (String.eqb d) NOISE_DOMAINS.

(** [/\.(js|css|png|jpg|jpeg|gif|svg|ico|woff|woff2|ttf|eot|map|webp|avif)(\?|$)/i] *)
Definition STATIC_EXTENSIONS : re :=
  seqs [lit ".";
        alts (map word ["js"; "css"; "png"; "jpg"; "jpeg"; "gif"; "svg"; "ico";
                        "woff"; "woff2"; "ttf"; "eot"; "map"; "webp"; "avif"]);
        Alt (lit "?") Eoi].

(** [/password|passwd|card_?number|card_?num|cvv|cvc|ssn|social_?security|secret_?key|private_?key/i] *)
Definition SENSITIVE_PATTERNS : re :=
  alts [word "password"; word "passwd";
        seqs [word "card"; opt (Lit "_"); word "number"];
        seqs [word "card"; opt (Lit "_"); word "num"];
        word "cvv"; word "cvc"; word "ssn";
        seqs [word "social"; opt (Lit "_"); word "security"];
        seqs [word "secret"; opt (Lit "_"); word "key"];
        seqs [word "private"; opt (Lit "_"); word "key"]].

Definition MAX_BODY_SIZE : nat := 10 * 1024.

(** [truncateBody]; a [null] or empty body is returned as it is. *)
Definition truncateBody (body : option string) : option string :=
  match truthy body with
  | None => body
  | Some b =>
      if (MAX_BODY_SIZE <? String.length b)%nat
      then Some (slice0 MAX_BODY_SIZE b ++ nl ++ "...[truncated at " ++ ofNat MAX_BODY_SIZE
                 ++ " bytes, total " ++ ofNat (String.length b) ++ "]")
      else body
  end.

(** Command-line configuration of a capture run. *)
Record config : Type := mkConfig {
  CDP_PORT : nat;
  DURATION : nat;
  REDACT : bool
}.

(** A notification or reply delivered by the event loop.  [now] is the
    clock reading taken while the event is handled. *)
Inductive event : Type :=
| RequestWillBeSent (now requestId : string)
    (req_method req_url : string) (req_headers : list (string * string))
    (postData : option string) (type : string)
| ResponseReceived (requestId : string) (status : nat)
    (headers : list (string * string))
| LoadingFinished (requestId : string)
| LoadingFailed (requestId : string) (errorText : option string)
| BodyResolved (call : nat) (body : option string) (* getResponseBody answered *)
| BodyRejected (call : nat)          (* error reply, or the 10 s timeout *)
| TimerFired (now : string)
| SIGINT (now : string)
| SIGTERM (now : string).

(** A [Network.getResponseBody] call awaiting its reply: the call
    number, the identifier it was sent for, and the entry its callbacks
    hold. *)
Record fetch : Type := mkFetch {
  fetchCall : nat;
  fetchRequestId : string;
  fetchEntry : entry
}.

(** The mutable state of [main] once monitoring has started, with the
    files written so far (domain directory, file stem, content). *)
Record state : Type := mkState {
  pendingRequests : list (string * entry);
  bodyFetches : list fetch;           (* promises awaiting a reply *)

  cdpId : nat;                        (* [cdpSend._id] *)
  capturedByDomain : list (string * list entry);
  totalCaptured : nat;
  timerArmed : bool;
  shuttingDown : bool;
  written : list (string * string * capture);
  exited : bool
}.

(** The state after [pages] targets have been put under observation. *)
Definition init (pages : nat) : state :=
  mkState [] [] pages [] 0 true false [] false.

(** The call a reply answers, and the calls left. *)
Fixpoint takeFetch (call : nat) (fs : list fetch) : option (fetch * list fetch) :=
  match fs with
  | [] => None
  | f :: fs' =>
      if (fetchCall f =? call)%nat then Some (f, fs')
      else match takeFetch call fs' with
           | Some (f', rest) => Some (f', f :: rest)
           | None => None
           end
  end.

Section Platform.
Variable newURL : string -> option URL.
Variable cfg : config.

Definition isNoiseDomain (url : string) : bool :=
  match newURL url with
  | Some u =>
      let hostname := hostname u in
      if isNoise hostname then true
      else
        let parts := split "." hostname in
        existsb (fun i => isNoise (join "." (skipn i parts)))
                (seq 1 (List.length parts - 2))
  | None => false
  end.

Definition isStaticAsset (url : string) : bool :=
  match newURL url with
  | Some u => testS true STATIC_EXTENSIONS (pathname u)
  | None => false
  end.

Definition getDomain (url : string) : string :=
  match newURL url with
  | Some u =>
      let hostname := hostname u in
      let parts := split "." hostname in
      if (2 <? List.length parts)%nat
      then join "." (skipn (List.length parts - 2) parts)
      else hostname
  | None => "unknown"
  end.

Definition redactBody (body : option string) : option string :=
  match truthy body with
  | None => body
  | Some b =>
      if negb (REDACT cfg) then body
      else if testS true SENSITIVE_PATTERNS b
           then Some "[REDACTED — sensitive data detected]"
           else body
  end.

Definition setPending (m : list (string * entry)) (s : state) : state :=
  mkState m (bodyFetches s) (cdpId s) (capturedByDomain s) (totalCaptured s)
          (timerArmed s) (shuttingDown s) (written s) (exited s).

Definition storeEntry (e : entry) (s : state) : state :=
  let domain := getDomain (url e) in
  let byDomain :=
    if has domain (capturedByDomain s) then capturedByDomain s
    else set domain [] (capturedByDomain s) in
  let bucket := match get domain byDomain with Some l => l | None => [] end in
  mkState (pendingRequests s) (bodyFetches s) (cdpId s)
          (set domain (bucket +++ [e]) byDomain) (totalCaptured s + 1)
          (timerArmed s) (shuttingDown s) (written s) (exited s).

Definition withStatus (st : option nat) (hs : list (string * string)) (e : entry) : entry :=
  mkEntry (timestamp e) (method e) (url e) (requestHeaders e) (requestBody e)
          (resourceType e) st hs (responseBody e).

Definition withBody (b : option string) (e : entry) : entry :=
  mkEntry (timestamp e) (method e) (url e) (requestHeaders e) (requestBody e)
          (resourceType e) (responseStatus e) (responseHeaders e) b.

(** [now.replace(/:/g, '-').replace(/\..+/, '')] *)
Definition fileStem (now : string) : string :=
  replaceFirstS false (Seq (lit ".") (Quant Dot 1 None)) ""
    (replaceAllS false (lit ":") "-" now).

Definition shutdown (now : string) (s : state) : state :=
  if shuttingDown s then s
  else
    (* flush the pending requests, then clear the map *)
    let s1 := fold_left (fun acc kv => storeEntry (snd kv) acc) (pendingRequests s) s in
    let files :=
      map (fun '(domain, requests) =>
             (domain, fileStem now,
              mkCapture now (DURATION cfg) (CDP_PORT cfg) domain requests))
          (capturedByDomain s1) in
    (* process.exit(0) *)
    mkState [] (bodyFetches s1) (cdpId s1) (capturedByDomain s1) (totalCaptured s1)
            (timerArmed s1) true (written s1 +++ files) true.

Definition disarm (s : state) : state :=
  mkState (pendingRequests s) (bodyFetches s) (cdpId s) (capturedByDomain s)
          (totalCaptured s) false (shuttingDown s) (written s) (exited s).

(** One turn of the event loop. *)
Definition step (s : state) (ev : event) : state :=
  if exited s then s
  else
    match ev with
    | RequestWillBeSent now requestId req_method req_url req_headers postData type =>
        if negb (String.eqb type "XHR") && negb (String.eqb type "Fetch") then s
        else if isNoiseDomain req_url then s
        else if isStaticAsset req_url then s
        else
          setPending
            (set requestId
                 (mkEntry now req_method req_url req_headers
                          (redactBody (truthy postData)) type None [] None)
                 (pendingRequests s)) s
    | ResponseReceived requestId status headers =>
        match get requestId (pendingRequests s) with
        | None => s
        | Some e =>
            setPending (set requestId (withStatus (Some status) headers e)
                            (pendingRequests s)) s
        end
    | LoadingFinished requestId =>
        match get requestId (pendingRequests s) with
        | None => s
        | Some e =>
            let id := cdpId s + 1 in
            mkState (delete requestId (pendingRequests s))
                    (bodyFetches s +++ [mkFetch id requestId e]) id
                    (capturedByDomain s) (totalCaptured s)
                    (timerArmed s) (shuttingDown s) (written s) (exited s)
        end
    | LoadingFailed requestId errorText =>
        match get requestId (pendingRequests s) with
        | None => s
        | Some e =>
            let text := match truthy errorText with Some t => t | None => "unknown" end in
            storeEntry
              (withBody (Some ("[failed: " ++ text ++ "]"))
                        (withStatus (Some 0) (responseHeaders e) e))
              (setPending (delete requestId (pendingRequests s)) s)
        end
    | BodyResolved call body =>
        match takeFetch call (bodyFetches s) with
        | None => s
        | Some (f, rest) =>
            storeEntry
              (withBody (truncateBody (truthy body)) (fetchEntry f))
              (mkState (pendingRequests s) rest (cdpId s) (capturedByDomain s)
                       (totalCaptured s) (timerArmed s) (shuttingDown s)
                       (written s) (exited s))
        end
    | BodyRejected call =>
        match takeFetch call (bodyFetches s) with
        | None => s
        | Some (f, rest) =>
            storeEntry (fetchEntry f)
              (mkState (pendingRequests s) rest (cdpId s) (capturedByDomain s)
                       (totalCaptured s) (timerArmed s) (shuttingDown s)
                       (written s) (exited s))
        end
    | TimerFired now => if timerArmed s then shutdown now (disarm s) else s
    | SIGINT now => shutdown now (disarm s)
    | SIGTERM now => shutdown now (disarm s)
    end.

Definition runEvents (evs : list event) (s : state) : state :=
  fold_left step evs s.

(** Every entry the store holds, bucket after bucket. *)
Definition storedEntries (s : state) : list entry :=
  flat_map snd (capturedByDomain s).

(** Every entry written to a session file. *)
Definition writtenEntries (s : state) : list entry :=
  flat_map (fun f => requests (snd f)) (written s).
End Platform.
End Capture.

(* ================================================================== *)
(** * extract-cookies.js *)
(* ================================================================== *)

Module Cookies.
Import JS.
Local Open Scope string_scope.

(** [t.type === 'page' && t.webSocketDebuggerUrl] *)
Definition isPage (t : target) : bool :=
  String.eqb (target_type t) "page"
  && match truthy (webSocketDebuggerUrl t) with Some _ => true | None => false end.

(** The target [main] connects to: the first page whose address
    includes the domain, or else the first page; [None] when there is
    no page and the program exits with an error. *)
Definition pickTarget (DOMAIN : string) (targets : list target) : option target :=
  match find (fun t => isPage t && includes DOMAIN (target_url t)) targets with
  | Some page => Some page
  | None => find isPage targets
  end.

(** The addresses [Network.getCookies] is asked about. *)
Definition cookieUrls (DOMAIN : string) : list string :=
  ["https://" ++ DOMAIN; "https://www." ++ DOMAIN].

(** What [main] writes to the standard output; [None] when the reply
    holds no cookie and the program exits with an error. *)
Definition cookieStr (cookies : list cookie) : option string :=
  match cookies with
  | [] => None
  | _ => Some (join "; " (map (fun c => cookie_name c ++ "=" ++ cookie_value c) cookies))
  end.
End Cookies.

(* ================================================================== *)
(** * A reference instance of the platform *)
(* ================================================================== *)

(** A reading of the platform's [URL] constructor (called without a
    base) and of [JSON.parse], detailed enough to run the programs on
    everyday inputs.  Left out of the URL reading: the [file] scheme,
    international and numeric host forms, percent-encoded dot segments.
    Left out of the JSON reading: [\u] escapes.  The statements below
    hold for every platform; this instance only serves to run them. *)
Module Node.
Import JS.
Local Open Scope string_scope.

Definition isAlpha (c : ascii) : bool := between "a" "z" c || between "A" "Z" c.
Definition isDigit (c : ascii) : bool := between "0" "9" c.

(** The longest prefix free of [stop] characters, and what follows. *)
Fixpoint span (stop : ascii -> bool) (s : string) : string * string :=
  match s with
  | EmptyString => (EmptyString, EmptyString)
  | String c s' =>
      if stop c then (EmptyString, s)
      else let (a, b) := span stop s' in (String c a, b)
  end.

Fixpoint splitOn (sep : ascii -> bool) (s : string) : list string :=
  match s with
  | EmptyString => [EmptyString]
  | String c s' =>
      if sep c then EmptyString :: splitOn sep s'
      else match splitOn sep s' with
           | [] => [String c EmptyString]
           | w :: ws => String c w :: ws
           end
  end.

Definition isC0OrSpace (c : ascii) : bool := (code c <=? 32)%N.

Fixpoint stripStart (s : string) : string :=
  match s with
  | String c s' => if isC0OrSpace c then stripStart s' else s
  | EmptyString => EmptyString
  end.

Fixpoint stripEnd (s : string) : string :=
  match s with
  | EmptyString => EmptyString
  | String c s' =>
      match stripEnd s' with
      | EmptyString => if isC0OrSpace c then EmptyString else String c EmptyString
      | t => String c t
      end
  end.

Fixpoint dropTabNewline (s : string) : string :=
  match s with
  | EmptyString => EmptyString
  | String c s' =>
      if (code c =? 9)%N || (code c =? 10)%N || (code c =? 13)%N
      then dropTabNewline s' else String c (dropTabNewline s')
  end.

Definition isSchemeChar (c : ascii) : bool :=
  isAlpha c || isDigit c || Ascii.eqb c "+" || Ascii.eqb c "-" || Ascii.eqb c ".".

(** The scheme (lower-cased) and what follows its colon. *)
Definition parseScheme (s : string) : option (string * string) :=
  match s with
  | String c _ =>
      if isAlpha c then
        match span (fun c => negb (isSchemeChar c)) s with
        | (scheme, String ":" rest) => Some (toLowerCase scheme, rest)
        | _ => None
        end
      else None
  | EmptyString => None
  end.

Definition isSpecial (scheme : string) : bool :=
  existsb (String.eqb scheme) ["ftp"; "http"; "https"; "ws"; "wss"].

Definition hexDigit (n : N) : ascii :=
  if (n <? 10)%N then ascii_of_N (48 + n) else ascii_of_N (55 + n).

Definition percentEncode (c : ascii) : string :=
  String "%" (String (hexDigit (code c / 16)) (String (hexDigit (code c mod 16)%N) EmptyString)).

Definition inPathEncodeSet (c : ascii) : bool :=
  (code c <=? 32)%N || (126 <? code c)%N
  || existsb (Ascii.eqb c) ["034"; "#"; "<"; ">"; "?"; "^"; "`"; "{"; "}"]%char.

Fixpoint encodeWith (encode : ascii -> bool) (s : string) : string :=
  match s with
  | EmptyString => EmptyString
  | String c s' =>
      (if encode c then percentEncode c else String c EmptyString) ++ encodeWith encode s'
  end.

(** The path state: [stack] holds the segments so far, last first. *)
Fixpoint pathSegments (stack : list string) (segs : list string) : list string :=
  match segs with
  | [] => rev stack
  | seg :: segs' =>
      let last := match segs' with [] => true | _ => false end in
      if String.eqb seg ".." then
        pathSegments (if last then EmptyString :: tl stack else tl stack) segs'
      else if String.eqb seg "." then
        pathSegments (if last then EmptyString :: stack else stack) segs'
      else pathSegments (encodeWith inPathEncodeSet seg :: stack) segs'
  end.

Definition isSlash (special : bool) (c : ascii) : bool :=
  Ascii.eqb c "/" || (special && Ascii.eqb c "092").

Definition hierPath (special : bool) (p : string) : string :=
  match p with
  | EmptyString => if special then "/" else ""
  | String _ p' =>
      concat "" (map (fun seg => "/" ++ seg) (pathSegments [] (splitOn (isSlash special) p')))
  end.

Definition isForbiddenHost (c : ascii) : bool :=
  (code c <=? 32)%N || (code c =? 127)%N
  || existsb (Ascii.eqb c) ["#"; "/"; ":"; "<"; ">"; "?"; "@"; "["; "092"; "]"; "^"; "|"; "%"]%char.

Fixpoint allChars (p : ascii -> bool) (s : string) : bool :=
  match s with
  | EmptyString => true
  | String c s' => p c && allChars p s'
  end.

(** Host name out of an authority [user:pass@host:port]. *)
Definition parseHost (special : bool) (authority : string) : option string :=
  let hostport := last (split "@" authority) "" in
  let host :=
    match hostport with
    | String "[" _ => fst (span (fun c => Ascii.eqb c "]") hostport) ++ "]"
    | _ => fst (span (fun c => Ascii.eqb c ":") hostport)
    end in
  let port :=
    match hostport with
    | String "[" _ =>
        match snd (span (fun c => Ascii.eqb c "]") hostport) with
        | String _ (String ":" p) => p
        | _ => ""
        end
    | _ =>
        match snd (span (fun c => Ascii.eqb c ":") hostport) with
        | String _ p => p
        | _ => ""
        end
    end in
  if negb (allChars isDigit port) then None
  else if special && String.eqb host "" then None
  else
    match host with
    | String "[" _ => Some (toLowerCase host)
    | _ => if allChars (fun c => negb (isForbiddenHost c)) host
           then Some (toLowerCase host) else None
    end.

Definition hexValue (c : ascii) : option N :=
  if isDigit c then Some (code c - 48)%N
  else if between "a" "f" c then Some (code c - 87)%N
  else if between "A" "F" c then Some (code c - 55)%N
  else None.

(** Form decoding: [+] is a space and [%XX] a byte.  [skip] counts the
    characters of the current escape still to be dropped. *)
Fixpoint percentDecodeFrom (skip : nat) (s : string) : string :=
  match s with
  | EmptyString => EmptyString
  | String c s' =>
      match skip with
      | S n => percentDecodeFrom n s'
      | 0 =>
          match c, s' with
          | "%"%char, String h (String l _) =>
              match hexValue h, hexValue l with
              | Some a, Some b =>
                  String (ascii_of_N (16 * a + b)) (percentDecodeFrom 2 s')
              | _, _ => String c (percentDecodeFrom 0 s')
              end
          | "+"%char, _ => String " " (percentDecodeFrom 0 s')
          | _, _ => String c (percentDecodeFrom 0 s')
          end
      end
  end.

Definition percentDecode (s : string) : string := percentDecodeFrom 0 s.

(** The name/value pairs of a query string. *)
Definition parseQuery (q : string) : list (string * string) :=
  map (fun pair =>
         let (name, rest) := span (fun c => Ascii.eqb c "=") pair in
         (percentDecode name,
          percentDecode (match rest with String _ v => v | EmptyString => "" end)))
      (filter (fun pair => negb (String.eqb pair "")) (split "&" q)).

Definition isQueryOrFragment (c : ascii) : bool :=
  Ascii.eqb c "?" || Ascii.eqb c "#".

Definition newURL (input : string) : option URL :=
  match parseScheme (dropTabNewline (stripEnd (stripStart input))) with
  | None => None
  | Some (scheme, rest) =>
      if String.eqb scheme "file" then None
      else
        let special := isSpecial scheme in
        let (body, tail) := span isQueryOrFragment rest in
        let query :=
          match tail with
          | String "?" q => fst (span (fun c => Ascii.eqb c "#") q)
          | _ => ""
          end in
        let params := parseQuery query in
        if special then
          (* slashes after the colon are skipped, then the authority *)
          let afterSlashes :=
            (fix skip (s : string) : string :=
               match s with
               | String c s' => if isSlash true c then skip s' else s
               | EmptyString => EmptyString
               end) body in
          let (authority, p) := span (isSlash true) afterSlashes in
          match parseHost true authority with
          | Some host => Some (mkURL host (hierPath true p) params)
          | None => None
          end
        else
          match body with
          | String "/" (String "/" afterSlashes) =>
              let (authority, p) := span (isSlash false) afterSlashes in
              match parseHost false authority with
              | Some host => Some (mkURL host (hierPath false p) params)
              | None => None
              end
          | String "/" _ => Some (mkURL "" (hierPath false body) params)
          | _ =>
              (* an opaque path *)
              Some (mkURL "" (encodeWith (fun c => (code c <? 32)%N || (126 <? code c)%N) body)
                          params)
          end
  end.

(** ** [JSON.parse] *)

Definition isJsonSpace (c : ascii) : bool :=
  existsb (Ascii.eqb c) [" "; "009"; "010"; "013"]%char.

Fixpoint skipWs (s : string) : string :=
  match s with
  | String c s' => if isJsonSpace c then skipWs s' else s
  | EmptyString => EmptyString
  end.

Definition unescape (e : ascii) : option ascii :=
  if Ascii.eqb e "034" then Some "034"%char
  else if Ascii.eqb e "092" then Some "092"%char
  else if Ascii.eqb e "/" then Some "/"%char
  else if Ascii.eqb e "b" then Some "008"%char
  else if Ascii.eqb e "f" then Some "012"%char
  else if Ascii.eqb e "n" then Some "010"%char
  else if Ascii.eqb e "r" then Some "013"%char
  else if Ascii.eqb e "t" then Some "009"%char
  else None.

Definition consTo (c : ascii) (r : option (string * string)) : option (string * string) :=
  match r with
  | Some (a, rest) => Some (String c a, rest)
  | None => None
  end.

(** The characters of a string literal after its opening quote, and
    what follows the closing quote. *)
Fixpoint parseStringBody (s : string) : option (string * string) :=
  match s with
  | EmptyString => None
  | String c s' =>
      if Ascii.eqb c "034" then Some (EmptyString, s')
      else if Ascii.eqb c "092" then
        match s' with
        | String e s'' =>
            match unescape e with
            | Some x => consTo x (parseStringBody s'')
            | None => None
            end
        | EmptyString => None
        end
      else if (code c <? 32)%N then None
      else consTo c (parseStringBody s')
  end.

Definition digits (s : string) : string * string := span (fun c => negb (isDigit c)) s.

(** The lexeme of a number and what follows it. *)
Definition parseNumber (s : string) : option (string * string) :=
  let (sign, s1) := match s with String "-" r => ("-", r) | _ => ("", s) end in
  let (int, s2) := digits s1 in
  let intOk :=
    match int with
    | EmptyString => false
    | String "0" (String _ _) => false
    | _ => true
    end in
  if negb intOk then None
  else
    match
      match s2 with
      | String "." r =>
          let (f, s3) := digits r in
          if String.eqb f "" then None else Some ("." ++ f, s3)
      | _ => Some ("", s2)
      end
    with
    | None => None
    | Some (frac, s3) =>
        match s3 with
        | String e r =>
            if Ascii.eqb e "e" || Ascii.eqb e "E" then
              let (esign, r1) :=
                match r with
                | String "+" r' => ("+", r')
                | String "-" r' => ("-", r')
                | _ => ("", r)
                end in
              let (ex, s4) := digits r1 in
              if String.eqb ex "" then None
              else Some (sign ++ int ++ frac ++ String e esign ++ ex, s4)
            else Some (sign ++ int ++ frac, s3)
        | EmptyString => Some (sign ++ int ++ frac, s3)
        end
    end.

(** The value of a key that is an array index (a canonical decimal
    below 2^32 - 1); such keys are enumerated first, in ascending order. *)
Definition arrayIndex (k : string) : option N :=
  match k with
  | EmptyString => None
  | String "0" (String _ _) => None
  | _ =>
      if allChars isDigit k && (String.length k <=? 10)%nat then
        let n := fold_left (fun acc c => (acc * 10 + (code c - 48))%N)
                           (list_ascii_of_string k) 0%N in
        if (n <? 4294967295)%N then Some n else None
      else None
  end.

Fixpoint insertIndex (n : N) (kv : string * json) (l : list (N * (string * json)))
  : list (N * (string * json)) :=
  match l with
  | [] => [(n, kv)]
  | (m, kv') :: l' =>
      if (n <? m)%N then (n, kv) :: (m, kv') :: l' else (m, kv') :: insertIndex n kv l'
  end.

(** The entries of the object a member list creates: a repeated key
    keeps its place and takes the last value. *)
Definition objectEntries (members : list (string * json)) : list (string * json) :=
  let props := fold_left (fun m kv => set (fst kv) (snd kv) m) members [] in
  let indexed :=
    fold_left (fun acc kv =>
                 match arrayIndex (fst kv) with
                 | Some n => insertIndex n kv acc
                 | None => acc
                 end) props [] in
  (map snd indexed
     ++ filter (fun kv => match arrayIndex (fst kv) with Some _ => false | None => true end)
               props)%list.

Fixpoint parseValue (fuel : nat) (s : string) {struct fuel} : option (json * string) :=
  match fuel with
  | 0 => None
  | S fuel' =>
      match skipWs s with
      | String "n" (String "u" (String "l" (String "l" r))) => Some (JNull, r)
      | String "t" (String "r" (String "u" (String "e" r))) => Some (JBool true, r)
      | String "f" (String "a" (String "l" (String "s" (String "e" r)))) =>
          Some (JBool false, r)
      | String "034" r =>
          match parseStringBody r with
          | Some (str, rest) => Some (JString str, rest)
          | None => None
          end
      | String "[" r =>
          match skipWs r with
          | String "]" rest => Some (JArray [], rest)
          | _ =>
              match parseElements fuel' r with
              | Some (items, rest) => Some (JArray items, rest)
              | None => None
              end
          end
      | String "{" r =>
          match skipWs r with
          | String "}" rest => Some (JObject [], rest)
          | _ =>
              match parseMembers fuel' r with
              | Some (members, rest) => Some (JObject (objectEntries members), rest)
              | None => None
              end
          end
      | other =>
          match parseNumber other with
          | Some (lexeme, rest) => Some (JNumber lexeme, rest)
          | None => None
          end
      end
  end

with parseElements (fuel : nat) (s : string) {struct fuel} : option (list json * string) :=
  match fuel with
  | 0 => None
  | S fuel' =>
      match parseValue fuel' s with
      | Some (v, rest) =>
          match skipWs rest with
          | String "," rest' =>
              match parseElements fuel' rest' with
              | Some (vs, rest'') => Some (v :: vs, rest'')
              | None => None
              end
          | String "]" rest' => Some ([v], rest')
          | _ => None
          end
      | None => None
      end
  end

with parseMembers (fuel : nat) (s : string) {struct fuel}
  : option (list (string * json) * string) :=
  match fuel with
  | 0 => None
  | S fuel' =>
      match skipWs s with
      | String "034" r =>
          match parseStringBody r with
          | Some (key, afterKey) =>
              match skipWs afterKey with
              | String ":" afterColon =>
                  match parseValue fuel' afterColon with
                  | Some (v, rest) =>
                      match skipWs rest with
                      | String "," rest' =>
                          match parseMembers fuel' rest' with
                          | Some (ms, rest'') => Some ((key, v) :: ms, rest'')
                          | None => None
                          end
                      | String "}" rest' => Some ([(key, v)], rest')
                      | _ => None
                      end
                  | None => None
                  end
              | _ => None
              end
          | None => None
          end
      | _ => None
      end
  end.

Definition JSON_parse (text : string) : option json :=
  match parseValue (2 * String.length text + 2) text with
  | Some (v, rest) =>
      match skipWs rest with
      | EmptyString => Some v
      | _ => None
      end
  | None => None
  end.
End Node.

(* ================================================================== *)
(** * Properties of the matcher and of replacement *)
(* ================================================================== *)

Unset Implicit Arguments.

Module RegExpFacts.
Import JS RegExp.


(** [t] is what is left of [s] after some prefix. *)
Definition suffix (t s : chars) : Prop := exists pre, s = pre ++ t.

Lemma suffix_refl s : suffix s s.
Proof. exists []. reflexivity. Qed.

Lemma suffix_cons t c s : suffix t s -> suffix t (c :: s).
Proof. intros [pre ->]. exists (c :: pre). reflexivity. Qed.

Lemma suffix_app t pre s : suffix t s -> suffix t (pre ++ s).
Proof. intros [p ->]. exists (pre ++ p). now rewrite app_assoc. Qed.

Lemma suffix_trans t u s : suffix t u -> suffix u s -> suffix t s.
Proof. intros [p ->] [q ->]. exists (q ++ p). now rewrite app_assoc. Qed.

Lemma suffix_inv t c s : suffix t (c :: s) -> t = c :: s \/ suffix t s.
Proof.
  intros [[|a pre] E]; simpl in E.
  - left. congruence.
  - right. injection E as _ ->. now exists pre.
Qed.

Lemma suffix_app_inv t pre s :
  suffix t (pre ++ s) ->
  suffix t s \/ exists j, j < List.length pre /\ t = skipn j pre ++ s.
Proof.
  induction pre as [|a pre IH]; simpl; intros H.
  - now left.
  - apply suffix_inv in H as [-> | H].
    + right. exists 0. split; [lia | reflexivity].
    + destruct (IH H) as [H' | (j & Hj & ->)]; [now left|].
      right. exists (S j). split; [lia | reflexivity].
Qed.

(** No match of [m] starts anywhere in [s]. *)
Definition clean (m : chars -> option chars) (s : chars) : Prop :=
  forall t, suffix t s -> m t = None.

Lemma clean_suffix m t s : clean m s -> suffix t s -> clean m t.
Proof. intros H Ht u Hu. apply H. eapply suffix_trans; eauto. Qed.

Section Replace.
Variable icase : bool.
Variable r : re.
Variable by_ : chars.

Let m := matchAt icase r.

(** A match consumes a non-empty prefix of the input. *)
Hypothesis m_consumes :
  forall s rest, m s = Some rest -> exists c w, s = c :: w ++ rest.

Lemma m_nil : m [] = None.
Proof.
  destruct (m []) as [rest|] eqn:E; [|reflexivity].
  destruct (m_consumes _ _ E) as (c & w & H). discriminate.
Qed.

Lemma replaceFrom_skip n s :
  n <= List.length s ->
  replaceFrom icase r by_ n s = replaceAll icase r by_ (skipn n s).
Proof.
  revert s. induction n as [|n IH]; intros s Hn.
  - reflexivity.
  - destruct s as [|c s]; simpl in Hn; [lia|].
    simpl. apply IH. lia.
Qed.

Lemma replaceAll_nil : replaceAll icase r by_ [] = [].
Proof. unfold replaceAll. simpl. fold m. now rewrite m_nil. Qed.

Lemma replaceAll_match s rest :
  m s = Some rest ->
  replaceAll icase r by_ s = by_ ++ replaceAll icase r by_ rest.
Proof.
  intros E. destruct (m_consumes _ _ E) as (c & w & ->).
  unfold replaceAll at 1. simpl. fold m. rewrite E.
  replace (List.length (w ++ rest) - List.length rest) with (List.length w)
    by (rewrite length_app; lia).
  assert (Hs : S (List.length (w ++ rest)) - List.length rest = S (List.length w))
    by (rewrite length_app; lia).
  change (match S (List.length (w ++ rest)) - List.length rest with
          | 0 => by_ ++ c :: replaceFrom icase r by_ 0 (w ++ rest)
          | S n => by_ ++ replaceFrom icase r by_ n (w ++ rest)
          end = by_ ++ replaceAll icase r by_ rest).
  rewrite Hs. f_equal.
  rewrite replaceFrom_skip by (rewrite length_app; lia).
  now rewrite skipn_app, skipn_all, Nat.sub_diag.
Qed.

Lemma replaceAll_copy c s :
  m (c :: s) = None ->
  replaceAll icase r by_ (c :: s) = c :: replaceAll icase r by_ s.
Proof. intros E. unfold replaceAll. simpl. fold m. now rewrite E. Qed.

(** Induction along the scan of [replaceAll]. *)
Lemma replaceAll_ind (P : chars -> chars -> Prop) :
  P [] [] ->
  (forall s rest, m s = Some rest ->
                  P rest (replaceAll icase r by_ rest) ->
                  P s (by_ ++ replaceAll icase r by_ rest)) ->
  (forall c s, m (c :: s) = None ->
               P s (replaceAll icase r by_ s) ->
               P (c :: s) (c :: replaceAll icase r by_ s)) ->
  forall s, P s (replaceAll icase r by_ s).
Proof.
  intros Hnil Hmatch Hcopy s.
  remember (List.length s) as n eqn:Hn.
  revert s Hn. induction n as [n IH] using lt_wf_ind. intros s Hn.
  destruct (m s) as [rest|] eqn:E.
  - rewrite (replaceAll_match _ _ E). apply Hmatch; [exact E|].
    destruct (m_consumes _ _ E) as (c & w & ->).
    apply (IH (List.length rest)); [|reflexivity].
    subst n. simpl. rewrite length_app. lia.
  - destruct s as [|c s].
    + rewrite replaceAll_nil. exact Hnil.
    + rewrite (replaceAll_copy _ _ E). apply Hcopy; [exact E|].
      apply (IH (List.length s)); [|reflexivity]. subst n. simpl. lia.
Qed.

(** Where nothing matches, nothing is replaced. *)
Lemma replaceAll_clean s : clean m s -> replaceAll icase r by_ s = s.
Proof.
  induction s as [|c s IH]; intros H.
  - apply replaceAll_nil.
  - rewrite replaceAll_copy by (apply H, suffix_refl).
    f_equal. apply IH. eapply clean_suffix; [exact H|]. apply suffix_cons, suffix_refl.
Qed.
End Replace.

(** ** What a pattern denotes *)

Definition within (hi : option nat) (n : nat) : Prop :=
  match hi with Some h => n <= h | None => True end.

(** [Matches icase r w rest]: [r] matches the word [w] when [rest]
    follows it. *)
Fixpoint Matches (icase : bool) (r : re) (w rest : chars) : Prop :=
  match r with
  | Eps => w = []
  | One a => exists c, w = [c] /\ matches1 icase a c = true
  | Quant a lo hi =>
      Forall (fun c => matches1 icase a c = true) w
      /\ lo <= List.length w /\ within hi (List.length w)
  | Seq r1 r2 =>
      exists w1 w2, w = w1 ++ w2
                    /\ Matches icase r1 w1 (w2 ++ rest) /\ Matches icase r2 w2 rest
  | Alt r1 r2 => Matches icase r1 w rest \/ Matches icase r2 w rest
  | Ahead r1 => w = [] /\ exists w' rest', rest = w' ++ rest' /\ Matches icase r1 w' rest'
  | Eoi => w = [] /\ rest = []
  end.

Lemma greedy_sound p lo hi s k res :
  greedy p lo hi s k = Some res ->
  exists w rest, s = w ++ rest /\ Forall (fun c => p c = true) w
                 /\ lo <= List.length w /\ within hi (List.length w)
                 /\ k rest = Some res.
Proof.
  revert lo hi. induction s as [|c s IH]; intros lo hi H; simpl in H.
  - destruct lo; [|discriminate].
    exists [], []. repeat split; auto. destruct hi; simpl; lia.
  - assert (Hstop : match lo with 0 => k (c :: s) | S _ => None end = Some res ->
                    exists w rest, c :: s = w ++ rest /\ Forall (fun c => p c = true) w
                                   /\ lo <= List.length w /\ within hi (List.length w)
                                   /\ k rest = Some res).
    { intros E. destruct lo; [|discriminate].
      exists [], (c :: s). repeat split; auto. destruct hi; simpl; lia. }
    destruct (p c && negb (exhausted hi)) eqn:Hc; [|auto].
    destruct (greedy p (pred lo) (option_map pred hi) s k) as [r0|] eqn:E; [|auto].
    injection H as ->.
    apply andb_true_iff in Hc as [Hp Hex].
    destruct (IH _ _ E) as (w & rest & -> & Hw & Hlo & Hhi & Hk).
    exists (c :: w), rest. repeat split; auto; simpl.
    + lia.
    + destruct hi as [[|h]|]; simpl in *; try discriminate; auto; lia.
Qed.

Lemma greedy_complete p lo hi w rest k res :
  Forall (fun c => p c = true) w ->
  lo <= List.length w -> within hi (List.length w) ->
  k rest = Some res ->
  exists res', greedy p lo hi (w ++ rest) k = Some res'.
Proof.
  intros Hw. revert lo hi. induction Hw as [|c w Hc Hw IH]; intros lo hi Hlo Hhi Hk.
  - simpl in Hlo. assert (lo = 0) as -> by lia.
    destruct rest as [|c s]; simpl; [eauto|].
    destruct (p c && negb (exhausted hi)); [|eauto].
    destruct (greedy p 0 (option_map pred hi) s k); eauto.
  - simpl. rewrite Hc.
    assert (Hex : exhausted hi = false).
    { destruct hi as [[|h]|]; simpl in *; auto; lia. }
    rewrite Hex. simpl.
    destruct (IH (pred lo) (option_map pred hi)) as (res' & E).
    + simpl in Hlo. lia.
    + destruct hi as [h|]; simpl in *; auto; lia.
    + exact Hk.
    + rewrite E. eauto.
Qed.

Theorem run_sound icase r : forall s k res,
  run icase r s k = Some res ->
  exists w rest, s = w ++ rest /\ Matches icase r w rest /\ k rest = Some res.
Proof.
  induction r as [|a|a lo hi|r1 IH1 r2 IH2|r1 IH1 r2 IH2|r1 IH1|]; intros s k res H; simpl in H.
  - exists [], s. simpl. auto.
  - destruct s as [|c s]; [discriminate|].
    destruct (matches1 icase a c) eqn:E; [|discriminate].
    exists [c], s. simpl. eauto.
  - apply greedy_sound in H as (w & rest & -> & Hw & Hlo & Hhi & Hk).
    exists w, rest. simpl. auto.
  - apply IH1 in H as (w1 & rest1 & -> & H1 & H).
    apply IH2 in H as (w2 & rest & -> & H2 & Hk).
    exists (w1 ++ w2), rest. rewrite <- app_assoc. simpl. eauto 7.
  - destruct (run icase r1 s k) as [x|] eqn:E.
    + injection H as ->. apply IH1 in E as (w & rest & -> & Hm & Hk).
      exists w, rest. simpl. auto.
    + apply IH2 in H as (w & rest & -> & Hm & Hk).
      exists w, rest. simpl. auto.
  - destruct (run icase r1 s (fun _ => Some [])) as [x|] eqn:E; [|discriminate].
    apply IH1 in E as (w' & rest' & -> & Hm & _).
    exists [], (w' ++ rest'). simpl. eauto 7.
  - destruct s; [|discriminate]. exists [], []. simpl. auto.
Qed.

Theorem run_complete icase r : forall w rest k res,
  Matches icase r w rest -> k rest = Some res ->
  exists res', run icase r (w ++ rest) k = Some res'.
Proof.
  induction r as [|a|a lo hi|r1 IH1 r2 IH2|r1 IH1 r2 IH2|r1 IH1|];
    intros w rest k res Hm Hk; simpl in Hm.
  - subst w. simpl. eauto.
  - destruct Hm as (c & -> & Hc). simpl. rewrite Hc. eauto.
  - destruct Hm as (Hw & Hlo & Hhi). simpl. eapply greedy_complete; eauto.
  - destruct Hm as (w1 & w2 & -> & H1 & H2).
    destruct (IH2 _ _ _ _ H2 Hk) as (res2 & E2).
    rewrite <- app_assoc. simpl.
    eapply (IH1 _ _ (fun s1 => run icase r2 s1 k)); eauto.
  - simpl. destruct Hm as [Hm | Hm].
    + destruct (IH1 _ _ _ _ Hm Hk) as (res' & ->). eauto.
    + destruct (run icase r1 (w ++ rest) k); eauto.
  - destruct Hm as (-> & w' & rest' & -> & Hm). simpl.
    destruct (IH1 w' rest' (fun _ => Some []) [] Hm eq_refl) as (x & ->). eauto.
  - destruct Hm as (-> & ->). simpl. eauto.
Qed.

Corollary matchAt_sound icase r s rest :
  matchAt icase r s = Some rest -> exists w, s = w ++ rest /\ Matches icase r w rest.
Proof.
  intros H. apply run_sound in H as (w & rest' & -> & Hm & E).
  injection E as ->. eauto.
Qed.

Corollary matchAt_complete icase r w rest :
  Matches icase r w rest -> matchAt icase r (w ++ rest) <> None.
Proof.
  intros Hm. destruct (run_complete icase r w rest (fun x => Some x) rest Hm eq_refl) as (x & E).
  unfold matchAt. rewrite E. discriminate.
Qed.


(** ** Static information about a pattern *)

(** A lower bound on the length of a match. *)
Fixpoint minLen (r : re) : nat :=
  match r with
  | Eps | Ahead _ | Eoi => 0
  | One _ => 1
  | Quant _ lo _ => lo
  | Seq r1 r2 => minLen r1 + minLen r2
  | Alt r1 r2 => Nat.min (minLen r1) (minLen r2)
  end.

(** The characters a match may contain. *)
Fixpoint mayContain (icase : bool) (r : re) (c : ascii) : bool :=
  match r with
  | Eps | Ahead _ | Eoi => false
  | One a | Quant a _ _ => matches1 icase a c
  | Seq r1 r2 | Alt r1 r2 => mayContain icase r1 c || mayContain icase r2 c
  end.

(** No look-ahead and no end-of-input assertion. *)
Fixpoint contextFree (r : re) : bool :=
  match r with
  | Eps | One _ | Quant _ _ _ => true
  | Seq r1 r2 | Alt r1 r2 => contextFree r1 && contextFree r2
  | Ahead _ | Eoi => false
  end.

Lemma Matches_minLen icase r : forall w rest,
  Matches icase r w rest -> minLen r <= List.length w.
Proof.
  induction r as [|a|a lo hi|r1 IH1 r2 IH2|r1 IH1 r2 IH2|r1 IH1|];
    intros w rest H; simpl in *.
  - lia.
  - destruct H as (c & -> & _). simpl. lia.
  - tauto.
  - destruct H as (w1 & w2 & -> & H1 & H2).
    apply IH1 in H1. apply IH2 in H2. rewrite length_app. lia.
  - destruct H as [H | H]; [apply IH1 in H | apply IH2 in H]; lia.
  - lia.
  - lia.
Qed.

Lemma Matches_mayContain icase r : forall w rest,
  Matches icase r w rest -> Forall (fun c => mayContain icase r c = true) w.
Proof.
  induction r as [|a|a lo hi|r1 IH1 r2 IH2|r1 IH1 r2 IH2|r1 IH1|];
    intros w rest H; simpl in *.
  - subst. constructor.
  - destruct H as (c & -> & Hc). repeat constructor. exact Hc.
  - tauto.
  - destruct H as (w1 & w2 & -> & H1 & H2).
    apply IH1 in H1. apply IH2 in H2. apply Forall_app. split.
    + eapply Forall_impl; [|exact H1]. simpl. intros c ->. reflexivity.
    + eapply Forall_impl; [|exact H2]. simpl. intros c ->. apply orb_true_r.
  - destruct H as [H | H]; [apply IH1 in H | apply IH2 in H];
      (eapply Forall_impl; [|exact H]); simpl; intros c ->;
      [reflexivity | apply orb_true_r].
  - destruct H as [-> _]. constructor.
  - destruct H as [-> _]. constructor.
Qed.

Lemma Matches_contextFree icase r : forall w rest rest',
  contextFree r = true -> Matches icase r w rest -> Matches icase r w rest'.
Proof.
  induction r as [|a|a lo hi|r1 IH1 r2 IH2|r1 IH1 r2 IH2|r1 IH1|];
    intros w rest rest' Hf H; simpl in *; try discriminate; auto.
  - apply andb_true_iff in Hf as [F1 F2].
    destruct H as (w1 & w2 & -> & H1 & H2). exists w1, w2. eauto.
  - apply andb_true_iff in Hf as [F1 F2]. destruct H; eauto.
Qed.

Lemma matchAt_consumes icase r :
  1 <= minLen r ->
  forall s rest, matchAt icase r s = Some rest -> exists c w, s = c :: w ++ rest.
Proof.
  intros Hl s rest H. apply matchAt_sound in H as (w & -> & Hm).
  apply Matches_minLen in Hm. destruct w as [|c w]; simpl in Hm; [lia|]. exists c, w. reflexivity.
Qed.

(** ** What a replacement leaves behind *)

Section Cleaning.
Variable icase : bool.
Variable r : re.
Variable b : ascii.
Variable by' : chars.

Let by_ := b :: by'.
Let m := matchAt icase r.
Let out := replaceAll icase r by_.

Hypothesis r_consumes : 1 <= minLen r.

Let m_consumes : forall s rest, m s = Some rest -> exists c w, s = c :: w ++ rest.
Proof. exact (matchAt_consumes icase r r_consumes). Qed.

(** A prefix of the output free of the first character of the
    replacement text was copied from the input. *)
Lemma prefix_kept x : forall s rest',
  ~ In b x -> out s = x ++ rest' -> exists rest'', s = x ++ rest''.
Proof.
  induction x as [|a x IH]; intros s rest' Hb E.
  - exists s. reflexivity.
  - destruct (m s) as [rest|] eqn:Em.
    + unfold out in E. rewrite (replaceAll_match icase r by_ m_consumes _ _ Em) in E.
      simpl in E. injection E as -> _. exfalso. apply Hb. now left.
    + destruct s as [|c s].
      * unfold out in E. rewrite (replaceAll_nil icase r by_ m_consumes) in E.
        discriminate.
      * unfold out in E. rewrite (replaceAll_copy icase r by_ _ _ Em) in E.
        simpl in E. injection E as -> E.
        destruct (IH s rest') as (rest'' & ->); auto.
        { intros Hin. apply Hb. now right. }
        exists rest''. reflexivity.
Qed.

Definition atBoundary (rest : chars) : Prop :=
  rest = [] \/ exists t, rest = b :: t.

Hypothesis m_head : forall c s rest, m (c :: s) = Some rest -> c = b.

(** The same up to and including the end of the segment, when
    matches start with the character that starts the replacement. *)
Lemma segment_kept x : forall s rest',
  ~ In b x -> out s = x ++ rest' -> atBoundary rest' ->
  exists rest'', s = x ++ rest'' /\ atBoundary rest''.
Proof.
  induction x as [|a x IH]; intros s rest' Hb E Hr.
  - exists s. split; [reflexivity|]. simpl in E.
    destruct (m s) as [rest|] eqn:Em.
    + destruct s as [|c s].
      * now left.
      * right. apply m_head in Em as ->. eauto.
    + destruct s as [|c s]; [now left|].
      unfold out in E. rewrite (replaceAll_copy icase r by_ _ _ Em) in E.
      destruct Hr as [-> | (t & ->)]; [discriminate|].
      injection E as -> _. right. eauto.
  - destruct (m s) as [rest|] eqn:Em.
    + unfold out in E. rewrite (replaceAll_match icase r by_ m_consumes _ _ Em) in E.
      simpl in E. injection E as -> _. exfalso. apply Hb. now left.
    + destruct s as [|c s].
      * unfold out in E. rewrite (replaceAll_nil icase r by_ m_consumes) in E.
        discriminate.
      * unfold out in E. rewrite (replaceAll_copy icase r by_ _ _ Em) in E.
        simpl in E. injection E as -> E.
        destruct (IH s rest') as (rest'' & -> & Hr''); auto.
        { intros Hin. apply Hb. now right. }
        exists rest''. split; [reflexivity | assumption].
Qed.

(** Cleaning: the output holds no match of [m2], provided the
    replacement text starts none and a match in the output comes
    from one in the input. *)
Section Against.
Variable m2 : chars -> option chars.

Hypothesis m2_nil : m2 [] = None.
Hypothesis by_inert :
  forall j X, j < List.length by_ -> m2 (skipn j by_ ++ X) = None.
Hypothesis transfer :
  forall c s, m2 (c :: out s) <> None -> m2 (c :: s) <> None.

Theorem replaceAll_cleans s :
  (forall t, suffix t s -> m t = None -> m2 t = None) -> clean m2 (out s).
Proof.
  unfold out.
  apply (replaceAll_ind icase r by_ m_consumes
           (fun s o => (forall t, suffix t s -> m t = None -> m2 t = None) -> clean m2 o)).
  - intros _ t [pre E]. destruct pre; [|discriminate]. simpl in E. now subst.
  - intros s0 rest Em IH Hs t Ht.
    apply suffix_app_inv in Ht as [Ht | (j & Hj & ->)].
    + apply IH; [|exact Ht]. intros u Hu. apply Hs.
      destruct (m_consumes _ _ Em) as (c & w & ->).
      apply suffix_cons, suffix_app, Hu.
    + now apply by_inert.
  - intros c s0 Em IH Hs t Ht.
    apply suffix_inv in Ht as [-> | Ht].
    + destruct (m2 (c :: replaceAll icase r by_ s0)) as [x|] eqn:E2; [|reflexivity].
      exfalso. apply (transfer c s0).
      * unfold out. rewrite E2. discriminate.
      * apply Hs; [apply suffix_refl | exact Em].
    + apply IH; [|exact Ht]. intros u Hu. apply Hs. now apply suffix_cons.
Qed.
End Against.

(** A pattern without assertions whose matches never contain [b]. *)
Lemma transfer_contextFree icase2 r2 c s :
  contextFree r2 = true -> 1 <= minLen r2 -> mayContain icase2 r2 b = false ->
  matchAt icase2 r2 (c :: out s) <> None -> matchAt icase2 r2 (c :: s) <> None.
Proof.
  intros Hf Hl Hb H.
  destruct (matchAt icase2 r2 (c :: out s)) as [rest|] eqn:E; [clear H|congruence].
  apply matchAt_sound in E as (w & E & Hm).
  pose proof (Matches_minLen _ _ _ _ Hm) as Hlen.
  pose proof (Matches_mayContain _ _ _ _ Hm) as Hch.
  destruct w as [|c' x]; simpl in Hlen; [lia|].
  simpl in E. injection E as <- E.
  destruct (prefix_kept x s rest) as (rest'' & ->); auto.
  { inversion Hch as [|? ? _ Hx]; subst. intros Hin.
    rewrite Forall_forall in Hx. apply Hx in Hin. congruence. }
  change (c :: x ++ rest'') with ((c :: x) ++ rest'').
  apply matchAt_complete. eapply Matches_contextFree; eauto.
Qed.
End Cleaning.
End RegExpFacts.

(* ================================================================== *)
(** * Properties of path normalization *)
(* ================================================================== *)

Module NormalizeFacts.
Import JS RegExp RegExpFacts Generate.

Local Open Scope char_scope.

(** ** Segment patterns: [/], a run of one class, then [/] or the end *)

Definition segment (a : atom) (lo : nat) (hi : option nat) : re :=
  Seq (lit "/") (Seq (Quant a lo hi) boundary).

Lemma lit_slash icase c : matches1 icase (Lit "/") c = true <-> c = "/".
Proof.
  destruct icase; unfold matches1.
  - destruct c as [[] [] [] [] [] [] [] []]; vm_compute; split; congruence.
  - rewrite Ascii.eqb_eq. split; congruence.
Qed.

Definition ended (rest : chars) : Prop := rest = [] \/ exists t, rest = "/" :: t.

Lemma Matches_segment icase a lo hi w rest :
  Matches icase (segment a lo hi) w rest <->
  exists x, w = "/" :: x
            /\ Forall (fun c => matches1 icase a c = true) x
            /\ lo <= List.length x /\ within hi (List.length x)
            /\ ended rest.
Proof.
  unfold segment, boundary, lit. simpl. split.
  - intros (w1 & w2 & -> & (c & -> & Hc) & w3 & w4 & -> & (Hx & Hlo & Hhi)
            & -> & w' & rest' & -> & Hb).
    apply lit_slash in Hc as ->. exists w3. rewrite app_nil_r.
    repeat split; auto.
    destruct Hb as [(c & -> & Hc) | (-> & ->)].
    + apply lit_slash in Hc as ->. right. exists rest'. reflexivity.
    + now left.
  - intros (x & -> & Hx & Hlo & Hhi & Hr).
    exists ["/"], x. split; [reflexivity|]. split.
    + exists "/". split; [reflexivity|]. now apply lit_slash.
    + exists x, []. rewrite app_nil_r. repeat split; auto.
      destruct Hr as [-> | (t & ->)].
      * exists [], []. split; [reflexivity|]. right. auto.
      * exists ["/"], t. split; [reflexivity|]. left.
        exists "/". split; [reflexivity|]. now apply lit_slash.
Qed.

Lemma segment_head icase a lo hi c s rest :
  matchAt icase (segment a lo hi) (c :: s) = Some rest -> c = "/".
Proof.
  intros H. apply matchAt_sound in H as (w & E & Hm).
  apply Matches_segment in Hm as (x & -> & _). simpl in E. congruence.
Qed.

Lemma segment_minLen a lo hi : 1 <= minLen (segment a lo hi).
Proof. simpl. lia. Qed.

(** A segment match in the output of a segment replacement was
    already a match in the input. *)
Lemma transfer_segment icase r by' icase2 a2 lo2 hi2 c s :
  1 <= minLen r ->
  (forall c s rest, matchAt icase r (c :: s) = Some rest -> c = "/") ->
  matches1 icase2 a2 "/" = false ->
  matchAt icase2 (segment a2 lo2 hi2) (c :: replaceAll icase r ("/" :: by') s) <> None ->
  matchAt icase2 (segment a2 lo2 hi2) (c :: s) <> None.
Proof.
  intros Hl Hhead Hslash H.
  destruct (matchAt icase2 (segment a2 lo2 hi2) (c :: replaceAll icase r ("/" :: by') s))
    as [rest|] eqn:E; [clear H|congruence].
  apply matchAt_sound in E as (w & E & Hm).
  apply Matches_segment in Hm as (x & -> & Hx & Hlo & Hhi & Hr).
  simpl in E. injection E as -> E.
  destruct (segment_kept icase r "/" by' Hl Hhead x s rest) as (rest'' & -> & Hr'');
    auto.
  { intros Hin. rewrite Forall_forall in Hx. apply Hx in Hin. congruence. }
  change ("/" :: x ++ rest'') with (("/" :: x) ++ rest'').
  apply matchAt_complete, Matches_segment. exists x. repeat split; auto.
Qed.

(** ** The four replacements on character lists *)

Definition mU := matchAt true uuidRe.
Definition mH := matchAt true hashRe.
Definition mI := matchAt false idRe.
Definition mT := matchAt false tsRe.

Definition stepU := replaceAll true uuidRe (list_ascii_of_string "{uuid}").
Definition stepH := replaceAll true hashRe (list_ascii_of_string "/{hash}").
Definition stepI := replaceAll false idRe (list_ascii_of_string "/{id}").
Definition stepT := replaceAll false tsRe (list_ascii_of_string "/{ts}").

Ltac inert :=
  let j := fresh "j" in
  let X := fresh "X" in
  let Hj := fresh "Hj" in
  intros j X Hj;
  repeat (destruct j as [|j]; [reflexivity|]);
  simpl in Hj; lia.

Lemma uuid_consumes : 1 <= minLen uuidRe.
Proof. vm_compute. lia. Qed.

Lemma hash_consumes : 1 <= minLen hashRe.
Proof. apply (segment_minLen hex 8 (Some 64)). Qed.

Lemma id_consumes : 1 <= minLen idRe.
Proof. apply (segment_minLen digit 2 None). Qed.

Lemma ts_consumes : 1 <= minLen tsRe.
Proof. apply (segment_minLen digit 10 (Some 13)). Qed.

Lemma hash_head c s rest : matchAt true hashRe (c :: s) = Some rest -> c = "/".
Proof. apply (segment_head true hex 8 (Some 64)). Qed.

Lemma id_head c s rest : matchAt false idRe (c :: s) = Some rest -> c = "/".
Proof. apply (segment_head false digit 2 None). Qed.

Lemma stepU_clean_U s : clean mU (stepU s).
Proof.
  apply (replaceAll_cleans true uuidRe "{" (list_ascii_of_string "uuid}") uuid_consumes mU).
  - reflexivity.
  - inert.
  - intros c s0. apply transfer_contextFree; auto using uuid_consumes.
  - auto.
Qed.

Lemma stepH_keeps_U s : clean mU s -> clean mU (stepH s).
Proof.
  intros Hs.
  apply (replaceAll_cleans true hashRe "/" (list_ascii_of_string "{hash}")
           hash_consumes mU).
  - reflexivity.
  - inert.
  - intros c s0. apply transfer_contextFree; auto using uuid_consumes, hash_consumes.
  - intros t Ht _. now apply Hs.
Qed.

Lemma stepI_keeps_U s : clean mU s -> clean mU (stepI s).
Proof.
  intros Hs.
  apply (replaceAll_cleans false idRe "/" (list_ascii_of_string "{id}")
           id_consumes mU).
  - reflexivity.
  - inert.
  - intros c s0. apply transfer_contextFree; auto using uuid_consumes, id_consumes.
  - intros t Ht _. now apply Hs.
Qed.

Lemma stepH_clean_H s : clean mH (stepH s).
Proof.
  apply (replaceAll_cleans true hashRe "/" (list_ascii_of_string "{hash}")
           hash_consumes mH).
  - reflexivity.
  - inert.
  - intros c s0.
    apply (transfer_segment true hashRe _ true hex 8 (Some 64));
      [exact hash_consumes | exact hash_head | reflexivity].
  - auto.
Qed.

Lemma stepI_keeps_H s : clean mH s -> clean mH (stepI s).
Proof.
  intros Hs.
  apply (replaceAll_cleans false idRe "/" (list_ascii_of_string "{id}")
           id_consumes mH).
  - reflexivity.
  - inert.
  - intros c s0.
    apply (transfer_segment false idRe _ true hex 8 (Some 64));
      [exact id_consumes | exact id_head | reflexivity].
  - intros t Ht _. now apply Hs.
Qed.

Lemma stepI_clean_I s : clean mI (stepI s).
Proof.
  apply (replaceAll_cleans false idRe "/" (list_ascii_of_string "{id}")
           id_consumes mI).
  - reflexivity.
  - inert.
  - intros c s0.
    apply (transfer_segment false idRe _ false digit 2 None);
      [exact id_consumes | exact id_head | reflexivity].
  - auto.
Qed.

(** Whatever the timestamp pattern matches, the numeric-id pattern
    matches too. *)
Lemma ts_within_id s : mT s <> None -> mI s <> None.
Proof.
  unfold mT, mI. intros H.
  destruct (matchAt false tsRe s) as [rest|] eqn:E; [clear H|congruence].
  apply matchAt_sound in E as (w & -> & Hm).
  apply (Matches_segment false digit 10 (Some 13)) in Hm
    as (x & -> & Hx & Hlo & Hhi & Hr).
  apply matchAt_complete, (Matches_segment false digit 2 None).
  exists x. repeat split; auto. lia.
Qed.

Lemma clean_I_T s : clean mI s -> clean mT s.
Proof.
  intros H t Ht. destruct (mT t) eqn:E; [|reflexivity].
  exfalso. apply (ts_within_id t); [congruence|]. now apply H.
Qed.

(** After the numeric-id replacement the timestamp replacement finds
    nothing left to replace. *)
Lemma stepT_after_I s : stepT (stepI s) = stepI s.
Proof.
  apply (replaceAll_clean false tsRe _ (matchAt_consumes false tsRe ts_consumes)).
  apply clean_I_T, stepI_clean_I.
Qed.

Definition rewriteChars (s : chars) : chars := stepT (stepI (stepH (stepU s))).

Lemma rewriteChars_clean s :
  clean mU (rewriteChars s) /\ clean mH (rewriteChars s) /\ clean mI (rewriteChars s).
Proof.
  unfold rewriteChars. rewrite stepT_after_I. repeat split.
  - apply stepI_keeps_U, stepH_keeps_U, stepU_clean_U.
  - apply stepI_keeps_H, stepH_clean_H.
  - apply stepI_clean_I.
Qed.

Lemma rewriteChars_fixed s :
  clean mU s -> clean mH s -> clean mI s -> rewriteChars s = s.
Proof.
  intros HU HH HI. unfold rewriteChars, stepU, stepH, stepI, stepT.
  rewrite (replaceAll_clean true uuidRe _ (matchAt_consumes true uuidRe uuid_consumes) s HU).
  rewrite (replaceAll_clean true hashRe _
             (matchAt_consumes true hashRe hash_consumes) s HH).
  rewrite (replaceAll_clean false idRe _
             (matchAt_consumes false idRe id_consumes) s HI).
  apply (replaceAll_clean false tsRe _ (matchAt_consumes false tsRe ts_consumes)).
  now apply clean_I_T.
Qed.

Lemma rewriteChars_idempotent s : rewriteChars (rewriteChars s) = rewriteChars s.
Proof.
  destruct (rewriteChars_clean s) as (HU & HH & HI). now apply rewriteChars_fixed.
Qed.

Lemma rewritePath_chars p :
  rewritePath p = string_of_list_ascii (rewriteChars (list_ascii_of_string p)).
Proof.
  unfold rewritePath, replaceAllS, rewriteChars, stepU, stepH, stepI, stepT.
  now rewrite !list_ascii_of_string_of_list_ascii.
Qed.

Lemma rewritePath_idempotent p : rewritePath (rewritePath p) = rewritePath p.
Proof.
  rewrite !rewritePath_chars, list_ascii_of_string_of_list_ascii.
  now rewrite rewriteChars_idempotent.
Qed.
End NormalizeFacts.

(* ================================================================== *)
(** * Claims about path normalization *)
(* ================================================================== *)

Module Normalization.
Import JS RegExp RegExpFacts Generate NormalizeFacts.
Local Open Scope string_scope.

Lemma replaceAll_keeps_head icase r by_ c s :
  1 <= minLen r ->
  (forall rest, matchAt icase r (c :: s) = Some rest -> exists by', by_ = c :: by') ->
  exists o, replaceAll icase r by_ (c :: s) = c :: o.
Proof.
  intros Hl Hby. destruct (matchAt icase r (c :: s)) as [rest|] eqn:E.
  - destruct (Hby rest eq_refl) as (by' & ->).
    rewrite (replaceAll_match icase r _ (matchAt_consumes icase r Hl) _ _ E).
    simpl. eauto.
  - rewrite (replaceAll_copy icase r _ _ _ E). eauto.
Qed.

(** A rooted path stays rooted. *)
Lemma rewriteChars_rooted s : exists o, rewriteChars ("/"%char :: s) = "/"%char :: o.
Proof.
  unfold rewriteChars.
  destruct (replaceAll_keeps_head true uuidRe (list_ascii_of_string "{uuid}") "/"%char s
              uuid_consumes) as (o1 & E1).
  { intros rest H. discriminate H. }
  unfold stepU. rewrite E1.
  destruct (replaceAll_keeps_head true hashRe (list_ascii_of_string "/{hash}") "/"%char o1
              hash_consumes) as (o2 & E2).
  { intros rest _. simpl. eauto. }
  unfold stepH. rewrite E2.
  destruct (replaceAll_keeps_head false idRe (list_ascii_of_string "/{id}") "/"%char o2
              id_consumes) as (o3 & E3).
  { intros rest _. simpl. eauto. }
  unfold stepI. rewrite E3.
  destruct (replaceAll_keeps_head false tsRe (list_ascii_of_string "/{ts}") "/"%char o3
              ts_consumes) as (o4 & E4).
  { intros rest _. simpl. eauto. }
  unfold stepT. rewrite E4. eauto.
Qed.

Lemma rewritePath_rooted t : exists t', rewritePath (String "/" t) = String "/" t'.
Proof.
  rewrite rewritePath_chars. simpl.
  destruct (rewriteChars_rooted (list_ascii_of_string t)) as (o & ->).
  simpl. eauto.
Qed.

(** The reference reading of the platform rejects, as the platform
    does, a string that starts with a slash: it names no scheme. *)
Lemma Node_newURL_rooted t : Node.newURL (String "/" t) = None.
Proof.
  unfold Node.newURL. simpl. destruct (Node.stripEnd t); reflexivity.
Qed.

Definition ordersURL : string := "https://api.example.com/users/48291/orders/3".
Definition itemsURL : string :=
  "https://api.example.com/items/01234567-89ab-cdef-0123-456789abcdef/view".
Definition blobURL : string := "blob:https://example.com/app".
Definition blobUuidURL : string :=
  "blob:https://example.com/550e8400-e29b-41d4-a716-446655440000".

(** C1 (as amended).  For a URL whose path is
    [/items/01234567-89ab-cdef-0123-456789abcdef/view], [normalizePath]
    yields [/items/{uuid}/view]; for one whose path is
    [/users/48291/orders/3] it yields [/users/{id}/orders/3]: the
    numeric-id rule asks for two digits or more, so the one-digit
    segment stays. *)
Theorem normalizePath_examples (newURL : string -> option URL) (u : string) (U : URL) :
  newURL u = Some U ->
  (pathname U = "/items/01234567-89ab-cdef-0123-456789abcdef/view" ->
   normalizePath newURL u = "/items/{uuid}/view")
  /\ (pathname U = "/users/48291/orders/3" ->
      normalizePath newURL u = "/users/{id}/orders/3").
Proof.
  intros HU. unfold normalizePath. rewrite HU.
  split; intros ->; vm_compute; reflexivity.
Qed.

Lemma normalizePath_examples_witness :
  normalizePath Node.newURL itemsURL = "/items/{uuid}/view"
  /\ normalizePath Node.newURL ordersURL = "/users/{id}/orders/3".
Proof.
  split.
  - apply (proj1 (normalizePath_examples Node.newURL itemsURL
                    (mkURL "api.example.com"
                           "/items/01234567-89ab-cdef-0123-456789abcdef/view" [])
                    eq_refl)).
    reflexivity.
  - apply (proj2 (normalizePath_examples Node.newURL ordersURL
                    (mkURL "api.example.com" "/users/48291/orders/3" []) eq_refl)).
    reflexivity.
Defined.

(** C1 as stated fails: the path [/users/48291/orders/3] is not turned
    into [/users/{id}/orders/{id}]. *)
Lemma normalizePath_orders_counterexample :
  Node.newURL ordersURL = Some (mkURL "api.example.com" "/users/48291/orders/3" [])
  /\ normalizePath Node.newURL ordersURL = "/users/{id}/orders/3"
  /\ normalizePath Node.newURL ordersURL <> "/users/{id}/orders/{id}".
Proof.
  split; [reflexivity|]. split; [reflexivity|].
  vm_compute. discriminate.
Qed.

(** What the code does on the third example of the specification: the
    thirteen digits are eight to sixty-four hexadecimal characters, so
    the hash rule, applied first, takes the segment. *)
Lemma normalizePath_sync_example (newURL : string -> option URL) (u : string) (U : URL) :
  newURL u = Some U -> pathname U = "/sync/1700000000000" ->
  normalizePath newURL u = "/sync/{hash}".
Proof.
  intros HU HP. unfold normalizePath. rewrite HU, HP. vm_compute. reflexivity.
Qed.

(** The timestamp replacement never changes what the numeric-id
    replacement produced: the fourth [replace] is without effect. *)
Lemma rewritePath_without_ts p :
  rewritePath p =
  replaceAllS false idRe "/{id}"
    (replaceAllS true hashRe "/{hash}" (replaceAllS true uuidRe "{uuid}" p)).
Proof.
  unfold rewritePath, replaceAllS.
  rewrite !list_ascii_of_string_of_list_ascii. f_equal.
  apply stepT_after_I.
Qed.

(** C6 (as amended).  For a URL string that does not parse, or whose
    path name starts with a slash (every http and https URL),
    applying [normalizePath] to the template it produced gives that
    template again; and the four replacements themselves, applied to
    their own output, leave any path unchanged. *)
Theorem normalizePath_idempotent (newURL : string -> option URL) (u : string) :
  (forall t, newURL (String "/" t) = None) ->
  (forall U, newURL u = Some U -> exists t, pathname U = String "/" t) ->
  normalizePath newURL (normalizePath newURL u) = normalizePath newURL u
  /\ (forall p, rewritePath (rewritePath p) = rewritePath p).
Proof.
  intros Hrooted Hu. split; [|apply rewritePath_idempotent].
  unfold normalizePath at 2 3.
  destruct (newURL u) as [U|] eqn:E.
  - destruct (Hu U eq_refl) as (t & ->).
    destruct (rewritePath_rooted t) as (t' & ->).
    unfold normalizePath. now rewrite Hrooted.
  - unfold normalizePath. now rewrite E.
Qed.

Lemma normalizePath_idempotent_witness :
  normalizePath Node.newURL (normalizePath Node.newURL ordersURL)
  = normalizePath Node.newURL ordersURL.
Proof.
  refine (proj1 (normalizePath_idempotent Node.newURL ordersURL Node_newURL_rooted _)).
  intros U H. vm_compute in H. injection H as <-. eexists. reflexivity.
Defined.

(** C6 as stated fails for a URL with an opaque path: the template
    produced for a [blob:] URL is itself a URL, and normalizing it
    again gives another string. *)
Lemma normalizePath_blob_counterexample :
  normalizePath Node.newURL blobURL = "https://example.com/app"
  /\ normalizePath Node.newURL (normalizePath Node.newURL blobURL) = "/app"
  /\ normalizePath Node.newURL blobUuidURL = "https://example.com/{uuid}"
  /\ normalizePath Node.newURL (normalizePath Node.newURL blobUuidURL) = "/%7Buuid%7D"
  /\ normalizePath Node.newURL (normalizePath Node.newURL blobURL)
     <> normalizePath Node.newURL blobURL.
Proof.
  repeat split; try reflexivity. vm_compute. discriminate.
Qed.
End Normalization.

(* ================================================================== *)
(** * Claims about schema inference *)
(* ================================================================== *)

Module Schema.
Import JS Generate.
Local Open Scope string_scope.

Definition quoted (s : string) : string := dquote ++ s ++ dquote.

(** The JSON text of the specification's example, and its value. *)
Definition exampleText : string :=
  "{" ++ quoted "a" ++ ":1," ++ quoted "b" ++ ":[1,2,3]}".

Definition exampleValue : json :=
  JObject [("a", JNumber "1"); ("b", JArray [JNumber "1"; JNumber "2"; JNumber "3"])].

Definition exampleSchema : string :=
  "{" ++ nl ++ "  a: number" ++ nl ++ "  b: [number] (3 items)" ++ nl ++ "}".

(** The line of one object entry. *)
Definition fieldLine (depth maxDepth : nat) (kv : string * json) : string :=
  "  " ++ fst kv ++ ": " ++ describeType (snd kv) (depth + 1) maxDepth.

Lemma fields_firstn depth maxDepth : forall n entries,
  (fix fields (n : nat) (es : list (string * json)) {struct es} : list string :=
     match n, es with
     | S n', (k, v) :: es' =>
         ("  " ++ k ++ ": " ++ describeType v (depth + 1) maxDepth) :: fields n' es'
     | _, _ => []
     end) n entries
  = map (fieldLine depth maxDepth) (firstn n entries).
Proof.
  intros n entries. revert n.
  induction entries as [|[k v] es IH]; intros [|n]; try reflexivity.
  simpl firstn. simpl map. rewrite <- IH. reflexivity.
Qed.

(** The unfolding of [describeType] on an object. *)
Lemma describeType_object entries depth maxDepth :
  describeType (JObject entries) depth maxDepth
  = if (maxDepth <=? depth)%nat
    then "{..." ++ ofNat (List.length entries) ++ " keys}"
    else "{" ++ nl
             ++ join nl
                  ((fix fields (n : nat) (es : list (string * json)) {struct es}
                      : list string :=
                      match n, es with
                      | S n', (k, v) :: es' =>
                          ("  " ++ k ++ ": " ++ describeType v (depth + 1) maxDepth)
                            :: fields n' es'
                      | _, _ => []
                      end) 15 entries)
             ++ (if (15 <? List.length entries)%nat
                 then nl ++ "  ..." ++ ofNat (List.length entries - 15) ++ " more keys"
                 else "")
             ++ nl ++ "}".
Proof. reflexivity. Qed.

(** C8.  The schema of a text that parses is the description, from
    depth 0 and to the given bound, of the value it parses to; so on
    the text [{"a":1,"b":[1,2,3]}] at depth bound 2 the field [b] is
    rendered as the description of its first element with the length
    3 of the array.  In a description an empty array renders as [[]];
    below the bound a non-empty array renders the description of its
    first element with its length, and an object one line per entry
    for its first fifteen entries; at or beyond the bound they render
    as an item count and a key count; text that does not parse yields
    no schema. *)
Theorem inferSchema_describes (JSON_parse : string -> option json) :
  (forall text maxDepth v,
      JSON_parse text = Some v ->
      inferSchema JSON_parse text maxDepth = Some (describeType v 0 maxDepth))
  /\ (JSON_parse exampleText = Some exampleValue ->
      inferSchema JSON_parse exampleText 2 = Some exampleSchema)
  /\ (forall a first others,
         describeType (JObject [("a", a); ("b", JArray (first :: others))]) 0 2
         = "{" ++ nl
               ++ join nl ["  a: " ++ describeType a 1 2;
                           "  b: [" ++ describeType first 2 2 ++ "] ("
                             ++ ofNat (S (List.length others)) ++ " items)"]
               ++ nl ++ "}")
  /\ (forall depth maxDepth, describeType (JArray []) depth maxDepth = "[]")
  /\ (forall first others depth maxDepth,
         depth < maxDepth ->
         describeType (JArray (first :: others)) depth maxDepth
         = "[" ++ describeType first (depth + 1) maxDepth ++ "] ("
               ++ ofNat (S (List.length others)) ++ " items)")
  /\ (forall first others depth maxDepth,
         maxDepth <= depth ->
         describeType (JArray (first :: others)) depth maxDepth
         = "[..." ++ ofNat (S (List.length others)) ++ " items]")
  /\ (forall entries depth maxDepth,
         depth < maxDepth ->
         describeType (JObject entries) depth maxDepth
         = "{" ++ nl
               ++ join nl (map (fieldLine depth maxDepth) (firstn 15 entries))
               ++ (if (15 <? List.length entries)%nat
                   then nl ++ "  ..." ++ ofNat (List.length entries - 15) ++ " more keys"
                   else "")
               ++ nl ++ "}")
  /\ (forall entries depth maxDepth,
         maxDepth <= depth ->
         describeType (JObject entries) depth maxDepth
         = "{..." ++ ofNat (List.length entries) ++ " keys}")
  /\ (forall text maxDepth,
         JSON_parse text = None -> inferSchema JSON_parse text maxDepth = None).
Proof.
  split; [|split; [|split; [|split; [|split; [|split; [|split; [|split]]]]]]].
  - intros text maxDepth v H. unfold inferSchema. rewrite H. reflexivity.
  - intros H. unfold inferSchema. rewrite H. reflexivity.
  - intros a first others. reflexivity.
  - reflexivity.
  - intros first others depth maxDepth H. simpl.
    apply Nat.leb_gt in H. rewrite H. reflexivity.
  - intros first others depth maxDepth H. simpl.
    apply Nat.leb_le in H. rewrite H. reflexivity.
  - intros entries depth maxDepth H. rewrite describeType_object.
    apply Nat.leb_gt in H. rewrite H.
    rewrite fields_firstn. reflexivity.
  - intros entries depth maxDepth H. rewrite describeType_object.
    apply Nat.leb_le in H. rewrite H. reflexivity.
  - intros text maxDepth H. unfold inferSchema. rewrite H. reflexivity.
Qed.

Lemma inferSchema_describes_witness :
  inferSchema Node.JSON_parse exampleText 2 = Some exampleSchema
  /\ inferSchema Node.JSON_parse "[[7,8],[9]]" 1
     = Some (describeType (JArray [JArray [JNumber "7"; JNumber "8"]; JArray [JNumber "9"]]) 0 1)
  /\ describeType (JArray [JNumber "1"; JNumber "2"; JNumber "3"]) 1 2
     = "[number] (3 items)"
  /\ describeType (JArray [JNumber "1"; JNumber "2"; JNumber "3"]) 2 2
     = "[...3 items]"
  /\ inferSchema Node.JSON_parse "[1,2" 2 = None.
Proof.
  pose proof (inferSchema_describes Node.JSON_parse)
    as (Hall & Hex & _ & _ & Hbelow & Hbeyond & _ & _ & Hbad).
  split; [apply Hex; reflexivity|].
  split; [apply Hall; reflexivity|].
  split; [rewrite Hbelow by lia; reflexivity|].
  split; [rewrite Hbeyond by lia; reflexivity|].
  apply Hbad. reflexivity.
Defined.
End Schema.

(* ================================================================== *)
(** * Claims about authentication patterns *)
(* ================================================================== *)

Module Auth.
Import JS Generate.


Section SortFacts.
Variable A : Type.
Variable cmp : A -> A -> Z.

Lemma insert_perm x l : Permutation (insert cmp x l) (x :: l).
Proof.
  induction l as [|y l IH]; simpl; [reflexivity|].
  destruct (cmp x y <=? 0)%Z; [reflexivity|].
  rewrite IH. apply perm_swap.
Qed.

Lemma sort_perm l : Permutation (sort cmp l) l.
Proof.
  induction l as [|x l IH]; simpl; [reflexivity|].
  rewrite insert_perm. now constructor.
Qed.

(** The order a comparator induces, when it is a total preorder. *)
Variable before : A -> A -> Prop.
Hypothesis cmp_before : forall x y, (cmp x y <= 0)%Z -> before x y.
Hypothesis cmp_after : forall x y, (0 < cmp x y)%Z -> before y x.
Hypothesis before_trans : forall x y z, before x y -> before y z -> before x z.

Lemma insert_sorted x l :
  StronglySorted before l -> StronglySorted before (insert cmp x l).
Proof.
  induction 1 as [|y l Hl IH Hy]; simpl.
  - repeat constructor.
  - destruct (cmp x y <=? 0)%Z eqn:E.
    + apply Z.leb_le in E. constructor.
      * now constructor.
      * constructor; [now apply cmp_before|].
        eapply Forall_impl; [|exact Hy]. intros z Hz.
        eapply before_trans; [apply cmp_before|]; eauto.
    + apply Z.leb_gt in E. constructor; [exact IH|].
      apply (Permutation_Forall (Permutation_sym (insert_perm x l))).
      constructor; [now apply cmp_after | exact Hy].
Qed.

Lemma sort_sorted l : StronglySorted before (sort cmp l).
Proof.
  induction l as [|x l IH]; simpl; [constructor | now apply insert_sorted].
Qed.
End SortFacts.




Local Open Scope string_scope.

(** Ten requests: a cookie [session_id] in six of them, a cookie
    [promo] in four of them. *)
Definition withCookie (value : string) : entry :=
  mkEntry "2024-01-02T03:04:05.678Z" "GET" "https://api.example.com/cart"
          [("Accept", "application/json"); ("Cookie", value)]
          None "XHR" (Some 200) [] None.

Definition withoutCookie : entry :=
  mkEntry "2024-01-02T03:04:05.678Z" "GET" "https://api.example.com/cart"
          [("Accept", "application/json")] None "XHR" (Some 200) [] None.

Definition tenRequests : list entry :=
  [withCookie "session_id=abc; promo=1"; withCookie "session_id=abc; promo=1";
   withCookie "session_id=abc; promo=1"; withCookie "session_id=abc; promo=1";
   withCookie "session_id=abc"; withCookie "session_id=abc";
   withoutCookie; withoutCookie; withoutCookie; withoutCookie]%string.
End Auth.

(* ================================================================== *)
(** * Claims about the synthesized document *)
(* ================================================================== *)

Module Synthesis.
Import JS Generate.
Local Open Scope string_scope.

Definition responseTitle : string := "**Response schema:**".

Lemma truthy_Some o body : truthy o = Some body -> o = Some body /\ body <> "".
Proof.
  destruct o as [[|c s]|]; simpl; intros H; try discriminate.
  injection H as <-. split; [reflexivity | discriminate].
Qed.

(** A schema never reads as the title of the response block. *)
Lemma describeType_not_title v depth maxDepth :
  describeType v depth maxDepth <> responseTitle.
Proof.
  destruct v as [|b|n|s|items|entries].
  - discriminate.
  - discriminate.
  - discriminate.
  - simpl. destruct (80 <? String.length s)%nat; discriminate.
  - simpl. destruct items; [discriminate|].
    destruct (maxDepth <=? depth)%nat; discriminate.
  - rewrite Schema.describeType_object.
    destruct (maxDepth <=? depth)%nat; discriminate.
Qed.

Lemma schemaBlock_In JSON_parse title body line :
  In line (schemaBlock JSON_parse title body) ->
  line = title \/ line = "```" \/ line = ""
  \/ exists v, JSON_parse body = Some v /\ line = describeType v 0 2.
Proof.
  unfold schemaBlock, inferSchema.
  destruct (JSON_parse body) as [v|]; [|intros []].
  destruct (describeType v 0 2) as [|c s] eqn:E; [intros []|].
  simpl. intros [H | [H | [H | [H | [H | []]]]]]; subst; eauto 6.
Qed.

Lemma responseSchemaBlock_In JSON_parse rep line :
  In line (responseSchemaBlock JSON_parse rep) ->
  exists body, responseBody rep = Some body /\ body <> ""
               /\ startsWith "[" body = false.
Proof.
  unfold responseSchemaBlock.
  destruct (truthy (responseBody rep)) as [body|] eqn:E; [|intros []].
  apply truthy_Some in E as [E Hne].
  destruct (startsWith "[" body) eqn:Hs; simpl; [intros []|].
  intros _. eauto.
Qed.

(** The lines of an endpoint section that precede its response block. *)
Definition sectionHead (JSON_parse : string -> option json)
           (ep : endpoint) (rep : entry) : list string :=
  ["### " ++ ep_method ep ++ " " ++ normalizedPath ep ++ queryStr ep
      ++ "  (observed " ++ ofNat (List.length (ep_requests ep)) ++ "x)";
   "";
   "**Example URL:** `" ++ url rep ++ "`";
   "";
   statusLine (ep_requests ep);
   ""]
    ++ curlBlock rep ++ requestSchemaBlock JSON_parse ep rep.

Lemma endpointSection_split JSON_parse ep rep :
  representative (ep_requests ep) = Some rep ->
  endpointSection JSON_parse ep
  = (sectionHead JSON_parse ep rep ++ responseSchemaBlock JSON_parse rep)%list.
Proof.
  intros H. unfold endpointSection, sectionHead. rewrite H.
  rewrite <- !app_assoc. reflexivity.
Qed.

Lemma sectionHead_no_title JSON_parse ep rep :
  ~ In responseTitle (sectionHead JSON_parse ep rep).
Proof.
  unfold sectionHead. intros H.
  apply in_app_or in H as [H | H]; [|apply in_app_or in H as [H | H]].
  - simpl in H. unfold statusLine in H.
    destruct H as [H | [H | [H | [H | [H | [H | []]]]]]]; discriminate H.
  - unfold curlBlock in H. simpl in H.
    destruct H as [H | [H | [H | [H | []]]]]; discriminate H.
  - unfold requestSchemaBlock in H.
    destruct (truthy (requestBody rep)) as [body|]; [|destruct H].
    destruct (existsb _ _); [|destruct H].
    apply schemaBlock_In in H as [H | [H | [H | (v & _ & H)]]]; try discriminate H.
    symmetry in H. now apply describeType_not_title in H.
Qed.

(** C9 (as amended).  The response-schema block of an endpoint
    section is empty whenever the representative record's response
    body begins with the character [[]: the section then holds no
    response schema, whether or not the body is valid JSON.  This
    covers an array text that begins with its bracket and the
    diagnostic [[failed: ...]] stored for a failed request.
    Conversely the title of the block occurs in the section only if
    the representative has a non-empty response body that does not
    begin with [[]. *)
Theorem responseSchema_guard (JSON_parse : string -> option json) (rep : entry) :
  (forall body,
      responseBody rep = Some body -> startsWith "[" body = true ->
      responseSchemaBlock JSON_parse rep = [])
  /\ (forall ep,
         representative (ep_requests ep) = Some rep ->
         In responseTitle (endpointSection JSON_parse ep) ->
         exists body, responseBody rep = Some body /\ body <> ""
                      /\ startsWith "[" body = false)
  /\ (forall ep body,
         representative (ep_requests ep) = Some rep ->
         responseBody rep = Some body -> startsWith "[" body = true ->
         ~ In responseTitle (endpointSection JSON_parse ep))
  /\ (forall text,
         responseSchemaBlock JSON_parse
           (Capture.withBody (Some ("[failed: " ++ text ++ "]")) rep) = []).
Proof.
  assert (Honly : forall ep,
             representative (ep_requests ep) = Some rep ->
             In responseTitle (endpointSection JSON_parse ep) ->
             exists body, responseBody rep = Some body /\ body <> ""
                          /\ startsWith "[" body = false).
  { intros ep Hrep Hin. rewrite (endpointSection_split _ _ _ Hrep) in Hin.
    apply in_app_or in Hin as [Hin | Hin].
    - now apply sectionHead_no_title in Hin.
    - eapply responseSchemaBlock_In; eauto. }
  split; [|split; [exact Honly|split]].
  - intros body Hb Hs. unfold responseSchemaBlock. rewrite Hb.
    destruct body as [|c s]; [reflexivity|]. simpl truthy. cbv iota.
    rewrite Hs. reflexivity.
  - intros ep body Hrep Hb Hs Hin.
    destruct (Honly ep Hrep Hin) as (body' & Hb' & _ & Hs').
    rewrite Hb in Hb'. injection Hb' as <-. congruence.
  - intros text. reflexivity.
Qed.

(** A record whose response body is a JSON array after a space, and
    an endpoint that holds it. *)
Definition spacedArrayRecord : entry :=
  mkEntry "2024-01-02T03:04:05.678Z" "GET" "https://api.example.com/items"
          [] None "XHR" (Some 200) [] (Some " [1,2,3]").

Definition spacedArrayEndpoint : endpoint :=
  mkEndpoint "GET" "/items" [spacedArrayRecord] [].

(** C9 as stated fails: the guard looks at the first character only.
    A body that is a JSON array preceded by white space is valid
    JSON, parses to an array, and its endpoint section holds a
    response schema. *)
Lemma responseSchema_array_counterexample :
  responseBody spacedArrayRecord = Some " [1,2,3]"
  /\ Node.JSON_parse " [1,2,3]"
     = Some (JArray [JNumber "1"; JNumber "2"; JNumber "3"])
  /\ representative (ep_requests spacedArrayEndpoint) = Some spacedArrayRecord
  /\ responseSchemaBlock Node.JSON_parse spacedArrayRecord
     = [responseTitle; "```"; "[number] (3 items)"; "```"; ""]
  /\ In responseTitle (endpointSection Node.JSON_parse spacedArrayEndpoint).
Proof.
  split; [reflexivity|]. split; [reflexivity|]. split; [reflexivity|].
  split; [reflexivity|].
  rewrite (endpointSection_split Node.JSON_parse spacedArrayEndpoint spacedArrayRecord)
    by reflexivity.
  apply in_or_app. right. left. reflexivity.
Qed.

(** A record whose response body is a JSON array. *)
Definition arrayRecord : entry :=
  mkEntry "2024-01-02T03:04:05.678Z" "GET" "https://api.example.com/items"
          [] None "XHR" (Some 200) [] (Some "[1,2,3]").

Lemma responseSchema_guard_witness :
  inferSchema Node.JSON_parse "[1,2,3]" 2 = Some "[number] (3 items)"
  /\ responseSchemaBlock Node.JSON_parse arrayRecord = []
  /\ ~ In responseTitle
        (endpointSection Node.JSON_parse (mkEndpoint "GET" "/items" [arrayRecord] [])).
Proof.
  destruct (responseSchema_guard Node.JSON_parse arrayRecord) as (H1 & _ & H3 & _).
  split; [reflexivity|].
  split; [apply (H1 "[1,2,3]"); reflexivity|].
  apply (H3 (mkEndpoint "GET" "/items" [arrayRecord] []) "[1,2,3]"); reflexivity.
Defined.

(** The lines around the title do not read the clock. *)
Lemma lines_clock_free newURL JSON_parse d n t1 t2 c :
  linesBeforeTitle (mkRun d n t1) c = linesBeforeTitle (mkRun d n t2) c
  /\ linesAfterTitle newURL JSON_parse (mkRun d n t1) c
     = linesAfterTitle newURL JSON_parse (mkRun d n t2) c.
Proof. split; reflexivity. Qed.

(** C3 (as amended).  The document is a function of the capture data,
    of the command-line options and of the calendar day the clock
    shows: two runs over the same data with the same options on the
    same day write the same document, byte for byte; the clock is read
    for the title line only, and every other line is the same on any
    day. *)
Theorem skillContent_reproducible
        (newURL : string -> option URL) (JSON_parse : string -> option json)
        (r1 r2 : run) (c : capture) :
  DOMAIN r1 = DOMAIN r2 -> SKILL_NAME r1 = SKILL_NAME r2 ->
  (today r1 = today r2 ->
   skillContent newURL JSON_parse r1 c = skillContent newURL JSON_parse r2 c)
  /\ linesBeforeTitle r1 c = linesBeforeTitle r2 c
  /\ linesAfterTitle newURL JSON_parse r1 c = linesAfterTitle newURL JSON_parse r2 c
  /\ skillLines newURL JSON_parse r1 c
     = (linesBeforeTitle r1 c
          ++ titleLine r1 c :: linesAfterTitle newURL JSON_parse r1 c)%list
  /\ titleLine r1 c = "# " ++ domainOf r1 c ++ " API (learned " ++ today r1 ++ ")".
Proof.
  destruct r1 as [d1 n1 t1], r2 as [d2 n2 t2]. simpl. intros <- <-.
  destruct (lines_clock_free newURL JSON_parse d1 n1 t1 t2 c) as [Hb Ha].
  split; [|split; [exact Hb | split; [exact Ha | split; reflexivity]]].
  intros Hday. unfold skillContent. destruct (requests c); [reflexivity|].
  do 3 f_equal. unfold skillLines. rewrite Hb, Ha.
  do 2 f_equal. unfold titleLine. rewrite Hday. reflexivity.
Qed.

Definition sampleCapture : capture :=
  mkCapture "2024-01-01T00:05:00.000Z" 300 9222 "example.com" [arrayRecord].

Definition morningRun : run := mkRun (Some "example.com") None "2024-01-02T03:04:05.678Z".
Definition eveningRun : run := mkRun (Some "example.com") None "2024-01-02T21:30:00.000Z".
Definition nextDayRun : run := mkRun (Some "example.com") None "2024-01-03T03:04:05.678Z".

Lemma skillContent_reproducible_witness :
  skillContent Node.newURL Node.JSON_parse morningRun sampleCapture
  = skillContent Node.newURL Node.JSON_parse eveningRun sampleCapture.
Proof.
  apply (proj1 (skillContent_reproducible Node.newURL Node.JSON_parse
                  morningRun eveningRun sampleCapture eq_refl eq_refl)).
  reflexivity.
Defined.

(** C3 as stated fails: two runs over the same capture data on
    different days write different documents. *)
Lemma skillContent_date_counterexample :
  exists d1 d2,
    skillContent Node.newURL Node.JSON_parse morningRun sampleCapture = Some d1
    /\ skillContent Node.newURL Node.JSON_parse nextDayRun sampleCapture = Some d2
    /\ String.eqb d1 d2 = false
    /\ d1 <> d2.
Proof.
  eexists. eexists.
  split; [vm_compute; reflexivity|].
  split; [vm_compute; reflexivity|].
  split; [vm_compute; reflexivity|].
  intros H. apply String.eqb_eq in H. vm_compute in H. discriminate H.
Qed.
End Synthesis.

(* ================================================================== *)
(** * Properties of the capture store *)
(* ================================================================== *)

Module StoreFacts.
Import JS Capture.

Section AssocFacts.
Variable V : Type.
Implicit Types (m : list (string * V)) (k : string) (v : V).

Lemma get_set_same k v m : get k (set k v m) = Some v.
Proof.
  induction m as [|[k' v'] m IH]; simpl.
  - now rewrite String.eqb_refl.
  - destruct (String.eqb k k') eqn:E; simpl; rewrite ?String.eqb_refl, ?E; auto.
Qed.

Lemma get_set_other k k' v m : k <> k' -> get k' (set k v m) = get k' m.
Proof.
  intros Hne. induction m as [|[k0 v0] m IH]; simpl.
  - destruct (String.eqb k' k) eqn:E; [|reflexivity].
    apply String.eqb_eq in E. congruence.
  - destruct (String.eqb k k0) eqn:E; simpl.
    + apply String.eqb_eq in E. subst k0.
      destruct (String.eqb k' k) eqn:E'; [|reflexivity].
      apply String.eqb_eq in E'. congruence.
    + now rewrite IH.
Qed.

Lemma get_In k v m : get k m = Some v -> In (k, v) m.
Proof.
  induction m as [|[k' v'] m IH]; simpl; [discriminate|].
  destruct (String.eqb k k') eqn:E.
  - apply String.eqb_eq in E. intros H. injection H as ->. subst. now left.
  - intros H. right. now apply IH.
Qed.

Lemma get_None_keys k m : get k m = None -> ~ In k (map fst m).
Proof.
  induction m as [|[k' v'] m IH]; simpl; [tauto|].
  destruct (String.eqb k k') eqn:E; [discriminate|].
  apply String.eqb_neq in E. intros H [H' | H']; [congruence | now apply IH].
Qed.

Lemma In_get k v m : NoDup (map fst m) -> In (k, v) m -> get k m = Some v.
Proof.
  induction m as [|[k' v'] m IH]; simpl; [tauto|].
  intros Hnd [H | H].
  - injection H as -> ->. now rewrite String.eqb_refl.
  - inversion Hnd as [|? ? Hnot Hnd']; subst.
    destruct (String.eqb k k') eqn:E.
    + apply String.eqb_eq in E. subst k'. exfalso. apply Hnot.
      change k with (fst (k, v)). now apply in_map.
    + now apply IH.
Qed.

(** The keys after [set]: a new key goes last. *)
Lemma keys_set k v m :
  map fst (set k v m)
  = match get k m with Some _ => map fst m | None => map fst m ++ [k] end.
Proof.
  induction m as [|[k' v'] m IH]; simpl; [reflexivity|].
  destruct (String.eqb k k') eqn:E; simpl.
  - apply String.eqb_eq in E. now subst.
  - rewrite IH. now destruct (get k m).
Qed.

Lemma NoDup_set k v m : NoDup (map fst m) -> NoDup (map fst (set k v m)).
Proof.
  intros H. rewrite keys_set. destruct (get k m) eqn:E; [exact H|].
  apply get_None_keys in E.
  apply NoDup_rev in H. rewrite <- (rev_involutive (map fst m ++ [k])).
  apply NoDup_rev. rewrite rev_app_distr. simpl. constructor; [|exact H].
  now rewrite <- in_rev.
Qed.

Lemma In_set k v m x : In x (set k v m) -> x = (k, v) \/ In x m.
Proof.
  induction m as [|[k0 v0] m IH]; simpl.
  - intros [H | []]; auto.
  - destruct (String.eqb k k0); simpl; intros [H | H]; auto.
    destruct (IH H); auto.
Qed.

Lemma In_delete k m x : In x (delete k m) -> In x m.
Proof.
  induction m as [|[k0 v0] m IH]; simpl; [tauto|].
  destruct (String.eqb k k0); simpl; [auto|]. intros [H | H]; auto.
Qed.
End AssocFacts.

Lemma In_takeFetch call fs f rest :
  takeFetch call fs = Some (f, rest) ->
  fetchCall f = call /\ In f fs /\ forall x, In x rest -> In x fs.
Proof.
  revert f rest. induction fs as [|g fs IH]; simpl; intros f rest; [discriminate|].
  destruct (fetchCall g =? call) eqn:E.
  - intros H. injection H as <- <-. apply Nat.eqb_eq in E. auto.
  - destruct (takeFetch call fs) as [[f' rest']|]; [|discriminate].
    intros H. injection H as <- <-.
    destruct (IH f' rest' eq_refl) as (H1 & H2 & H3).
    split; [exact H1|]. split; [now right|].
    intros x [Hx | Hx]; [now left | right; auto].
Qed.

(** Appending to a bucket appends to the stored entries, up to order. *)
Lemma flat_set_append (k : string) (x : list entry) (m : list (string * list entry)) :
  Permutation
    (flat_map snd (set k (match get k m with Some b => b | None => [] end ++ x) m))
    (flat_map snd m ++ x).
Proof.
  induction m as [|[k' v'] m IH]; simpl.
  - now rewrite app_nil_r.
  - destruct (String.eqb k k') eqn:E; simpl.
    + rewrite <- !app_assoc. apply Permutation_app_head, Permutation_app_comm.
    + rewrite <- app_assoc. apply Permutation_app_head, IH.
Qed.

Section Platform.
Variable newURL : string -> option URL.
Variable cfg : config.

Let store := storeEntry newURL.

(** The bucket of the entry's domain after [storeEntry]. *)
Lemma storeEntry_bucket e s :
  get (getDomain newURL (url e)) (capturedByDomain (store e s))
  = Some (match get (getDomain newURL (url e)) (capturedByDomain s) with
          | Some b => b
          | None => []
          end ++ [e]).
Proof.
  unfold store, storeEntry, has. simpl.
  destruct (get (getDomain newURL (url e)) (capturedByDomain s)) eqn:E.
  - rewrite E. apply get_set_same.
  - rewrite !get_set_same. reflexivity.
Qed.

Lemma storeEntry_other e s d :
  d <> getDomain newURL (url e) ->
  get d (capturedByDomain (store e s)) = get d (capturedByDomain s).
Proof.
  intros Hne. unfold store, storeEntry, has. simpl.
  destruct (get (getDomain newURL (url e)) (capturedByDomain s)) eqn:E.
  - rewrite get_set_other; auto.
  - rewrite !get_set_other; auto.
Qed.

(** What a bucket holds, it keeps. *)
Lemma storeEntry_keeps e s d b x :
  get d (capturedByDomain s) = Some b -> In x b ->
  exists b', get d (capturedByDomain (store e s)) = Some b' /\ In x b'.
Proof.
  intros Hb Hx.
  destruct (String.eqb d (getDomain newURL (url e))) eqn:E.
  - apply String.eqb_eq in E. subst d. rewrite storeEntry_bucket, Hb.
    eexists. split; [reflexivity|]. apply in_or_app. now left.
  - apply String.eqb_neq in E. rewrite storeEntry_other by exact E. eauto.
Qed.

Lemma storeEntry_captured e s :
  capturedByDomain (store e s)
  = set (getDomain newURL (url e))
        (match get (getDomain newURL (url e)) (capturedByDomain s) with
         | Some b => b
         | None => []
         end ++ [e])
        (if has (getDomain newURL (url e)) (capturedByDomain s)
         then capturedByDomain s
         else set (getDomain newURL (url e)) [] (capturedByDomain s)).
Proof.
  unfold store, storeEntry, has. simpl.
  destruct (get (getDomain newURL (url e)) (capturedByDomain s)) eqn:E.
  - now rewrite E.
  - now rewrite get_set_same.
Qed.

Lemma storeEntry_NoDup e s :
  NoDup (map fst (capturedByDomain s)) ->
  NoDup (map fst (capturedByDomain (store e s))).
Proof.
  intros H. rewrite storeEntry_captured. apply NoDup_set.
  destruct (has _ _); [exact H | now apply NoDup_set].
Qed.

Lemma storeEntry_stored e s :
  Permutation (storedEntries (store e s)) (storedEntries s ++ [e]).
Proof.
  unfold storedEntries. rewrite storeEntry_captured. unfold has.
  destruct (get (getDomain newURL (url e)) (capturedByDomain s)) as [b|] eqn:E.
  - pose proof (flat_set_append (getDomain newURL (url e)) [e] (capturedByDomain s)) as H.
    now rewrite E in H.
  - pose proof (flat_set_append (getDomain newURL (url e)) [e]
                  (set (getDomain newURL (url e)) [] (capturedByDomain s))) as H.
    rewrite get_set_same in H. rewrite H.
    apply Permutation_app_tail.
    pose proof (flat_set_append (getDomain newURL (url e)) [] (capturedByDomain s)) as H0.
    rewrite E in H0. simpl in H0. now rewrite app_nil_r in H0.
Qed.

Lemma storeEntry_rest e s :
  pendingRequests (store e s) = pendingRequests s
  /\ bodyFetches (store e s) = bodyFetches s
  /\ timerArmed (store e s) = timerArmed s
  /\ shuttingDown (store e s) = shuttingDown s
  /\ written (store e s) = written s
  /\ exited (store e s) = exited s
  /\ totalCaptured (store e s) = totalCaptured s + 1.
Proof. repeat split. Qed.

(** The flush of [shutdown]. *)
Definition flush (es : list (string * entry)) (s : state) : state :=
  fold_left (fun acc kv => store (snd kv) acc) es s.

Lemma flush_rest es : forall s,
  shuttingDown (flush es s) = shuttingDown s
  /\ written (flush es s) = written s
  /\ bodyFetches (flush es s) = bodyFetches s
  /\ timerArmed (flush es s) = timerArmed s.
Proof.
  induction es as [|[k e] es IH]; intros s; simpl; [repeat split|].
  destruct (IH (store e s)) as (H1 & H2 & H3 & H4).
  rewrite H1, H2, H3, H4. repeat split.
Qed.

(** The flush reads the store, the counter and nothing else. *)
Lemma flush_frame es : forall a b,
  capturedByDomain a = capturedByDomain b ->
  totalCaptured a = totalCaptured b -> cdpId a = cdpId b ->
  capturedByDomain (flush es a) = capturedByDomain (flush es b)
  /\ totalCaptured (flush es a) = totalCaptured (flush es b)
  /\ cdpId (flush es a) = cdpId (flush es b).
Proof.
  induction es as [|[k e] es IH]; intros a b Hc Htot Hid; simpl; [auto|].
  apply IH; unfold store, storeEntry; simpl; rewrite ?Hc, ?Htot, ?Hid; reflexivity.
Qed.

Lemma flush_keeps es : forall s d b x,
  get d (capturedByDomain s) = Some b -> In x b ->
  exists b', get d (capturedByDomain (flush es s)) = Some b' /\ In x b'.
Proof.
  induction es as [|[k e] es IH]; intros s d b x Hb Hx; simpl; [eauto|].
  destruct (storeEntry_keeps e s d b x Hb Hx) as (b' & Hb' & Hx'). eauto.
Qed.

Lemma flush_NoDup es : forall s,
  NoDup (map fst (capturedByDomain s)) ->
  NoDup (map fst (capturedByDomain (flush es s))).
Proof.
  induction es as [|[k e] es IH]; intros s H; simpl; [exact H|].
  apply IH, storeEntry_NoDup, H.
Qed.

Lemma flush_stored es : forall s,
  Permutation (storedEntries (flush es s)) (storedEntries s ++ map snd es).
Proof.
  induction es as [|[k e] es IH]; intros s; simpl.
  - now rewrite app_nil_r.
  - rewrite IH, storeEntry_stored, <- app_assoc. reflexivity.
Qed.

(** The session file [shutdown] writes for a bucket. *)
Definition sessionFile (now : string) (bucket : string * list entry)
  : string * string * capture :=
  (fst bucket, fileStem now,
   mkCapture now (DURATION cfg) (CDP_PORT cfg) (fst bucket) (snd bucket)).

Lemma shutdown_runs now s :
  shuttingDown s = false ->
  shutdown newURL cfg now s
  = mkState [] (bodyFetches s) (cdpId (flush (pendingRequests s) s))
            (capturedByDomain (flush (pendingRequests s) s))
            (totalCaptured (flush (pendingRequests s) s))
            (timerArmed s) true
            (written s ++ map (sessionFile now)
                              (capturedByDomain (flush (pendingRequests s) s)))
            true.
Proof.
  intros H. unfold shutdown. rewrite H. fold store.
  change (fold_left (fun acc kv => store (snd kv) acc) (pendingRequests s) s)
    with (flush (pendingRequests s) s).
  destruct (flush_rest (pendingRequests s) s) as (_ & H2 & H3 & H4).
  rewrite H2, H3, H4. f_equal. f_equal.
  apply map_ext. intros [d reqs]. reflexivity.
Qed.

Lemma shutdown_again now s : shuttingDown s = true -> shutdown newURL cfg now s = s.
Proof. intros H. unfold shutdown. now rewrite H. Qed.

Lemma step_exited s ev : exited s = true -> step newURL cfg s ev = s.
Proof. intros H. unfold step. now rewrite H. Qed.

Lemma runEvents_exited evs : forall s,
  exited s = true -> runEvents newURL cfg evs s = s.
Proof.
  induction evs as [|ev evs IH]; intros s H; simpl; [reflexivity|].
  rewrite step_exited by exact H. now apply IH.
Qed.
End Platform.
End StoreFacts.

(* ================================================================== *)
(** * Claims about the capture engine *)
(* ================================================================== *)

Module Correlator.
Import JS Capture StoreFacts.

Definition isTrigger (ev : event) : bool :=
  match ev with
  | TimerFired _ | SIGINT _ | SIGTERM _ => true
  | _ => false
  end.

(** The domain directory of a written file. *)
Definition fileDomain (f : string * string * capture) : string := fst (fst f).

Section Platform.
Variable newURL : string -> option URL.
Variable cfg : config.

(** What holds of every state the event loop can reach. *)
Definition wellFormed (s : state) : Prop :=
  NoDup (map fst (capturedByDomain s))
  /\ (exited s = false -> shuttingDown s = false /\ written s = []).

Lemma wellFormed_init pages : wellFormed (init pages).
Proof. split; [constructor | auto]. Qed.

Lemma wellFormed_store e s : wellFormed s -> wellFormed (storeEntry newURL e s).
Proof.
  intros [H1 H2]. split; [now apply storeEntry_NoDup | exact H2].
Qed.

Lemma wellFormed_shutdown now s : wellFormed s -> wellFormed (shutdown newURL cfg now s).
Proof.
  intros H. destruct (shuttingDown s) eqn:E.
  - rewrite shutdown_again by exact E. exact H.
  - destruct H as [H1 H2]. rewrite shutdown_runs by exact E. split; simpl.
    + now apply flush_NoDup.
    + discriminate.
Qed.

Lemma wellFormed_same s s' :
  capturedByDomain s' = capturedByDomain s ->
  shuttingDown s' = shuttingDown s -> written s' = written s ->
  exited s = false -> wellFormed s -> wellFormed s'.
Proof.
  intros Hc Hs Hw Hex [H1 H2]. destruct (H2 Hex) as [H3 H4].
  split; [now rewrite Hc | intros _; split; congruence].
Qed.

Lemma wellFormed_step s ev : wellFormed s -> wellFormed (step newURL cfg s ev).
Proof.
  intros H. unfold step. destruct (exited s) eqn:Eex; [exact H|].
  assert (Hsame : forall s', capturedByDomain s' = capturedByDomain s ->
                             shuttingDown s' = shuttingDown s ->
                             written s' = written s -> wellFormed s').
  { intros s' Hc Hs Hw. now apply (wellFormed_same s). }
  destruct ev as [now id m u hs pd ty | id st hs | id | id txt | call body | call
                 | now | now | now].
  - destruct (_ && _); [exact H|].
    destruct (isNoiseDomain newURL u); [exact H|].
    destruct (isStaticAsset newURL u); [exact H|]. now apply Hsame.
  - destruct (get id (pendingRequests s)); [|exact H]. now apply Hsame.
  - destruct (get id (pendingRequests s)); [|exact H]. now apply Hsame.
  - destruct (get id (pendingRequests s)); [|exact H].
    apply wellFormed_store. now apply Hsame.
  - destruct (takeFetch call (bodyFetches s)) as [[e rest]|]; [|exact H].
    apply wellFormed_store. now apply Hsame.
  - destruct (takeFetch call (bodyFetches s)) as [[e rest]|]; [|exact H].
    apply wellFormed_store. now apply Hsame.
  - destruct (timerArmed s); [|exact H]. apply wellFormed_shutdown. now apply Hsame.
  - apply wellFormed_shutdown. now apply Hsame.
  - apply wellFormed_shutdown. now apply Hsame.
Qed.

Lemma wellFormed_run evs : forall s,
  wellFormed s -> wellFormed (runEvents newURL cfg evs s).
Proof.
  induction evs as [|ev evs IH]; intros s H; simpl; [exact H|].
  apply IH, wellFormed_step, H.
Qed.

(** What a live trigger does: the shutdown routine runs. *)
Lemma trigger_runs s t :
  isTrigger t = true -> exited s = false -> shuttingDown s = false ->
  (forall now, t = TimerFired now -> timerArmed s = true) ->
  exists now,
    step newURL cfg s t
    = mkState [] (bodyFetches s) (cdpId (flush newURL (pendingRequests s) s))
              (capturedByDomain (flush newURL (pendingRequests s) s))
              (totalCaptured (flush newURL (pendingRequests s) s))
              false true
              (written s ++ map (sessionFile cfg now)
                                (capturedByDomain (flush newURL (pendingRequests s) s)))
              true.
Proof.
  intros Ht Hex Hsd Harmed. unfold step. rewrite Hex.
  assert (Hrun : forall now,
             shutdown newURL cfg now (disarm s)
             = mkState [] (bodyFetches s) (cdpId (flush newURL (pendingRequests s) s))
                       (capturedByDomain (flush newURL (pendingRequests s) s))
                       (totalCaptured (flush newURL (pendingRequests s) s))
                       false true
                       (written s ++ map (sessionFile cfg now)
                          (capturedByDomain (flush newURL (pendingRequests s) s)))
                       true).
  { intros now. rewrite (shutdown_runs newURL cfg now (disarm s)) by exact Hsd.
    destruct (flush_frame newURL (pendingRequests s) (disarm s) s
                eq_refl eq_refl eq_refl) as (Hc & Htot & Hid).
    change (pendingRequests (disarm s)) with (pendingRequests s).
    rewrite Hc, Htot, Hid. reflexivity. }
  destruct t as [| | | | | | now | now | now]; try discriminate Ht.
  - rewrite (Harmed now eq_refl). exists now. apply Hrun.
  - exists now. apply Hrun.
  - exists now. apply Hrun.
Qed.

Lemma fileDomain_sessionFile now (l : list (string * list entry)) :
  map fileDomain (map (sessionFile cfg now) l) = map fst l.
Proof. rewrite map_map. apply map_ext. intros [d reqs]. reflexivity. Qed.

(** C5.  Once a live trigger (the duration timer while armed, or an
    interrupt or termination signal) has started the shutdown of a
    running capture, nothing that follows -- a second trigger or any
    other event -- changes the state: the write path is not entered
    again.  That one shutdown empties the in-flight map, moves each
    pending request into the store exactly once, and writes exactly
    one session file for each domain of the store. *)
Theorem shutdown_runs_once (pages : nat) (evs later : list event) (t1 : event) :
  let s := runEvents newURL cfg evs (init pages) in
  let s1 := step newURL cfg s t1 in
  isTrigger t1 = true ->
  exited s = false ->
  (forall now, t1 = TimerFired now -> timerArmed s = true) ->
  runEvents newURL cfg later s1 = s1
  /\ exited s1 = true /\ shuttingDown s1 = true
  /\ pendingRequests s1 = []
  /\ Permutation (storedEntries s1) (storedEntries s ++ map snd (pendingRequests s))
  /\ map fileDomain (written s1) = map fst (capturedByDomain s1)
  /\ NoDup (map fileDomain (written s1))
  /\ (forall d stem c,
         In (d, stem, c) (written s1) ->
         domain c = d /\ get d (capturedByDomain s1) = Some (requests c)).
Proof.
  intros s s1 Ht Hex Harmed.
  assert (Hwf : wellFormed s) by apply wellFormed_run, wellFormed_init.
  destruct Hwf as [Hnd Hlive]. destruct (Hlive Hex) as [Hsd Hw].
  destruct (trigger_runs s t1 Ht Hex Hsd Harmed) as (now & Es1).
  fold s1 in Es1. rewrite Hw in Es1. simpl in Es1.
  assert (Hnd1 : NoDup (map fst (capturedByDomain s1))).
  { rewrite Es1. simpl. now apply flush_NoDup. }
  split; [apply runEvents_exited; now rewrite Es1|].
  split; [now rewrite Es1|]. split; [now rewrite Es1|]. split; [now rewrite Es1|].
  split; [rewrite Es1; apply flush_stored|].
  split; [rewrite Es1; simpl; apply fileDomain_sessionFile|].
  split.
  - replace (map fileDomain (written s1)) with (map fst (capturedByDomain s1));
      [exact Hnd1|].
    rewrite Es1. simpl. symmetry. apply fileDomain_sessionFile.
  - intros d stem c Hin.
    assert (Hin' : In (d, stem, c)
                      (map (sessionFile cfg now) (capturedByDomain s1))).
    { rewrite Es1 in Hin |- *. exact Hin. }
    apply in_map_iff in Hin' as ([d' reqs] & Ef & Hb).
    unfold sessionFile in Ef. simpl in Ef. injection Ef as -> _ <-.
    split; [reflexivity|]. simpl. now apply In_get.
Qed.

(** The entry [e] sits in the bucket of domain [d], or, once the
    process has exited, in a session file written for [d]. *)
Definition held (d : string) (e : entry) (s : state) : Prop :=
  if exited s
  then exists stem c, In (d, stem, c) (written s) /\ domain c = d /\ In e (requests c)
  else shuttingDown s = false
       /\ exists b, get d (capturedByDomain s) = Some b /\ In e b.

Lemma held_same d e s s' :
  exited s = false -> exited s' = false ->
  capturedByDomain s' = capturedByDomain s -> shuttingDown s' = shuttingDown s ->
  held d e s -> held d e s'.
Proof.
  unfold held. intros -> -> -> ->. auto.
Qed.

Lemma held_store d e e' s :
  exited s = false -> held d e s -> held d e (storeEntry newURL e' s).
Proof.
  unfold held. intros Hex. change (exited (storeEntry newURL e' s)) with (exited s).
  rewrite Hex. intros (Hsd & b & Hb & Hin). split; [exact Hsd|].
  eapply storeEntry_keeps; eauto.
Qed.

Lemma held_shutdown d e now s :
  exited s = false -> held d e s -> held d e (shutdown newURL cfg now s).
Proof.
  intros Hex H. unfold held in H. rewrite Hex in H.
  destruct H as (Hsd & b & Hb & Hin).
  rewrite shutdown_runs by exact Hsd. unfold held. simpl.
  destruct (flush_keeps newURL (pendingRequests s) s d b e Hb Hin) as (b' & Hb' & Hin').
  exists (fileStem now), (mkCapture now (DURATION cfg) (CDP_PORT cfg) d b').
  split; [|split; [reflexivity | exact Hin']].
  apply in_or_app. right.
  apply (in_map (sessionFile cfg now)) with (x := (d, b')).
  now apply get_In.
Qed.

Lemma held_step d e s ev : held d e s -> held d e (step newURL cfg s ev).
Proof.
  intros H. unfold step. destruct (exited s) eqn:Hex; [exact H|].
  destruct ev as [now id m u hs pd ty | id st hs | id | id txt | call body | call
                 | now | now | now].
  - destruct (_ && _); [exact H|].
    destruct (isNoiseDomain newURL u); [exact H|].
    destruct (isStaticAsset newURL u); [exact H|].
    now apply (held_same d e s).
  - destruct (get id (pendingRequests s)); [|exact H]. now apply (held_same d e s).
  - destruct (get id (pendingRequests s)); [|exact H]. now apply (held_same d e s).
  - destruct (get id (pendingRequests s)); [|exact H].
    apply held_store; [first [exact Hex | reflexivity]|]. now apply (held_same d e s).
  - destruct (takeFetch call (bodyFetches s)) as [[e0 rest]|]; [|exact H].
    apply held_store; [first [exact Hex | reflexivity]|]. now apply (held_same d e s).
  - destruct (takeFetch call (bodyFetches s)) as [[e0 rest]|]; [|exact H].
    apply held_store; [first [exact Hex | reflexivity]|]. now apply (held_same d e s).
  - destruct (timerArmed s); [|exact H].
    apply held_shutdown; [first [exact Hex | reflexivity]|]. now apply (held_same d e s).
  - apply held_shutdown; [first [exact Hex | reflexivity]|]. now apply (held_same d e s).
  - apply held_shutdown; [first [exact Hex | reflexivity]|]. now apply (held_same d e s).
Qed.

Lemma held_run d e evs : forall s,
  held d e s -> held d e (runEvents newURL cfg evs s).
Proof.
  induction evs as [|ev evs IH]; intros s H; simpl; [exact H|].
  apply IH, held_step, H.
Qed.

(** C10.  For an entry whose URL does not parse, [getDomain] returns
    the string [unknown]; a request with such a URL is tracked like
    any other; when stored, the entry goes into the bucket of the
    domain [unknown]; and whenever the run later ends in a shutdown,
    a session file written for the domain [unknown] holds it. *)
Theorem unparsable_url_domain (e : entry) :
  newURL (url e) = None ->
  getDomain newURL (url e) = "unknown"%string
  /\ (forall now id hs pd s,
         exited s = false ->
         get id (pendingRequests
                   (step newURL cfg s
                         (RequestWillBeSent now id (method e) (url e) hs pd "XHR")))
         = Some (mkEntry now (method e) (url e) hs (redactBody cfg (truthy pd))
                         "XHR" None [] None))
  /\ (forall s,
         exists b, get "unknown"%string (capturedByDomain (storeEntry newURL e s)) = Some b
                   /\ In e b)
  /\ (forall s later,
         exited s = false -> shuttingDown s = false ->
         exited (runEvents newURL cfg later (storeEntry newURL e s)) = true ->
         exists stem c,
           In ("unknown"%string, stem, c)
              (written (runEvents newURL cfg later (storeEntry newURL e s)))
           /\ domain c = "unknown"%string /\ In e (requests c)).
Proof.
  intros Hbad.
  assert (Hd : getDomain newURL (url e) = "unknown"%string).
  { unfold getDomain. now rewrite Hbad. }
  assert (Hbucket : forall s,
             exists b, get "unknown"%string (capturedByDomain (storeEntry newURL e s))
                       = Some b /\ In e b).
  { intros s. rewrite <- Hd, storeEntry_bucket.
    eexists. split; [reflexivity|]. apply in_or_app. right. now left. }
  split; [exact Hd|]. split; [|split; [exact Hbucket|]].
  - intros now id hs pd s Hex. unfold step. rewrite Hex.
    unfold isNoiseDomain, isStaticAsset. rewrite Hbad. simpl.
    apply get_set_same.
  - intros s later Hex Hsd Hend.
    assert (H : held "unknown"%string e (storeEntry newURL e s)).
    { unfold held. change (exited (storeEntry newURL e s)) with (exited s).
      rewrite Hex. split; [exact Hsd | apply Hbucket]. }
    apply (held_run _ _ later) in H. unfold held in H. now rewrite Hend in H.
Qed.

Lemma substring_length n : forall s,
  n <= String.length s -> String.length (substring 0 n s) = n.
Proof.
  induction n as [|n IH]; intros [|c s] H; simpl in *; try reflexivity; try lia.
  f_equal. apply IH. lia.
Qed.

(** The marker [truncateBody] appends. *)
Definition truncationMarker (total : nat) : string :=
  (nl ++ "...[truncated at 10240 bytes, total " ++ ofNat total ++ "]")%string.

Lemma truncateBody_long body :
  MAX_BODY_SIZE < String.length body ->
  truncateBody (Some body)
  = Some (slice0 MAX_BODY_SIZE body ++ truncationMarker (String.length body))%string.
Proof.
  intros H. unfold truncateBody.
  destruct body as [|c b]; [simpl in H; lia|]. simpl truthy. cbv iota.
  apply Nat.ltb_lt in H. rewrite H. reflexivity.
Qed.

Lemma truncateBody_short body :
  String.length body <= MAX_BODY_SIZE -> truncateBody (Some body) = Some body.
Proof.
  intros H. unfold truncateBody.
  destruct body as [|c b]; [reflexivity|]. simpl truthy. cbv iota.
  apply Nat.ltb_ge in H. rewrite H. reflexivity.
Qed.

Lemma storeEntry_In e s : In e (storedEntries (storeEntry newURL e s)).
Proof.
  apply (Permutation_in _ (Permutation_sym (storeEntry_stored newURL e s))).
  apply in_or_app. right. now left.
Qed.

(** What the code does for bodies.  A response body delivered by the
    body fetch and longer than 10 KiB is stored cut to the cap,
    followed by a marker that states the cap and the original length,
    whatever the redaction mode; a body within the cap is stored as it
    is.  A request body is never cut: it is stored as received, or
    replaced as a whole by the redaction notice. *)
Theorem response_body_truncated (s : state) (call : nat) (body : string)
        (f : fetch) (rest : list fetch) :
  exited s = false ->
  takeFetch call (bodyFetches s) = Some (f, rest) ->
  MAX_BODY_SIZE < String.length body ->
  In (withBody
        (Some (slice0 MAX_BODY_SIZE body ++ truncationMarker (String.length body))%string)
        (fetchEntry f))
     (storedEntries (step newURL cfg s (BodyResolved call (Some body))))
  /\ String.length (slice0 MAX_BODY_SIZE body) = MAX_BODY_SIZE
  /\ (forall cfg',
         step newURL cfg' s (BodyResolved call (Some body))
         = step newURL cfg s (BodyResolved call (Some body)))
  /\ (forall short, String.length short <= MAX_BODY_SIZE ->
                    truncateBody (Some short) = Some short)
  /\ (forall now id m u hs pd ty e',
         get id (pendingRequests
                   (step newURL cfg s (RequestWillBeSent now id m u hs pd ty)))
         = Some e' ->
         get id (pendingRequests s) = Some e'
         \/ requestBody e' = truthy pd
         \/ requestBody e' = Some "[REDACTED — sensitive data detected]"%string).
Proof.
  intros Hex Hfetch Hlong.
  split; [|split; [|split; [|split]]].
  - unfold step. rewrite Hex, Hfetch.
    assert (Ht : truthy (Some body) = Some body).
    { destruct body; [simpl in Hlong; lia | reflexivity]. }
    rewrite Ht, truncateBody_long by exact Hlong.
    apply storeEntry_In.
  - apply substring_length. lia.
  - intros cfg'. reflexivity.
  - apply truncateBody_short.
  - intros now id m u hs pd ty e' H. unfold step in H. rewrite Hex in H.
    destruct (_ && _); [now left|].
    destruct (isNoiseDomain newURL u); [now left|].
    destruct (isStaticAsset newURL u); [now left|].
    simpl in H. rewrite get_set_same in H. injection H as <-. simpl.
    right. unfold redactBody.
    destruct (truthy (truthy pd)) as [b|] eqn:E; [|now left].
    destruct (negb (REDACT cfg)); [now left|].
    destruct (RegExp.testS true SENSITIVE_PATTERNS b); [now right | now left].
Qed.

(** ** One entry for one tracked identifier *)

(** How often [rid] occurs in a list of identifiers. *)
Fixpoint occurrences (rid : string) (l : list string) : nat :=
  match l with
  | [] => 0
  | x :: l' => (if String.eqb x rid then 1 else 0) + occurrences rid l'
  end.

(** What the step hands to [storeEntry]: each entry, with the
    identifier it was tracked under. *)
Definition finalized (s : state) (ev : event) : list (string * entry) :=
  if exited s then []
  else
    match ev with
    | LoadingFailed requestId errorText =>
        match get requestId (pendingRequests s) with
        | Some e =>
            [(requestId,
              withBody (Some ("[failed: "
                              ++ match truthy errorText with
                                 | Some t => t
                                 | None => "unknown"
                                 end ++ "]")%string)
                       (withStatus (Some 0) (responseHeaders e) e))]
        | None => []
        end
    | BodyResolved call body =>
        match takeFetch call (bodyFetches s) with
        | Some (f, _) =>
            [(fetchRequestId f, withBody (truncateBody (truthy body)) (fetchEntry f))]
        | None => []
        end
    | BodyRejected call =>
        match takeFetch call (bodyFetches s) with
        | Some (f, _) => [(fetchRequestId f, fetchEntry f)]
        | None => []
        end
    | TimerFired _ =>
        if timerArmed s && negb (shuttingDown s) then pendingRequests s else []
    | SIGINT _ | SIGTERM _ =>
        if negb (shuttingDown s) then pendingRequests s else []
    | _ => []
    end.

Fixpoint finalizedBy (evs : list event) (s : state) : list (string * entry) :=
  match evs with
  | [] => []
  | ev :: evs' => finalized s ev ++ finalizedBy evs' (step newURL cfg s ev)
  end.

(** The request-sent notification for [rid] passes the filters. *)
Definition tracks (ev : event) (rid : string) : bool :=
  match ev with
  | RequestWillBeSent _ requestId _ u _ _ type =>
      String.eqb requestId rid
      && (String.eqb type "XHR" || String.eqb type "Fetch")
      && negb (isNoiseDomain newURL u) && negb (isStaticAsset newURL u)
  | _ => false
  end.

(** The step creates a PendingRequest for [rid]; it replaces one that
    was still pending. *)
Definition creates (s : state) (ev : event) (rid : string) : nat :=
  if negb (exited s) && tracks ev rid then 1 else 0.

Definition replaces (s : state) (ev : event) (rid : string) : nat :=
  if negb (exited s) && tracks ev rid && has rid (pendingRequests s) then 1 else 0.

Fixpoint createdBy (evs : list event) (s : state) (rid : string) : nat :=
  match evs with
  | [] => 0
  | ev :: evs' => creates s ev rid + createdBy evs' (step newURL cfg s ev) rid
  end.

Fixpoint replacedBy (evs : list event) (s : state) (rid : string) : nat :=
  match evs with
  | [] => 0
  | ev :: evs' => replaces s ev rid + replacedBy evs' (step newURL cfg s ev) rid
  end.

Definition pendingCount (rid : string) (s : state) : nat :=
  occurrences rid (map fst (pendingRequests s)).

Definition fetchCount (rid : string) (s : state) : nat :=
  occurrences rid (map fetchRequestId (bodyFetches s)).

Lemma occurrences_app rid l1 l2 :
  occurrences rid (l1 ++ l2) = occurrences rid l1 + occurrences rid l2.
Proof. induction l1 as [|x l1 IH]; simpl; [reflexivity | rewrite IH; lia]. Qed.

Lemma occurrences_set rid k (v : entry) m :
  occurrences rid (map fst (set k v m))
  = occurrences rid (map fst m)
    + (if String.eqb k rid && negb (has k m) then 1 else 0).
Proof.
  rewrite keys_set. unfold has. destruct (get k m).
  - rewrite andb_false_r. lia.
  - rewrite occurrences_app. simpl. rewrite andb_true_r. lia.
Qed.

Lemma occurrences_delete rid k (m : list (string * entry)) :
  occurrences rid (map fst (delete k m))
  + (if String.eqb k rid && has k m then 1 else 0)
  = occurrences rid (map fst m).
Proof.
  unfold has. induction m as [|[k' v'] m IH]; simpl.
  - rewrite andb_false_r. reflexivity.
  - destruct (String.eqb k k') eqn:E.
    + apply String.eqb_eq in E. subst k'. rewrite andb_true_r. lia.
    + simpl. rewrite <- IH. lia.
Qed.

Lemma occurrences_takeFetch rid call fs f rest :
  takeFetch call fs = Some (f, rest) ->
  occurrences rid (map fetchRequestId fs)
  = (if String.eqb (fetchRequestId f) rid then 1 else 0)
    + occurrences rid (map fetchRequestId rest).
Proof.
  revert f rest. induction fs as [|f0 fs IH]; intros f rest H; simpl in H; [discriminate|].
  destruct (fetchCall f0 =? call)%nat.
  - injection H as <- <-. reflexivity.
  - destruct (takeFetch call fs) as [[f' rest']|]; [|discriminate].
    injection H as <- <-. simpl. rewrite (IH f' rest' eq_refl). lia.
Qed.

Lemma shutdown_counts now s rid :
  shuttingDown s = false ->
  pendingCount rid (shutdown newURL cfg now s) = 0
  /\ fetchCount rid (shutdown newURL cfg now s) = fetchCount rid s
  /\ List.length (storedEntries (shutdown newURL cfg now s))
     = List.length (storedEntries s) + List.length (pendingRequests s).
Proof.
    intros H. rewrite shutdown_runs by exact H.
  split; [reflexivity|]. split; [reflexivity|].
  change (List.length (storedEntries (flush newURL (pendingRequests s) s))
          = List.length (storedEntries s) + List.length (pendingRequests s)).
  rewrite (Permutation_length (flush_stored newURL (pendingRequests s) s)).
  now rewrite length_app, length_map.
Qed.

(** One step: what is created is pending, fetching, finalized or
    replaced. *)
Lemma step_accounts s ev rid :
  occurrences rid (map fst (finalized s ev))
  + pendingCount rid (step newURL cfg s ev) + fetchCount rid (step newURL cfg s ev)
  + replaces s ev rid
  = pendingCount rid s + fetchCount rid s + creates s ev rid.
Proof.
  unfold step, finalized, creates, replaces.
  destruct (exited s) eqn:Hex; simpl; [lia|].
  destruct ev as [now id m u hs pd ty | id st hs | id | id txt | call body | call
                 | now | now | now]; simpl.
  - unfold pendingCount, fetchCount.
    destruct (String.eqb id rid) eqn:E;
      destruct (String.eqb ty "XHR"), (String.eqb ty "Fetch"),
               (isNoiseDomain newURL u), (isStaticAsset newURL u); simpl;
      rewrite ?occurrences_set, ?E; simpl;
      try (apply String.eqb_eq in E; subst id);
      try destruct (has rid (pendingRequests s)); simpl; lia.
  - destruct (get id (pendingRequests s)) eqn:E; [|simpl; lia].
    unfold pendingCount, fetchCount. simpl. rewrite occurrences_set.
    unfold has. rewrite E, andb_false_r. lia.
  - destruct (get id (pendingRequests s)) eqn:E; [|simpl; lia].
    unfold pendingCount, fetchCount. simpl.
    rewrite map_app, occurrences_app. simpl.
    pose proof (occurrences_delete rid id (pendingRequests s)) as Hd.
    unfold has in Hd. rewrite E, andb_true_r in Hd. lia.
  - destruct (get id (pendingRequests s)) eqn:E; [|simpl; lia].
    unfold pendingCount, fetchCount. cbn [map fst occurrences].
    pose proof (occurrences_delete rid id (pendingRequests s)) as Hd.
    unfold has in Hd. rewrite E, andb_true_r in Hd.
    cbn [storeEntry setPending pendingRequests bodyFetches]. lia.
  - destruct (takeFetch call (bodyFetches s)) as [[f rest]|] eqn:E; [|simpl; lia].
    unfold pendingCount, fetchCount. cbn [map fst occurrences].
    rewrite (occurrences_takeFetch rid _ _ _ _ E).
    cbn [storeEntry pendingRequests bodyFetches]. lia.
  - destruct (takeFetch call (bodyFetches s)) as [[f rest]|] eqn:E; [|simpl; lia].
    unfold pendingCount, fetchCount. cbn [map fst occurrences].
    rewrite (occurrences_takeFetch rid _ _ _ _ E).
    cbn [storeEntry pendingRequests bodyFetches]. lia.
  - destruct (timerArmed s); simpl; [|simpl; lia].
    destruct (shuttingDown s) eqn:Hsd; simpl.
    + rewrite shutdown_again by exact Hsd.
      unfold pendingCount, fetchCount. simpl. lia.
    + destruct (shutdown_counts now (disarm s) rid Hsd) as (H1 & H2 & _).
      rewrite H1, H2. unfold pendingCount, fetchCount. simpl. lia.
  - destruct (shuttingDown s) eqn:Hsd; simpl.
    + rewrite shutdown_again by exact Hsd.
      unfold pendingCount, fetchCount. simpl. lia.
    + destruct (shutdown_counts now (disarm s) rid Hsd) as (H1 & H2 & _).
      rewrite H1, H2. unfold pendingCount, fetchCount. simpl. lia.
  - destruct (shuttingDown s) eqn:Hsd; simpl.
    + rewrite shutdown_again by exact Hsd.
      unfold pendingCount, fetchCount. simpl. lia.
    + destruct (shutdown_counts now (disarm s) rid Hsd) as (H1 & H2 & _).
      rewrite H1, H2. unfold pendingCount, fetchCount. simpl. lia.
Qed.

(** One step: the store gains the entries finalized, and no other. *)
Lemma step_stores s ev :
  Permutation (storedEntries (step newURL cfg s ev))
              (storedEntries s ++ map snd (finalized s ev)).
Proof.
  assert (Hshut : forall now,
             shuttingDown s = false ->
             Permutation (storedEntries (shutdown newURL cfg now (disarm s)))
                         (storedEntries s ++ map snd (pendingRequests s))).
  { intros now Hsd. rewrite shutdown_runs by exact Hsd.
    exact (flush_stored newURL (pendingRequests s) (disarm s)). }
  unfold step, finalized.
  destruct (exited s) eqn:Hex; [simpl; now rewrite app_nil_r|].
  destruct ev as [now id m u hs pd ty | id st hs | id | id txt | call body | call
                 | now | now | now].
  - destruct (negb (String.eqb ty "XHR") && negb (String.eqb ty "Fetch"));
      [simpl; now rewrite app_nil_r|].
    destruct (isNoiseDomain newURL u); [simpl; now rewrite app_nil_r|].
    destruct (isStaticAsset newURL u); simpl; now rewrite app_nil_r.
  - destruct (get id (pendingRequests s)); simpl; now rewrite app_nil_r.
  - destruct (get id (pendingRequests s)); simpl; now rewrite app_nil_r.
  - destruct (get id (pendingRequests s)); [|simpl; now rewrite app_nil_r].
    rewrite storeEntry_stored. reflexivity.
  - destruct (takeFetch call (bodyFetches s)) as [[f rest]|];
      [|simpl; now rewrite app_nil_r].
    rewrite storeEntry_stored. reflexivity.
  - destruct (takeFetch call (bodyFetches s)) as [[f rest]|];
      [|simpl; now rewrite app_nil_r].
    rewrite storeEntry_stored. reflexivity.
  - destruct (timerArmed s); [|simpl; now rewrite app_nil_r].
    destruct (shuttingDown s) eqn:Hsd; simpl.
    + rewrite shutdown_again by exact Hsd. simpl. now rewrite app_nil_r.
    + now apply Hshut.
  - destruct (shuttingDown s) eqn:Hsd; simpl.
    + rewrite shutdown_again by exact Hsd. simpl. now rewrite app_nil_r.
    + now apply Hshut.
  - destruct (shuttingDown s) eqn:Hsd; simpl.
    + rewrite shutdown_again by exact Hsd. simpl. now rewrite app_nil_r.
    + now apply Hshut.
Qed.

Lemma run_accounts evs rid : forall s,
  occurrences rid (map fst (finalizedBy evs s))
  + pendingCount rid (runEvents newURL cfg evs s)
  + fetchCount rid (runEvents newURL cfg evs s)
  + replacedBy evs s rid
  = pendingCount rid s + fetchCount rid s + createdBy evs s rid.
Proof.
  induction evs as [|ev evs IH]; intros s; simpl.
  - lia.
  - pose proof (IH (step newURL cfg s ev)) as H1.
    pose proof (step_accounts s ev rid) as H3.
    rewrite map_app, occurrences_app. lia.
Qed.

Lemma run_stores evs : forall s,
  Permutation (storedEntries (runEvents newURL cfg evs s))
              (storedEntries s ++ map snd (finalizedBy evs s)).
Proof.
  induction evs as [|ev evs IH]; intros s; simpl.
  - now rewrite app_nil_r.
  - rewrite IH, step_stores, map_app, app_assoc. reflexivity.
Qed.

(** ** Where a stored entry comes from *)

(** The entry carries the request of the notification, a request-sent
    notification for [rid] that passes the filters. *)
Definition sentAs (rid : string) (e : entry) (ev : event) : Prop :=
  match ev with
  | RequestWillBeSent now requestId m u hs pd ty =>
      requestId = rid /\ tracks ev rid = true
      /\ timestamp e = now /\ method e = m /\ url e = u /\ requestHeaders e = hs
      /\ requestBody e = redactBody cfg (truthy pd) /\ resourceType e = ty
  | _ => False
  end.

Definition stemsFrom (evs : list event) (rid : string) (e : entry) : Prop :=
  exists ev, In ev evs /\ sentAs rid e ev.

Lemma sentAs_withStatus rid e ev st hs :
  sentAs rid e ev -> sentAs rid (withStatus st hs e) ev.
Proof. destruct ev; simpl; auto. Qed.

Lemma sentAs_withBody rid e ev b :
  sentAs rid e ev -> sentAs rid (withBody b e) ev.
Proof. destruct ev; simpl; auto. Qed.

Lemma stemsFrom_withStatus evs rid e st hs :
  stemsFrom evs rid e -> stemsFrom evs rid (withStatus st hs e).
Proof. intros (ev & H1 & H2). exists ev. split; [exact H1 | now apply sentAs_withStatus]. Qed.

Lemma stemsFrom_withBody evs rid e b :
  stemsFrom evs rid e -> stemsFrom evs rid (withBody b e).
Proof. intros (ev & H1 & H2). exists ev. split; [exact H1 | now apply sentAs_withBody]. Qed.

Lemma stemsFrom_more evs more rid e :
  stemsFrom evs rid e -> stemsFrom (evs ++ more) rid e.
Proof. intros (ev & H1 & H2). exists ev. split; [apply in_or_app; now left | exact H2]. Qed.

(** Every request in flight stems from a notification handled so far. *)
Definition traced (hist : list event) (s : state) : Prop :=
  (forall id e, In (id, e) (pendingRequests s) -> stemsFrom hist id e)
  /\ (forall f, In f (bodyFetches s) -> stemsFrom hist (fetchRequestId f) (fetchEntry f)).

Lemma traced_more hist more s : traced hist s -> traced (hist ++ more) s.
Proof.
  intros [H1 H2]. split.
  - intros id e H. now apply stemsFrom_more, H1.
  - intros f H. now apply stemsFrom_more, H2.
Qed.

Lemma traced_shutdown hist now s : traced hist s -> traced hist (shutdown newURL cfg now s).
Proof.
  intros H. destruct (shuttingDown s) eqn:Hsd.
  - now rewrite shutdown_again.
  - rewrite shutdown_runs by exact Hsd. destruct H as [_ H2].
    split; [intros id e []|exact H2].
Qed.

Lemma step_traced hist s ev :
  traced hist s ->
  traced (hist ++ [ev]) (step newURL cfg s ev)
  /\ forall id e, In (id, e) (finalized s ev) -> stemsFrom hist id e.
Proof.
  intros Ht. pose proof Ht as [Hp Hf].
  assert (Hsame : traced (hist ++ [ev]) s) by now apply traced_more.
  assert (Hdown : forall now,
             traced (hist ++ [ev]) (shutdown newURL cfg now (disarm s))).
  { intros now. apply traced_shutdown. exact Hsame. }
  unfold step, finalized.
  destruct (exited s) eqn:Hex; [split; [exact Hsame | intros id e []]|].
  destruct ev as [now id m u hs pd ty | id st hs | id | id txt | call body | call
                 | now | now | now].
  - split; [|intros id' e' []].
    destruct (negb (String.eqb ty "XHR") && negb (String.eqb ty "Fetch")) eqn:Ety;
      [exact Hsame|].
    destruct (isNoiseDomain newURL u) eqn:En; [exact Hsame|].
    destruct (isStaticAsset newURL u) eqn:Es; [exact Hsame|].
    split; [|intros f H; now apply stemsFrom_more, Hf].
    intros id' e' H. cbn [setPending pendingRequests] in H.
    apply In_set in H as [H | H]; [|now apply stemsFrom_more, Hp].
    injection H as -> ->.
    exists (RequestWillBeSent now id m u hs pd ty).
    split; [apply in_or_app; right; now left|].
    cbn [sentAs tracks timestamp method url requestHeaders requestBody resourceType].
    rewrite String.eqb_refl, En, Es.
    destruct (String.eqb ty "XHR"), (String.eqb ty "Fetch");
      try discriminate Ety; repeat split; reflexivity.
  - split; [|intros id' e' []].
    destruct (get id (pendingRequests s)) as [e|] eqn:E; [|exact Hsame].
    split; [|intros f H; now apply stemsFrom_more, Hf].
    intros id' e' H. cbn [setPending pendingRequests] in H.
    apply In_set in H as [H | H]; [|now apply stemsFrom_more, Hp].
    injection H as -> ->.
    apply stemsFrom_more, stemsFrom_withStatus, Hp. now apply get_In.
  - split; [|intros id' e' []].
    destruct (get id (pendingRequests s)) as [e|] eqn:E; [|exact Hsame].
    split.
    + intros id' e' H. cbn [pendingRequests] in H.
      apply In_delete in H. now apply stemsFrom_more, Hp.
    + intros f H. cbn [bodyFetches] in H.
      apply in_app_or in H as [H | [<- | []]]; [now apply stemsFrom_more, Hf|].
      cbn [fetchRequestId fetchEntry]. apply stemsFrom_more, Hp. now apply get_In.
  - destruct (get id (pendingRequests s)) as [e|] eqn:E;
      [|split; [exact Hsame | intros id' e' []]].
    split.
    + split.
      * intros id' e' H. cbn [storeEntry setPending pendingRequests] in H.
        apply In_delete in H. now apply stemsFrom_more, Hp.
      * intros f H. cbn [storeEntry setPending bodyFetches] in H.
        now apply stemsFrom_more, Hf.
    + intros id' e' [H | []]. injection H as <- <-.
      apply stemsFrom_withBody, stemsFrom_withStatus, Hp. now apply get_In.
  - destruct (takeFetch call (bodyFetches s)) as [[f rest]|] eqn:E;
      [|split; [exact Hsame | intros id' e' []]].
    apply In_takeFetch in E as (_ & Hin & Hrest).
    split.
    + split.
      * intros id' e' H. cbn [storeEntry pendingRequests] in H.
        now apply stemsFrom_more, Hp.
      * intros g H. cbn [storeEntry bodyFetches] in H.
        now apply stemsFrom_more, Hf, Hrest.
    + intros id' e' [H | []]. injection H as <- <-.
      now apply stemsFrom_withBody, Hf.
  - destruct (takeFetch call (bodyFetches s)) as [[f rest]|] eqn:E;
      [|split; [exact Hsame | intros id' e' []]].
    apply In_takeFetch in E as (_ & Hin & Hrest).
    split.
    + split.
      * intros id' e' H. cbn [storeEntry pendingRequests] in H.
        now apply stemsFrom_more, Hp.
      * intros g H. cbn [storeEntry bodyFetches] in H.
        now apply stemsFrom_more, Hf, Hrest.
    + intros id' e' [H | []]. injection H as <- <-. now apply Hf.
  - destruct (timerArmed s); [|split; [exact Hsame | intros id' e' []]].
    split; [apply Hdown|]. cbn [andb]. intros id' e' H.
    destruct (negb (shuttingDown s)); [now apply Hp | destruct H].
  - split; [apply Hdown|]. intros id' e' H.
    destruct (negb (shuttingDown s)); [now apply Hp | destruct H].
  - split; [apply Hdown|]. intros id' e' H.
    destruct (negb (shuttingDown s)); [now apply Hp | destruct H].
Qed.

Lemma run_traced evs : forall hist s,
  traced hist s ->
  traced (hist ++ evs) (runEvents newURL cfg evs s)
  /\ forall id e, In (id, e) (finalizedBy evs s) -> stemsFrom (hist ++ evs) id e.
Proof.
  induction evs as [|ev evs IH]; intros hist s Ht; simpl.
  - rewrite app_nil_r. split; [exact Ht | intros id e []].
  - destruct (step_traced hist s ev Ht) as [Hs Hfin].
    destruct (IH (hist ++ [ev]) _ Hs) as [Hr Hrest].
    rewrite <- app_assoc in Hr, Hrest. simpl in Hr, Hrest.
    split; [exact Hr|].
    intros id e H. apply in_app_or in H as [H | H]; [|now apply Hrest].
    now apply stemsFrom_more, Hfin.
Qed.

(** Counting the entries of a kind is counting their identifiers,
    when the kind tells the identifier. *)
Lemma filter_length_perm (P : entry -> bool) l l' :
  Permutation l l' -> List.length (filter P l) = List.length (filter P l').
Proof.
  induction 1 as [|x l l' _ IH|x y l|l l' l'' _ IH1 _ IH2]; simpl.
  - reflexivity.
  - destruct (P x); simpl; now rewrite IH.
  - destruct (P x), (P y); reflexivity.
  - now rewrite IH1.
Qed.

Lemma filter_occurrences (P : entry -> bool) rid (l : list (string * entry)) :
  (forall id e, In (id, e) l -> (P e = true <-> id = rid)) ->
  List.length (filter P (map snd l)) = occurrences rid (map fst l).
Proof.
  induction l as [|[id e] l IH]; intros H; simpl; [reflexivity|].
  rewrite <- IH by (intros id' e' H'; apply H; now right).
  pose proof (H id e (or_introl eq_refl)) as He.
  destruct (P e) eqn:EP, (String.eqb id rid) eqn:Eid; simpl; try reflexivity.
  - apply String.eqb_neq in Eid. destruct Eid. now apply He.
  - apply String.eqb_eq in Eid. apply He in Eid. discriminate.
Qed.

(** Once the process has exited the in-flight map is empty. *)
Lemma exited_run_pending evs : forall s,
  (exited s = true -> pendingRequests s = []) ->
  exited (runEvents newURL cfg evs s) = true ->
  pendingRequests (runEvents newURL cfg evs s) = [].
Proof.
  induction evs as [|ev evs IH]; intros s Hs; simpl; [exact Hs|].
  apply IH. unfold step. destruct (exited s) eqn:Hex; [intros _; now apply Hs|].
  assert (Hshut : forall now s',
             exited s' = false ->
             exited (shutdown newURL cfg now s') = true ->
             pendingRequests (shutdown newURL cfg now s') = []).
  { intros now s' Hex' H. unfold shutdown in *.
    destruct (shuttingDown s'); [congruence | reflexivity]. }
  destruct ev as [now id m u hs pd ty | id st hs | id | id txt | call body | call
                 | now | now | now]; simpl.
  - destruct (_ && _); [congruence|].
    destruct (isNoiseDomain newURL u); [congruence|].
    destruct (isStaticAsset newURL u); [congruence|]. simpl. congruence.
  - destruct (get id (pendingRequests s)); simpl; congruence.
  - destruct (get id (pendingRequests s)); simpl; congruence.
  - destruct (get id (pendingRequests s)); simpl; congruence.
  - destruct (takeFetch call (bodyFetches s)) as [[f rest]|]; simpl; congruence.
  - destruct (takeFetch call (bodyFetches s)) as [[f rest]|]; simpl; congruence.
  - destruct (timerArmed s); [|congruence]. now apply Hshut.
  - now apply Hshut.
  - now apply Hshut.
Qed.

(** For every run from start-up: the store holds exactly the entries
    finalized, each made from a request-sent notification of the run
    for the identifier it was tracked under; and for every identifier
    the entries finalized under it, its pending request, its
    outstanding body fetches and the pending requests a re-sent
    identifier replaced add up to the PendingRequests created for it.
    So no identifier gets more entries than PendingRequests, and it
    gets exactly as many once the process has exited, provided none
    of its body fetches is outstanding and it was never re-sent while
    pending.  When the requests of the identifier can be told from
    those of every other, the entries counted are the entries of the
    store that carry its requests. *)
Theorem entries_per_identifier (pages : nat) (evs : list event) (rid : string) :
  let s0 := init pages in
  let s := runEvents newURL cfg evs s0 in
  let done := finalizedBy evs s0 in
  Permutation (storedEntries s) (map snd done)
  /\ (forall id e, In (id, e) done -> stemsFrom evs id e)
  /\ occurrences rid (map fst done) + pendingCount rid s + fetchCount rid s
     + replacedBy evs s0 rid
     = createdBy evs s0 rid
  /\ occurrences rid (map fst done) <= createdBy evs s0 rid
  /\ (exited s = true ->
      occurrences rid (map fst done) + fetchCount rid s + replacedBy evs s0 rid
      = createdBy evs s0 rid)
  /\ (forall P : entry -> bool,
         (forall id e, stemsFrom evs id e -> (P e = true <-> id = rid)) ->
         List.length (filter P (storedEntries s)) = occurrences rid (map fst done)).
Proof.
  intros s0 s done.
  pose proof (run_accounts evs rid s0) as H1.
  pose proof (run_stores evs s0) as H2.
  fold s in H1, H2. fold done in H1, H2.
  change (pendingCount rid s0) with 0 in H1.
  change (fetchCount rid s0) with 0 in H1.
  change (storedEntries s0) with (@nil entry) in H2. simpl in H2.
  assert (Hfrom : forall id e, In (id, e) done -> stemsFrom evs id e).
  { assert (Ht : traced [] s0) by (split; [intros id e [] | intros f []]).
    exact (proj2 (run_traced evs [] s0 Ht)). }
  split; [exact H2|]. split; [exact Hfrom|]. split; [lia|]. split; [lia|]. split.
  - intros Hex.
    assert (Hp : pendingRequests s = []).
    { apply exited_run_pending; [discriminate | exact Hex]. }
    unfold pendingCount in H1. rewrite Hp in H1. simpl in H1. lia.
  - intros P HP. rewrite (filter_length_perm P _ _ H2).
    apply filter_occurrences. intros id e H. apply HP, Hfrom, H.
Qed.


(** ** Filtered requests *)

(** The request-sent notification is dropped by the filters. *)
Definition filteredOut (u type : string) : Prop :=
  (type <> "XHR"%string /\ type <> "Fetch"%string)
  \/ isNoiseDomain newURL u = true \/ isStaticAsset newURL u = true.

(** A request-sent notification of another resource kind, to a noise
    domain or for a static asset leaves the state as it was: it
    creates no PendingRequest, and one pending under its identifier
    stays as it is.  When no request is pending under the identifier,
    the rest of its life cycle leaves the state as it was too: no
    entry is stored for it. *)
Theorem filtered_request_untracked (s : state) (now id m u : string)
        (hs hs' : list (string * string)) (pd txt : option string)
        (ty : string) (st : nat) :
  filteredOut u ty ->
  step newURL cfg s (RequestWillBeSent now id m u hs pd ty) = s
  /\ (get id (pendingRequests s) = None ->
      runEvents newURL cfg
                [RequestWillBeSent now id m u hs pd ty; ResponseReceived id st hs';
                 LoadingFinished id; LoadingFailed id txt] s
      = s).
Proof.
  intros Hf.
  assert (Hsent : step newURL cfg s (RequestWillBeSent now id m u hs pd ty) = s).
  { unfold step. destruct (exited s); [reflexivity|].
    destruct Hf as [[H1 H2] | [H | H]].
    - apply String.eqb_neq in H1, H2. now rewrite H1, H2.
    - rewrite H. now destruct (_ && _).
    - rewrite H. destruct (_ && _); [reflexivity|]. now destruct (isNoiseDomain newURL u). }
  split; [exact Hsent|]. intros Hnone.
  assert (Hlater : forall ev,
             ev = ResponseReceived id st hs' \/ ev = LoadingFinished id
             \/ ev = LoadingFailed id txt ->
             step newURL cfg s ev = s).
  { intros ev [-> | [-> | ->]]; unfold step; destruct (exited s);
      try reflexivity; now rewrite Hnone. }
  unfold runEvents. simpl. rewrite Hsent.
  rewrite (Hlater (ResponseReceived id st hs')) by auto.
  rewrite (Hlater (LoadingFinished id)) by auto.
  apply Hlater. auto.
Qed.

End Platform.
End Correlator.

(* ================================================================== *)
(** * Capture runs on the reference platform *)
(* ================================================================== *)

Module Runs.
Import JS Capture Correlator.
Local Open Scope string_scope.

Definition plain : config := mkConfig 9222 300 false.
Definition redacting : config := mkConfig 9222 300 true.

Definition t0 : string := "2024-01-02T03:04:05.678Z".
Definition t1 : string := "2024-01-02T03:09:05.700Z".
Definition t2 : string := "2024-01-02T03:09:05.900Z".

Fixpoint repeated (c : ascii) (n : nat) : string :=
  match n with
  | 0 => EmptyString
  | S n' => String c (repeated c n')
  end.

(** A body one character over the cap. *)
Definition longBody : string := repeated "a" (MAX_BODY_SIZE + 1).

(** Two requests to two sites: the first runs to its end, the second
    is still pending. *)
Definition twoSites : list event :=
  [RequestWillBeSent t0 "r1" "GET" "https://api.example.com/a" [] None "XHR";
   ResponseReceived "r1" 200 [("content-type", "application/json")];
   LoadingFinished "r1";
   BodyResolved 2 (Some "{}");
   RequestWillBeSent t0 "r2" "POST" "https://shop.example.org/b" [] (Some "x=1") "Fetch"].

Lemma shutdown_runs_once_witness :
  runEvents Node.newURL plain [SIGINT t2; TimerFired t2]
            (step Node.newURL plain (runEvents Node.newURL plain twoSites (init 1))
                  (TimerFired t1))
  = step Node.newURL plain (runEvents Node.newURL plain twoSites (init 1)) (TimerFired t1)
  /\ map fileDomain
         (written (step Node.newURL plain
                        (runEvents Node.newURL plain twoSites (init 1)) (TimerFired t1)))
     = ["example.com"; "example.org"].
Proof.
  pose proof (shutdown_runs_once Node.newURL plain 1 twoSites
                [SIGINT t2; TimerFired t2] (TimerFired t1)
                eq_refl eq_refl (fun _ _ => eq_refl)) as (H & _).
  split; [exact H | reflexivity].
Defined.

(** A request whose URL does not parse, failing in flight. *)
Definition badEntry : entry :=
  mkEntry t0 "GET" "not a url" [] None "Fetch" (Some 0) [] (Some "[failed: unknown]").

Lemma unparsable_url_domain_witness :
  getDomain Node.newURL "not a url" = "unknown"
  /\ runEvents Node.newURL plain
               [RequestWillBeSent t0 "r9" "GET" "not a url" [] None "Fetch";
                LoadingFailed "r9" None]
               (init 1)
     = storeEntry Node.newURL badEntry (init 1)
  /\ exists stem c,
       In ("unknown", stem, c)
          (written (runEvents Node.newURL plain [SIGTERM t1]
                              (storeEntry Node.newURL badEntry (init 1))))
       /\ domain c = "unknown" /\ In badEntry (requests c).
Proof.
  pose proof (unparsable_url_domain Node.newURL plain badEntry eq_refl)
    as (Hd & _ & _ & Hfile).
  split; [exact Hd|]. split; [reflexivity|].
  apply (Hfile (init 1) [SIGTERM t1]); reflexivity.
Defined.

Lemma entries_per_identifier_witness :
  occurrences "r1"
    (map fst (finalizedBy Node.newURL plain (twoSites ++ [TimerFired t1]) (init 1)))
  <= createdBy Node.newURL plain (twoSites ++ [TimerFired t1]) (init 1) "r1"
  /\ createdBy Node.newURL plain (twoSites ++ [TimerFired t1]) (init 1) "r1" = 1
  /\ map fst (finalizedBy Node.newURL plain (twoSites ++ [TimerFired t1]) (init 1))
     = ["r1"; "r2"]
  /\ Permutation
       (storedEntries (runEvents Node.newURL plain (twoSites ++ [TimerFired t1]) (init 1)))
       [mkEntry t0 "GET" "https://api.example.com/a" [] None "XHR" (Some 200)
                [("content-type", "application/json")] (Some "{}");
        mkEntry t0 "POST" "https://shop.example.org/b" [] (Some "x=1") "Fetch"
                None [] None]
  /\ List.length
       (filter (fun e => String.eqb (url e) "https://api.example.com/a")
               (storedEntries
                  (runEvents Node.newURL plain (twoSites ++ [TimerFired t1]) (init 1))))
     = 1.
Proof.
  destruct (entries_per_identifier Node.newURL plain 1 (twoSites ++ [TimerFired t1]) "r1")
    as (Hstore & _ & _ & Hle & _ & Hkind).
  split; [exact Hle|]. split; [vm_compute; reflexivity|].
  split; [vm_compute; reflexivity|]. split; [exact Hstore|].
  rewrite (Hkind (fun e => String.eqb (url e) "https://api.example.com/a"));
    [vm_compute; reflexivity|].
  intros id e (ev & Hin & Hs). simpl in Hin.
  destruct Hin as [<- | [<- | [<- | [<- | [<- | [<- | []]]]]]];
    simpl in Hs; try contradiction;
    destruct Hs as (<- & _ & _ & _ & Hu & _); rewrite Hu;
    split; intros H; try reflexivity; discriminate H.
Defined.

Lemma filtered_request_untracked_witness :
  runEvents Node.newURL plain
            [RequestWillBeSent t0 "r5" "POST" "https://www.google-analytics.com/collect"
                               [] (Some "v=1") "XHR";
             ResponseReceived "r5" 204 []; LoadingFinished "r5"; LoadingFailed "r5" None]
            (init 1)
  = init 1
  /\ runEvents Node.newURL plain
               [RequestWillBeSent t0 "r6" "GET" "https://cdn.example.com/assets/app.JS?v=3"
                                  [] None "Fetch";
                ResponseReceived "r6" 200 []; LoadingFinished "r6"; LoadingFailed "r6" None]
               (init 1)
     = init 1
  /\ step Node.newURL plain
          (runEvents Node.newURL plain
                     [RequestWillBeSent t0 "r1" "GET" "https://api.example.com/a" [] None "XHR"]
                     (init 1))
          (RequestWillBeSent t1 "r1" "GET" "https://www.google-analytics.com/collect"
                             [] None "XHR")
     = runEvents Node.newURL plain
                 [RequestWillBeSent t0 "r1" "GET" "https://api.example.com/a" [] None "XHR"]
                 (init 1).
Proof.
  split; [|split].
  - apply (filtered_request_untracked Node.newURL plain (init 1)); [|reflexivity].
    right. left. reflexivity.
  - apply (filtered_request_untracked Node.newURL plain (init 1)); [|reflexivity].
    right. right. reflexivity.
  - apply (filtered_request_untracked Node.newURL plain _ t1 "r1" "GET"
             "https://www.google-analytics.com/collect" [] [] None None "XHR" 0).
    right. left. reflexivity.
Defined.

(** A request that finished, its body fetch outstanding. *)
Definition fetching : state :=
  runEvents Node.newURL redacting
            [RequestWillBeSent t0 "r1" "POST" "https://api.example.com/upload"
                               [] (Some longBody) "XHR";
             ResponseReceived "r1" 200 [];
             LoadingFinished "r1"]
            (init 1).

Definition uploadEntry : entry :=
  mkEntry t0 "POST" "https://api.example.com/upload" [] (Some longBody) "XHR"
          (Some 200) [] None.

Lemma response_body_truncated_witness :
  In (withBody
        (Some (slice0 MAX_BODY_SIZE longBody ++ truncationMarker (MAX_BODY_SIZE + 1)))
        uploadEntry)
     (storedEntries (step Node.newURL redacting fetching (BodyResolved 2 (Some longBody)))).
Proof.
  assert (Hex : exited fetching = false) by (vm_compute; reflexivity).
  assert (Hf : takeFetch 2 (bodyFetches fetching) = Some (mkFetch 2 "r1" uploadEntry, []))
    by (vm_compute; reflexivity).
  assert (Hlong : MAX_BODY_SIZE < String.length longBody)
    by (apply Nat.ltb_lt; vm_compute; reflexivity).
  assert (Hlen : String.length longBody = MAX_BODY_SIZE + 1) by (vm_compute; reflexivity).
  rewrite <- Hlen.
  exact (proj1 (response_body_truncated Node.newURL redacting fetching 2 longBody
                  (mkFetch 2 "r1" uploadEntry) [] Hex Hf Hlong)).
Defined.

(** C4 fails on the code for request bodies: a request body one
    character over the cap reaches the session file whole, in either
    redaction mode, while the response body of the same record is cut. *)
Lemma request_body_stored_whole :
  String.length longBody = MAX_BODY_SIZE + 1
  /\ truncateBody (Some longBody) <> Some longBody
  /\ (forall cfg,
         map (fun e => option_map String.length (requestBody e))
             (writtenEntries
                (runEvents Node.newURL cfg
                           [BodyResolved 2 (Some longBody); SIGINT t1] fetching))
         = [Some (MAX_BODY_SIZE + 1)])
  /\ map (fun e => requestBody e)
         (writtenEntries
            (runEvents Node.newURL plain
                       [BodyResolved 2 (Some longBody); SIGINT t1] fetching))
     = [Some longBody]
  /\ map (fun e => responseBody e)
         (writtenEntries
            (runEvents Node.newURL plain
                       [BodyResolved 2 (Some longBody); SIGINT t1] fetching))
     = [truncateBody (Some longBody)].
Proof.
  split; [vm_compute; reflexivity|].
  split; [intros H; vm_compute in H; discriminate H|].
  split; [intros [port dur red]; vm_compute; reflexivity|].
  split; vm_compute; reflexivity.
Qed.

(** C2 fails on the code: a request is tracked, its loading finishes,
    and the shutdown comes before the body fetch is answered.  The
    identifier has left the in-flight map, so the flush does not see
    it; the process exits, and no entry is stored or written for it;
    a reply that arrives later changes nothing. *)
Lemma body_fetch_lost_at_shutdown :
  let tracked :=
    mkEntry t0 "GET" "https://api.example.com/a" [] None "XHR" None [] None in
  let sent := RequestWillBeSent t0 "r1" "GET" "https://api.example.com/a" [] None "XHR" in
  let final := runEvents Node.newURL plain [sent; LoadingFinished "r1"; SIGINT t1] (init 1) in
  pendingRequests (runEvents Node.newURL plain [sent] (init 1)) = [("r1", tracked)]
  /\ exited final = true
  /\ written final = []
  /\ storedEntries final = []
  /\ totalCaptured final = 0
  /\ bodyFetches final = [mkFetch 2 "r1" tracked]
  /\ createdBy Node.newURL plain [sent; LoadingFinished "r1"; SIGINT t1] (init 1) "r1" = 1
  /\ finalizedBy Node.newURL plain [sent; LoadingFinished "r1"; SIGINT t1] (init 1) = []
  /\ runEvents Node.newURL plain [BodyResolved 2 (Some "{}")] final = final
  /\ storedEntries
       (runEvents Node.newURL plain
                  [sent; LoadingFinished "r1"; BodyResolved 2 (Some "{}"); SIGINT t1]
                  (init 1))
     = [withBody (Some "{}") tracked].
Proof.
  repeat split.
Qed.
End Runs.

(* ================================================================== *)
(** * Properties of [split] and [join] *)
(* ================================================================== *)

Module StringFacts.
Import JS.
Local Open Scope string_scope.

(** The character [c] does not occur in [s]. *)
Definition free (c : ascii) (s : string) : Prop := ~ In c (list_ascii_of_string s).

Lemma free_cons c x s : free c (String x s) <-> x <> c /\ free c s.
Proof. unfold free. simpl. tauto. Qed.

Lemma free_nil c : free c "".
Proof. intros []. Qed.

Lemma free_app c a b : free c (a ++ b) <-> free c a /\ free c b.
Proof.
  induction a as [|x a IH]; simpl.
  - split; [intros H; split; [apply free_nil | exact H] | tauto].
  - rewrite !free_cons, IH. tauto.
Qed.

Lemma append_nil_r s : s ++ "" = s.
Proof. induction s as [|c s IH]; simpl; [reflexivity | now rewrite IH]. Qed.

Lemma append_assoc a b c : (a ++ b) ++ c = a ++ b ++ c.
Proof. induction a as [|x a IH]; simpl; [reflexivity | now rewrite IH]. Qed.

Lemma length_append a b : String.length (a ++ b) = String.length a + String.length b.
Proof. induction a as [|x a IH]; simpl; [reflexivity | now rewrite IH]. Qed.

Lemma split_nonempty sep s : split sep s <> [].
Proof.
  destruct s as [|c s]; simpl; [discriminate|].
  destruct (Ascii.eqb c sep); [discriminate|].
  destruct (split sep s); discriminate.
Qed.

Lemma split_length sep s : 1 <= List.length (split sep s).
Proof.
  pose proof (split_nonempty sep s). destruct (split sep s); simpl; [congruence | lia].
Qed.

(** Joining the pieces gives the string back. *)
Lemma join_split sep s : join (String sep "") (split sep s) = s.
Proof.
  unfold join. induction s as [|c s IH]; simpl; [reflexivity|].
  pose proof (split_nonempty sep s) as Hne.
  destruct (Ascii.eqb c sep) eqn:E.
  - apply Ascii.eqb_eq in E. subst c.
    destruct (split sep s) as [|w ws]; [congruence|].
    change (concat (String sep "") ("" :: w :: ws))
      with (String sep (concat (String sep "") (w :: ws))).
    now rewrite IH.
  - destruct (split sep s) as [|w ws]; [congruence|].
    destruct ws as [|w' ws]; simpl in *; now rewrite <- IH.
Qed.

(** No piece holds the separator. *)
Lemma split_free sep s : Forall (free sep) (split sep s).
Proof.
  induction s as [|c s IH]; simpl.
  - constructor; [apply free_nil | constructor].
  - destruct (Ascii.eqb c sep) eqn:E.
    + constructor; [apply free_nil | exact IH].
    + apply Ascii.eqb_neq in E.
      destruct (split sep s) as [|w ws]; [repeat constructor|].
      * apply free_cons. split; [exact E | apply free_nil].
      * inversion IH; subst. constructor; [|assumption].
        apply free_cons. tauto.
Qed.

Lemma split_of_free sep s : free sep s -> split sep s = [s].
Proof.
  induction s as [|c s IH]; simpl; [reflexivity|].
  intros H. apply free_cons in H as [Hc Hs].
  apply Ascii.eqb_neq in Hc. rewrite Hc, (IH Hs). reflexivity.
Qed.

(** Splitting distributes over a separator. *)
Lemma split_app sep a b :
  split sep (a ++ String sep b) = (split sep a ++ split sep b)%list.
Proof.
  induction a as [|c a IH]; simpl.
  - now rewrite Ascii.eqb_refl.
  - rewrite IH. destruct (Ascii.eqb c sep); [reflexivity|].
    pose proof (split_nonempty sep a).
    destruct (split sep a); [congruence | reflexivity].
Qed.

Lemma join_cons sep x l :
  l <> [] -> join sep (x :: l) = x ++ sep ++ join sep l.
Proof. destruct l; [congruence | reflexivity]. Qed.

Lemma join_app sep l1 l2 :
  l1 <> [] -> l2 <> [] ->
  join sep (l1 ++ l2) = join sep l1 ++ sep ++ join sep l2.
Proof.
  intros H1 H2. induction l1 as [|x l1 IH]; [congruence|].
  destruct l1 as [|y l1].
  - simpl app. now rewrite join_cons.
  - change ((x :: y :: l1) ++ l2)%list with (x :: ((y :: l1) ++ l2))%list.
    rewrite join_cons by discriminate. rewrite IH by discriminate.
    rewrite (join_cons sep x (y :: l1)) by discriminate.
    now rewrite !append_assoc.
Qed.

(** Splitting what was joined gives the pieces back. *)
Lemma split_join sep l :
  l <> [] -> Forall (free sep) l -> split sep (join (String sep "") l) = l.
Proof.
  intros Hne Hfree. induction l as [|x l IH]; [congruence|].
  inversion Hfree as [|? ? Hx Hl]; subst.
  destruct l as [|y l].
  - simpl. now apply split_of_free.
  - rewrite join_cons by discriminate.
    change (x ++ String sep "" ++ join (String sep "") (y :: l))
      with (x ++ String sep (join (String sep "") (y :: l))).
    rewrite split_app, (split_of_free sep x Hx), IH by (discriminate || assumption).
    reflexivity.
Qed.

Lemma skipn_nonempty (A : Type) (l : list A) n : n < List.length l -> skipn n l <> [].
Proof.
  intros H E. apply (f_equal (@List.length A)) in E.
  rewrite length_skipn in E. simpl in E. lia.
Qed.

Lemma firstn_nonempty (A : Type) (l : list A) n :
  0 < n -> l <> [] -> firstn n l <> [].
Proof. destruct n, l; simpl; try lia; congruence. Qed.

(** A string is cut where its pieces are. *)
Lemma join_cut sep s n :
  0 < n < List.length (split sep s) ->
  s = join (String sep "") (firstn n (split sep s))
      ++ String sep (join (String sep "") (skipn n (split sep s))).
Proof.
  intros H. rewrite <- (join_split sep s) at 1.
  rewrite <- (firstn_skipn n (split sep s)) at 1.
  rewrite join_app.
  - reflexivity.
  - apply firstn_nonempty; [lia | apply split_nonempty].
  - apply skipn_nonempty. lia.
Qed.
End StringFacts.

(* ================================================================== *)
(** * Properties of the capture filters *)
(* ================================================================== *)

Module Filters.
Import JS Capture StringFacts.
Local Open Scope string_scope.

Lemma isNoise_In d : isNoise d = true <-> In d NOISE_DOMAINS.
Proof.
  unfold isNoise. rewrite existsb_exists. split.
  - intros (x & Hx & E). apply String.eqb_eq in E. now subst.
  - intros H. exists d. split; [exact H | apply String.eqb_refl].
Qed.

(** Every listed domain has a name of two labels or more. *)
Lemma NOISE_DOMAINS_labels d :
  In d NOISE_DOMAINS -> 2 <= List.length (split "." d).
Proof.
  intros H.
  assert (Hall : forallb (fun d => (2 <=? List.length (split "." d))%nat)
                         NOISE_DOMAINS = true)
    by reflexivity.
  rewrite forallb_forall in Hall. apply Nat.leb_le. now apply Hall.
Qed.

(** What [isNoiseDomain] decides of a host name. *)
Definition noisy (host : string) : bool :=
  if isNoise host then true
  else existsb (fun i => isNoise (join "." (skipn i (split "." host))))
               (seq 1 (List.length (split "." host) - 2)).

(** A listed domain, or a subdomain of one. *)
Definition listed (host : string) : Prop :=
  exists d, In d NOISE_DOMAINS /\ (host = d \/ exists sub, host = sub ++ "." ++ d).

Lemma noisy_listed host : noisy host = true <-> listed host.
Proof.
  unfold noisy, listed. split.
  - destruct (isNoise host) eqn:E.
    + intros _. exists host. split; [now apply isNoise_In | now left].
    + rewrite existsb_exists. intros (i & Hi & Hn).
      apply in_seq in Hi. apply isNoise_In in Hn.
      eexists. split; [exact Hn|]. right.
      exists (join "." (firstn i (split "." host))).
      apply (join_cut "." host i). lia.
  - intros (d & Hd & [E | (sub & E)]).
    + rewrite E. apply isNoise_In in Hd. now rewrite Hd.
    + destruct (isNoise host); [reflexivity|].
      rewrite existsb_exists. exists (List.length (split "." sub)).
      pose proof (split_length "." sub) as Hsub.
      pose proof (NOISE_DOMAINS_labels d Hd) as Hlab.
      rewrite E. change (sub ++ "." ++ d) with (sub ++ String "." d).
      rewrite split_app. split.
      * apply in_seq. rewrite length_app. lia.
      * rewrite skipn_app, skipn_all, Nat.sub_diag. simpl.
        rewrite (join_split "." d). now apply isNoise_In.
Qed.

Lemma Forall_skipn (A : Type) (P : A -> Prop) n (l : list A) :
  Forall P l -> Forall P (skipn n l).
Proof.
  intros H. rewrite <- (firstn_skipn n l) in H. now apply Forall_app in H.
Qed.

(** What [getDomain] makes of a host name. *)
Definition registrable (host : string) : string :=
  if (2 <? List.length (split "." host))%nat
  then join "." (skipn (List.length (split "." host) - 2) (split "." host))
  else host.

Lemma registrable_long host :
  2 < List.length (split "." host) ->
  List.length (split "." (registrable host)) = 2
  /\ exists sub, host = sub ++ "." ++ registrable host.
Proof.
  intros Hlen. unfold registrable.
  apply Nat.ltb_lt in Hlen. rewrite Hlen. apply Nat.ltb_lt in Hlen.
  set (parts := split "." host) in *. split.
  - rewrite split_join.
    + rewrite length_skipn. lia.
    + apply skipn_nonempty. lia.
    + apply Forall_skipn, split_free.
  - exists (join "." (firstn (List.length parts - 2) parts)).
    apply (join_cut "." host (List.length parts - 2)). fold parts. lia.
Qed.

Lemma registrable_short host :
  List.length (split "." host) <= 2 -> registrable host = host.
Proof.
  intros Hlen. unfold registrable. apply Nat.ltb_ge in Hlen. now rewrite Hlen.
Qed.

(** A host on no list has a registrable domain on no list. *)
Lemma registrable_unlisted host :
  noisy host = false -> ~ In (registrable host) NOISE_DOMAINS.
Proof.
  intros Hn Hin.
  assert (H : listed host); [|apply noisy_listed in H; congruence].
  exists (registrable host). split; [exact Hin|].
  destruct (Nat.ltb_spec 2 (List.length (split "." host))) as [L | L].
  - right. now apply registrable_long.
  - left. now rewrite registrable_short.
Qed.

Section Platform.
Variable newURL : string -> option URL.

Lemma isNoiseDomain_noisy url :
  isNoiseDomain newURL url
  = match newURL url with Some u => noisy (hostname u) | None => false end.
Proof. reflexivity. Qed.

Lemma getDomain_registrable url :
  getDomain newURL url
  = match newURL url with Some u => registrable (hostname u) | None => "unknown" end.
Proof. reflexivity. Qed.

(** A request is skipped as noise exactly when the host of its
    address is a listed domain or a subdomain, at any depth, of a
    listed domain; an address that does not parse is never skipped
    on this ground. *)
Theorem isNoiseDomain_subdomains (url : string) (u : URL) :
  newURL url = Some u ->
  isNoiseDomain newURL url = true
  <-> exists d, In d NOISE_DOMAINS
                /\ (hostname u = d \/ exists sub, hostname u = sub ++ "." ++ d).
Proof.
  intros Hu. rewrite isNoiseDomain_noisy, Hu. apply noisy_listed.
Qed.

(** The directory of a session file is the host name when it has at
    most two labels, and otherwise its last two labels; an address
    that does not parse goes to [unknown]. *)
Theorem getDomain_two_labels (url : string) :
  List.length (split "." (getDomain newURL url)) <= 2
  /\ (newURL url = None -> getDomain newURL url = "unknown")
  /\ (forall u, newURL url = Some u ->
        List.length (split "." (hostname u)) <= 2 ->
        getDomain newURL url = hostname u)
  /\ (forall u, newURL url = Some u ->
        2 < List.length (split "." (hostname u)) ->
        List.length (split "." (getDomain newURL url)) = 2
        /\ exists sub, hostname u = sub ++ "." ++ getDomain newURL url).
Proof.
  rewrite getDomain_registrable. split; [|split; [|split]].
  - destruct (newURL url) as [u|]; [|simpl; lia].
    destruct (Nat.ltb_spec 2 (List.length (split "." (hostname u)))) as [H | H].
    + destruct (registrable_long _ H) as [E _]. lia.
    + now rewrite registrable_short.
  - now intros ->.
  - intros u -> H. now apply registrable_short.
  - intros u -> H. now apply registrable_long.
Qed.
End Platform.
End Filters.

(* ================================================================== *)
(** * Properties of the session store *)
(* ================================================================== *)

Module Sessions.
Import JS Capture StoreFacts.

Section MapFacts.
Variable V : Type.
Implicit Types (m : list (string * V)) (k : string) (v : V).

Lemma set_set k v v' m : set k v (set k v' m) = set k v m.
Proof.
  induction m as [|[k0 v0] m IH]; simpl.
  - now rewrite String.eqb_refl.
  - destruct (String.eqb k k0) eqn:E; simpl; rewrite ?String.eqb_refl, ?E, ?IH; reflexivity.
Qed.

Lemma delete_set k v m : delete k (set k v m) = delete k m.
Proof.
  induction m as [|[k0 v0] m IH]; simpl.
  - now rewrite String.eqb_refl.
  - destruct (String.eqb k k0) eqn:E; simpl; rewrite ?String.eqb_refl, ?E, ?IH; reflexivity.
Qed.
End MapFacts.

Section Platform.
Variable newURL : string -> option URL.
Variable cfg : config.

(** The store after [storeEntry]: the entry goes last in the bucket
    of its domain. *)
Lemma storeEntry_set e s :
  capturedByDomain (storeEntry newURL e s)
  = set (getDomain newURL (url e))
        (match get (getDomain newURL (url e)) (capturedByDomain s) with
         | Some b => b
         | None => []
         end ++ [e])
        (capturedByDomain s).
Proof.
  unfold storeEntry, has. simpl.
  destruct (get (getDomain newURL (url e)) (capturedByDomain s)) eqn:E.
  - now rewrite E.
  - now rewrite get_set_same, set_set.
Qed.

(** ** Buckets, files and the counter *)

Definition bucketSound (db : string * list entry) : Prop :=
  snd db <> [] /\ forall e, In e (snd db) -> getDomain newURL (url e) = fst db.

Definition sound (s : state) : Prop :=
  Forall bucketSound (capturedByDomain s)
  /\ totalCaptured s = List.length (storedEntries s)
  /\ if exited s
     then exists now, written s = map (sessionFile cfg now) (capturedByDomain s)
     else written s = [] /\ shuttingDown s = false.

Lemma sound_init pages : sound (init pages).
Proof. repeat split; constructor. Qed.

Lemma buckets_store e s :
  Forall bucketSound (capturedByDomain s) ->
  Forall bucketSound (capturedByDomain (storeEntry newURL e s)).
Proof.
  intros H. rewrite storeEntry_set. apply Forall_forall. intros x Hx.
  rewrite Forall_forall in H.
  apply In_set in Hx as [-> | Hx]; [|now apply H].
  split; simpl.
  - destruct (get _ _); [destruct l|]; discriminate.
  - intros e' He'. apply in_app_or in He' as [He' | [<- | []]]; [|reflexivity].
    destruct (get (getDomain newURL (url e)) (capturedByDomain s)) as [b|] eqn:E;
      [|destruct He'].
    apply get_In in E. apply H in E. now apply E.
Qed.

Lemma total_store e s :
  totalCaptured s = List.length (storedEntries s) ->
  totalCaptured (storeEntry newURL e s)
  = List.length (storedEntries (storeEntry newURL e s)).
Proof.
  intros H. rewrite (Permutation_length (storeEntry_stored newURL e s)).
  rewrite length_app. simpl. now rewrite <- H.
Qed.

Lemma sound_store e s : exited s = false -> sound s -> sound (storeEntry newURL e s).
Proof.
  intros Hex (H1 & H2 & H3). split; [now apply buckets_store|].
  split; [now apply total_store|].
  change (exited (storeEntry newURL e s)) with (exited s).
  change (written (storeEntry newURL e s)) with (written s).
  change (shuttingDown (storeEntry newURL e s)) with (shuttingDown s).
  rewrite Hex in *. exact H3.
Qed.

Lemma sound_flush es : forall s,
  Forall bucketSound (capturedByDomain s) ->
  totalCaptured s = List.length (storedEntries s) ->
  Forall bucketSound (capturedByDomain (flush newURL es s))
  /\ totalCaptured (flush newURL es s) = List.length (storedEntries (flush newURL es s)).
Proof.
  induction es as [|[k e] es IH]; intros s H1 H2; simpl; [auto|].
  apply IH; [now apply buckets_store | now apply total_store].
Qed.

Lemma sound_shutdown now s : exited s = false -> sound s -> sound (shutdown newURL cfg now s).
Proof.
  intros Hex (H1 & H2 & H3). rewrite Hex in H3. destruct H3 as [Hw Hsd].
  rewrite shutdown_runs by exact Hsd.
  destruct (sound_flush (pendingRequests s) s H1 H2) as [F1 F2].
  split; [exact F1|]. split; [exact F2|]. simpl.
  exists now. now rewrite Hw.
Qed.

Lemma sound_same s s' :
  capturedByDomain s' = capturedByDomain s -> totalCaptured s' = totalCaptured s ->
  written s' = written s -> shuttingDown s' = shuttingDown s -> exited s' = exited s ->
  sound s -> sound s'.
Proof.
  unfold sound, storedEntries. intros -> -> -> -> ->. auto.
Qed.

Lemma sound_step s ev : sound s -> sound (step newURL cfg s ev).
Proof.
  intros H. unfold step. destruct (exited s) eqn:Hex; [exact H|].
  assert (Hsame : forall s', capturedByDomain s' = capturedByDomain s ->
                             totalCaptured s' = totalCaptured s ->
                             written s' = written s ->
                             shuttingDown s' = shuttingDown s ->
                             exited s' = exited s -> sound s').
  { intros s' E1 E2 E3 E4 E5. now apply (sound_same s). }
  destruct ev as [now id m u hs pd ty | id st hs | id | id txt | call body | call
                 | now | now | now].
  - destruct (_ && _); [exact H|].
    destruct (isNoiseDomain newURL u); [exact H|].
    destruct (isStaticAsset newURL u); [exact H|]. now apply Hsame.
  - destruct (get id (pendingRequests s)); [|exact H]. now apply Hsame.
  - destruct (get id (pendingRequests s)); [|exact H]. now apply Hsame.
  - destruct (get id (pendingRequests s)); [|exact H].
    apply sound_store; [first [exact Hex | reflexivity]|]. now apply Hsame.
  - destruct (takeFetch call (bodyFetches s)) as [[f rest]|]; [|exact H].
    apply sound_store; [first [exact Hex | reflexivity]|]. now apply Hsame.
  - destruct (takeFetch call (bodyFetches s)) as [[f rest]|]; [|exact H].
    apply sound_store; [first [exact Hex | reflexivity]|]. now apply Hsame.
  - destruct (timerArmed s); [|exact H]. apply sound_shutdown; [first [exact Hex | reflexivity]|]. now apply Hsame.
  - apply sound_shutdown; [first [exact Hex | reflexivity]|]. now apply Hsame.
  - apply sound_shutdown; [first [exact Hex | reflexivity]|]. now apply Hsame.
Qed.

Lemma sound_run evs : forall s, sound s -> sound (runEvents newURL cfg evs s).
Proof.
  induction evs as [|ev evs IH]; intros s H; simpl; [exact H|].
  apply IH, sound_step, H.
Qed.

Lemma writtenEntries_files now (l : list (string * list entry)) :
  flat_map (fun f => requests (snd f)) (map (sessionFile cfg now) l) = flat_map snd l.
Proof.
  induction l as [|[d b] l IH]; simpl; [reflexivity | now rewrite IH].
Qed.

(** What a written file holds. *)
Lemma written_sound s d stem c :
  sound s -> In (d, stem, c) (written s) ->
  domain c = d /\ requests c <> []
  /\ (forall e, In e (requests c) -> getDomain newURL (url e) = d)
  /\ duration c = DURATION cfg /\ cdpPort c = CDP_PORT cfg.
Proof.
  intros (H1 & H2 & H3) Hin. rewrite Forall_forall in H1.
  destruct (exited s); [|destruct H3 as [Hw _]; rewrite Hw in Hin; destruct Hin].
  destruct H3 as (now & Hw). rewrite Hw in Hin.
  apply in_map_iff in Hin as ([d' b] & E & Hb).
  unfold sessionFile in E. simpl in E. injection E as -> _ <-.
  destruct (H1 _ Hb) as [Hne Hdom]. simpl in *. auto.
Qed.

(** Every session file holds the requests of one registrable domain:
    the directory, the [domain] field and the domain of each request
    in it agree, no file is empty, the run's options are recorded in
    it, and the count the final log line reports is the number of
    records written. *)
Theorem session_files_by_domain (pages : nat) (evs : list event) :
  let s := runEvents newURL cfg evs (init pages) in
  (forall d stem c,
      In (d, stem, c) (written s) ->
      domain c = d /\ requests c <> []
      /\ (forall e, In e (requests c) -> getDomain newURL (url e) = d)
      /\ duration c = DURATION cfg /\ cdpPort c = CDP_PORT cfg)
  /\ totalCaptured s = List.length (storedEntries s)
  /\ (exited s = true -> writtenEntries s = storedEntries s)
  /\ (exited s = false -> written s = []).
Proof.
  intros s.
  assert (H : sound s) by apply sound_run, sound_init.
  split; [intros d stem c; now apply written_sound|].
  destruct H as (H1 & H2 & H3).
  split; [exact H2 | split].
  - intros Hex. rewrite Hex in H3. destruct H3 as (now & Hw).
    unfold writtenEntries, storedEntries. rewrite Hw. apply writtenEntries_files.
  - intros Hex. rewrite Hex in H3. apply H3.
Qed.

(** ** What holds of every record *)

(** The request passes the three filters of the request-sent handler. *)
Definition tracked (u type : string) : Prop :=
  (type = "XHR"%string \/ type = "Fetch"%string)
  /\ isNoiseDomain newURL u = false /\ isStaticAsset newURL u = false.

(** The record of a request just sent. *)
Definition sentEntry (now m u : string) (hs : list (string * string))
           (pd : option string) (type : string) : entry :=
  mkEntry now m u hs (redactBody cfg (truthy pd)) type None [] None.

Section Everywhere.
(** A property of records that holds of each record when it is made
    and that the later updates of a record keep. *)
Variable P : entry -> Prop.
Hypothesis P_sent : forall now m u hs pd ty,
  tracked u ty -> P (sentEntry now m u hs pd ty).
Hypothesis P_status : forall st hs e, P e -> P (withStatus st hs e).
Hypothesis P_body : forall b e, P e -> P (withBody b e).

Definition everywhere (s : state) : Prop :=
  (forall k e, In (k, e) (pendingRequests s) -> P e)
  /\ (forall f, In f (bodyFetches s) -> P (fetchEntry f))
  /\ (forall e, In e (storedEntries s) -> P e)
  /\ (forall e, In e (writtenEntries s) -> P e).

Lemma everywhere_init pages : everywhere (init pages).
Proof. repeat split; intros; contradiction. Qed.

Lemma everywhere_store e s : P e -> everywhere s -> everywhere (storeEntry newURL e s).
Proof.
  intros He (H1 & H2 & H3 & H4). repeat split; try assumption.
  intros e' Hin.
  apply (Permutation_in _ (storeEntry_stored newURL e s)) in Hin.
  apply in_app_or in Hin as [Hin | [<- | []]]; auto.
Qed.

Lemma everywhere_flush es : forall s,
  (forall k e, In (k, e) es -> P e) -> everywhere s -> everywhere (flush newURL es s).
Proof.
  induction es as [|[k e] es IH]; intros s Hes H; simpl; [exact H|].
  apply IH.
  - intros k' e' Hin. apply (Hes k' e'). now right.
  - apply everywhere_store; [|exact H]. apply (Hes k e). now left.
Qed.

Lemma everywhere_shutdown now s : everywhere s -> everywhere (shutdown newURL cfg now s).
Proof.
  intros H. destruct (shuttingDown s) eqn:Hsd.
  - now rewrite shutdown_again.
  - rewrite shutdown_runs by exact Hsd.
    pose proof (everywhere_flush (pendingRequests s) s (proj1 H) H) as (F1 & F2 & F3 & F4).
    destruct H as (H1 & H2 & H3 & H4).
    split; [intros k e []|]. split; [exact H2|]. split; [exact F3|].
    unfold writtenEntries. simpl. intros e Hin.
    rewrite flat_map_app in Hin. apply in_app_or in Hin as [Hin | Hin].
    + now apply H4.
    + rewrite writtenEntries_files in Hin. now apply F3.
Qed.

Lemma everywhere_step s ev : everywhere s -> everywhere (step newURL cfg s ev).
Proof.
  intros H. unfold step. destruct (exited s) eqn:Hex; [exact H|].
  pose proof H as (H1 & H2 & H3 & H4).
  destruct ev as [now id m u hs pd ty | id st hs | id | id txt | call body | call
                 | now | now | now].
  - destruct (negb (String.eqb ty "XHR") && negb (String.eqb ty "Fetch")) eqn:Ety;
      [exact H|].
    destruct (isNoiseDomain newURL u) eqn:En; [exact H|].
    destruct (isStaticAsset newURL u) eqn:Es; [exact H|].
    split; [|repeat split; assumption]. simpl.
    intros k e Hin. apply In_set in Hin as [E | Hin]; [|now apply (H1 k e)].
    injection E as -> ->. apply P_sent. split; [|now split].
    apply andb_false_iff in Ety as [E | E]; apply negb_false_iff, String.eqb_eq in E; auto.
  - destruct (get id (pendingRequests s)) as [e0|] eqn:G; [|exact H].
    split; [|repeat split; assumption]. simpl.
    intros k e Hin. apply In_set in Hin as [E | Hin]; [|now apply (H1 k e)].
    injection E as -> ->. apply get_In in G. apply P_status. exact (H1 _ _ G).
  - destruct (get id (pendingRequests s)) as [e0|] eqn:G; [|exact H].
    apply get_In in G.
    split; [|split; [|split; assumption]]; simpl.
    + intros k e Hin. apply In_delete in Hin. now apply (H1 k e).
    + intros f Hin. apply in_app_or in Hin as [Hin | [<- | []]]; [now apply H2|].
      exact (H1 _ _ G).
  - destruct (get id (pendingRequests s)) as [e0|] eqn:G; [|exact H].
    apply get_In in G. apply everywhere_store.
    + apply P_body, P_status. exact (H1 _ _ G).
    + split; [|repeat split; assumption]. simpl.
      intros k e Hin. apply In_delete in Hin. now apply (H1 k e).
  - destruct (takeFetch call (bodyFetches s)) as [[f rest]|] eqn:T; [|exact H].
    apply In_takeFetch in T as (_ & Hf & Hrest). apply everywhere_store.
    + apply P_body. exact (H2 f Hf).
    + split; [exact H1|]. split; [|split; assumption]. simpl. auto.
  - destruct (takeFetch call (bodyFetches s)) as [[f rest]|] eqn:T; [|exact H].
    apply In_takeFetch in T as (_ & Hf & Hrest). apply everywhere_store.
    + exact (H2 f Hf).
    + split; [exact H1|]. split; [|split; assumption]. simpl. auto.
  - destruct (timerArmed s); [|exact H]. apply everywhere_shutdown. exact H.
  - apply everywhere_shutdown. exact H.
  - apply everywhere_shutdown. exact H.
Qed.

Lemma everywhere_run evs : forall s,
  everywhere s -> everywhere (runEvents newURL cfg evs s).
Proof.
  induction evs as [|ev evs IH]; intros s H; simpl; [exact H|].
  apply IH, everywhere_step, H.
Qed.
End Everywhere.

(** ** Redaction *)

Definition notice : string := "[REDACTED — sensitive data detected]"%string.

Definition sensitive (b : string) : bool := RegExp.testS true SENSITIVE_PATTERNS b.

Lemma notice_clear : sensitive notice = false.
Proof. vm_compute. reflexivity. Qed.

(** What [redactBody] returns under [--redact] never matches the
    sensitive patterns. *)
Lemma redactBody_clear body out :
  REDACT cfg = true -> redactBody cfg body = Some out -> sensitive out = false.
Proof.
  intros Hr. unfold redactBody. rewrite Hr. simpl.
  destruct (truthy body) as [b|] eqn:E.
  - destruct body as [[|c b']|]; simpl in E; try discriminate.
    injection E as <-.
    destruct (RegExp.testS true SENSITIVE_PATTERNS (String c b')) eqn:T.
    + intros H. injection H as <-. exact notice_clear.
    + intros H. injection H as <-. exact T.
  - destruct body as [[|c b']|]; simpl in E; try discriminate.
    intros H. injection H as <-. reflexivity.
Qed.

Definition clear (e : entry) : Prop :=
  forall b, requestBody e = Some b -> sensitive b = false.

(** Under [--redact] no request body that matches the sensitive
    patterns reaches a session file, and a redacted body is redacted
    no further; without the option request bodies are kept as sent. *)
Theorem redact_request_bodies (pages : nat) (evs : list event) :
  (REDACT cfg = true ->
   forall e b,
     In e (writtenEntries (runEvents newURL cfg evs (init pages))) ->
     requestBody e = Some b -> sensitive b = false)
  /\ (REDACT cfg = true ->
      forall body, redactBody cfg (redactBody cfg body) = redactBody cfg body)
  /\ (REDACT cfg = true ->
      forall b, sensitive b = true -> redactBody cfg (Some b) = Some notice)
  /\ (REDACT cfg = false -> forall body, redactBody cfg body = body).
Proof.
  split; [|split; [|split]].
  - intros Hr e b Hin Hb.
    assert (H : everywhere clear (runEvents newURL cfg evs (init pages))).
    { apply everywhere_run; [| | |apply everywhere_init].
      - intros now m u hs pd ty _ body Hbody. simpl in Hbody.
        now apply (redactBody_clear (truthy pd) body).
      - intros st hs e0 H0. exact H0.
      - intros b0 e0 H0. exact H0. }
    destruct H as (_ & _ & _ & H). exact (H e Hin b Hb).
  - intros Hr body.
    destruct (redactBody cfg body) as [out|] eqn:E; [|reflexivity].
    pose proof (redactBody_clear body out Hr E) as Hc.
    unfold redactBody. rewrite Hr. simpl.
    destruct out as [|c o]; [reflexivity|]. simpl.
    unfold sensitive in Hc. now rewrite Hc.
  - intros Hr b Hs. unfold redactBody. rewrite Hr.
    destruct b as [|c b]; [discriminate Hs|]. simpl.
    unfold sensitive in Hs. now rewrite Hs.
  - intros Hr body. unfold redactBody. rewrite Hr.
    destruct (truthy body); reflexivity.
Qed.

(** ** What the filters keep out *)

Lemma unknown_unlisted : ~ In "unknown"%string NOISE_DOMAINS.
Proof.
  intros H. apply Filters.isNoise_In in H. vm_compute in H. discriminate H.
Qed.

(** Only what passed the filters is written: every record of a
    session file is of an XHR or Fetch request whose address is
    neither on a noise domain nor a static asset, and no session file
    is written to the directory of a listed noise domain. *)
Theorem filters_hold (pages : nat) (evs : list event) :
  let s := runEvents newURL cfg evs (init pages) in
  (forall e, In e (writtenEntries s) ->
     (resourceType e = "XHR"%string \/ resourceType e = "Fetch"%string)
     /\ isNoiseDomain newURL (url e) = false
     /\ isStaticAsset newURL (url e) = false)
  /\ (forall d stem c, In (d, stem, c) (written s) -> ~ In d NOISE_DOMAINS).
Proof.
  intros s.
  assert (Hall : forall e, In e (writtenEntries s) -> tracked (url e) (resourceType e)).
  { assert (H : everywhere (fun e => tracked (url e) (resourceType e)) s).
    { apply everywhere_run; [| | |apply everywhere_init].
      - intros now m u hs pd ty H. exact H.
      - intros st hs e H. exact H.
      - intros b e H. exact H. }
    apply H. }
  split; [exact Hall|].
  intros d stem c Hin.
  assert (Hs : sound s) by apply sound_run, sound_init.
  destruct (written_sound s d stem c Hs Hin) as (_ & Hne & Hdom & _).
  destruct (requests c) as [|e es] eqn:E; [congruence|].
  assert (He : In e (writtenEntries s)).
  { unfold writtenEntries. apply in_flat_map. exists (d, stem, c). split; [exact Hin|].
    simpl. rewrite E. now left. }
  destruct (Hall e He) as (_ & Hn & _).
  rewrite <- (Hdom e (or_introl eq_refl)), Filters.getDomain_registrable.
  rewrite Filters.isNoiseDomain_noisy in Hn.
  destruct (newURL (url e)) as [u|]; [|exact unknown_unlisted].
  now apply Filters.registrable_unlisted.
Qed.
End Platform.
End Sessions.

(* ================================================================== *)
(** * The life of one exchange *)
(* ================================================================== *)

Module Exchanges.
Import JS Capture StoreFacts Sessions.

(** A state with another in-flight map, body-fetch list and call
    counter. *)
Definition tracking (m : list (string * entry)) (fs : list fetch) (id : nat)
           (s : state) : state :=
  mkState m fs id (capturedByDomain s) (totalCaptured s) (timerArmed s)
          (shuttingDown s) (written s) (exited s).

(** The calls awaiting a reply were numbered by the counter. *)
Definition numbered (s : state) : Prop :=
  Forall (fun f => fetchCall f <= cdpId s) (bodyFetches s)
  /\ NoDup (map fetchCall (bodyFetches s)).

Lemma takeFetch_last call fs f :
  Forall (fun g => fetchCall g <> call) fs -> fetchCall f = call ->
  takeFetch call (fs ++ [f]) = Some (f, fs).
Proof.
  intros H Hf. induction H as [|g fs Hg _ IH]; simpl.
  - apply Nat.eqb_eq in Hf. now rewrite Hf.
  - apply Nat.eqb_neq in Hg. now rewrite Hg, IH.
Qed.

Lemma takeFetch_map call fs f rest :
  takeFetch call fs = Some (f, rest) ->
  exists pre post, fs = pre ++ f :: post /\ rest = pre ++ post.
Proof.
  revert f rest. induction fs as [|g fs IH]; simpl; intros f rest; [discriminate|].
  destruct (fetchCall g =? call).
  - intros H. injection H as <- <-. now exists [], fs.
  - destruct (takeFetch call fs) as [[f' rest']|]; [|discriminate].
    intros H. injection H as <- <-.
    destruct (IH f' rest' eq_refl) as (pre & post & -> & ->).
    now exists (g :: pre), post.
Qed.

Section Platform.
Variable newURL : string -> option URL.
Variable cfg : config.

Lemma numbered_rest s rest f call :
  numbered s -> takeFetch call (bodyFetches s) = Some (f, rest) ->
  Forall (fun f => fetchCall f <= cdpId s) rest /\ NoDup (map fetchCall rest).
Proof.
  intros [H1 H2] T. apply takeFetch_map in T as (pre & post & E & ->).
  rewrite E in H1, H2. split.
  - apply Forall_app in H1 as [Hp Hq]. inversion Hq; subst.
    apply Forall_app. auto.
  - rewrite map_app in *. simpl in H2. now apply NoDup_remove_1 in H2.
Qed.

Lemma numbered_flush es : forall s,
  bodyFetches (flush newURL es s) = bodyFetches s
  /\ cdpId (flush newURL es s) = cdpId s.
Proof.
  induction es as [|[k e] es IH]; intros s; simpl; [auto|].
  destruct (IH (storeEntry newURL e s)) as [-> ->]. auto.
Qed.

Lemma numbered_shutdown now s : numbered s -> numbered (shutdown newURL cfg now s).
Proof.
  intros H. destruct (shuttingDown s) eqn:Hsd.
  - now rewrite shutdown_again.
  - rewrite shutdown_runs by exact Hsd. unfold numbered. simpl.
    destruct (numbered_flush (pendingRequests s) s) as [_ ->]. exact H.
Qed.

Lemma numbered_step s ev : numbered s -> numbered (step newURL cfg s ev).
Proof.
  intros H. unfold step. destruct (exited s) eqn:Hex; [exact H|].
  destruct ev as [now id m u hs pd ty | id st hs | id | id txt | call body | call
                 | now | now | now].
  - destruct (_ && _); [exact H|].
    destruct (isNoiseDomain newURL u); [exact H|].
    destruct (isStaticAsset newURL u); exact H.
  - destruct (get id (pendingRequests s)); exact H.
  - destruct (get id (pendingRequests s)); [|exact H].
    destruct H as [H1 H2]. split; simpl.
    + apply Forall_app. split.
      * eapply Forall_impl; [|exact H1]. simpl. intros; lia.
      * constructor; [simpl; lia | constructor].
    + rewrite map_app. simpl.
      apply NoDup_rev in H2. rewrite <- (rev_involutive (_ ++ _)).
      apply NoDup_rev. rewrite rev_app_distr. simpl. constructor; [|exact H2].
      rewrite <- in_rev. intros Hin. apply in_map_iff in Hin as (f & Ef & Hf).
      rewrite Forall_forall in H1. apply H1 in Hf. lia.
  - destruct (get id (pendingRequests s)); exact H.
  - destruct (takeFetch call (bodyFetches s)) as [[f rest]|] eqn:T; [|exact H].
    exact (numbered_rest s rest f call H T).
  - destruct (takeFetch call (bodyFetches s)) as [[f rest]|] eqn:T; [|exact H].
    exact (numbered_rest s rest f call H T).
  - destruct (timerArmed s); [|exact H]. now apply numbered_shutdown.
  - now apply numbered_shutdown.
  - now apply numbered_shutdown.
Qed.

Lemma numbered_run evs : forall s, numbered s -> numbered (runEvents newURL cfg evs s).
Proof.
  induction evs as [|ev evs IH]; intros s H; simpl; [exact H|].
  apply IH, numbered_step, H.
Qed.

Lemma numbered_init pages : numbered (init pages).
Proof. split; constructor. Qed.

Lemma step_sent s now id m u hs pd ty :
  exited s = false -> tracked newURL u ty ->
  step newURL cfg s (RequestWillBeSent now id m u hs pd ty)
  = tracking (set id (sentEntry cfg now m u hs pd ty) (pendingRequests s))
             (bodyFetches s) (cdpId s) s.
Proof.
  intros Hex (Hty & Hn & Ha). unfold step. rewrite Hex, Hn, Ha.
  destruct Hty as [-> | ->]; reflexivity.
Qed.

(** An exchange that runs to its end, whatever was going on before:
    the request is sent and tracked, a response arrives, and then
    either the loading finishes and the body fetch is answered, or it
    finishes and the fetch fails, or the loading fails.  One entry is
    stored, in the bucket of the request's domain, with the request as
    it was sent (its body redacted on demand), the status and headers
    of the response, and the response body cut to the cap, absent, or
    replaced by the failure text. *)
Theorem exchange_stored (pages : nat) (evs : list event)
        (now id m u : string) (hs : list (string * string)) (pd : option string)
        (ty : string) (st : nat) (rh : list (string * string)) :
  let s := runEvents newURL cfg evs (init pages) in
  let sent := RequestWillBeSent now id m u hs pd ty in
  let answered := withStatus (Some st) rh (sentEntry cfg now m u hs pd ty) in
  let after n := tracking (delete id (pendingRequests s)) (bodyFetches s) n s in
  exited s = false -> tracked newURL u ty ->
  (forall body,
      runEvents newURL cfg
                [sent; ResponseReceived id st rh; LoadingFinished id;
                 BodyResolved (cdpId s + 1) body] s
      = storeEntry newURL (withBody (truncateBody (truthy body)) answered)
                   (after (cdpId s + 1)))
  /\ runEvents newURL cfg
               [sent; ResponseReceived id st rh; LoadingFinished id;
                BodyRejected (cdpId s + 1)] s
     = storeEntry newURL answered (after (cdpId s + 1))
  /\ (forall txt,
         runEvents newURL cfg
                   [sent; ResponseReceived id st rh; LoadingFailed id txt] s
         = storeEntry newURL
                      (withBody (Some ("[failed: "
                                       ++ match truthy txt with
                                          | Some t => t
                                          | None => "unknown"
                                          end ++ "]")%string)
                                (withStatus (Some 0) rh answered))
                      (after (cdpId s))).
Proof.
  intros s sent answered after Hex Hadm.
  assert (Hnum : numbered s) by apply numbered_run, numbered_init.
  set (s1 := tracking (set id (sentEntry cfg now m u hs pd ty) (pendingRequests s))
                      (bodyFetches s) (cdpId s) s).
  set (s2 := tracking (set id answered (pendingRequests s)) (bodyFetches s) (cdpId s) s).
  assert (E1 : step newURL cfg s sent = s1) by now apply step_sent.
  assert (E2 : step newURL cfg s1 (ResponseReceived id st rh) = s2).
  { unfold step. simpl. rewrite Hex, get_set_same.
    unfold s2, tracking, setPending. simpl. rewrite set_set, ?Hex. reflexivity. }
  assert (E3 : step newURL cfg s2 (LoadingFinished id)
               = tracking (delete id (pendingRequests s))
                          (bodyFetches s ++ [mkFetch (cdpId s + 1) id answered])
                          (cdpId s + 1) s).
  { unfold step. simpl. rewrite Hex, get_set_same.
    unfold tracking. simpl. rewrite delete_set, ?Hex. reflexivity. }
  assert (Htake : takeFetch (cdpId s + 1)
                            (bodyFetches s ++ [mkFetch (cdpId s + 1) id answered])
                  = Some (mkFetch (cdpId s + 1) id answered, bodyFetches s)).
  { apply takeFetch_last; [|reflexivity].
    eapply Forall_impl; [|exact (proj1 Hnum)]. simpl. intros; lia. }
  split; [|split].
  - intros body. unfold runEvents. simpl fold_left. rewrite E1, E2, E3.
    unfold step. simpl. rewrite Hex, Htake. unfold after, tracking. rewrite ?Hex. reflexivity.
  - unfold runEvents. simpl fold_left. rewrite E1, E2, E3.
    unfold step. simpl. rewrite Hex, Htake. unfold after, tracking. rewrite ?Hex. reflexivity.
  - intros txt. unfold runEvents. simpl fold_left. rewrite E1, E2.
    unfold step. simpl. rewrite Hex, get_set_same.
    unfold after, tracking, setPending. simpl. rewrite delete_set, ?Hex. reflexivity.
Qed.

(** A reply to a body fetch resolves the one call it answers: replies
    with a number no outstanding call carries, and whatever arrives
    for a request that is not in flight, change nothing. *)
Theorem strays_ignored (pages : nat) (evs : list event) :
  let s := runEvents newURL cfg evs (init pages) in
  NoDup (map fetchCall (bodyFetches s))
  /\ (forall f, In f (bodyFetches s) -> fetchCall f <= cdpId s)
  /\ (forall call body,
         ~ In call (map fetchCall (bodyFetches s)) ->
         step newURL cfg s (BodyResolved call body) = s
         /\ step newURL cfg s (BodyRejected call) = s)
  /\ (forall id st rh txt,
         get id (pendingRequests s) = None ->
         step newURL cfg s (ResponseReceived id st rh) = s
         /\ step newURL cfg s (LoadingFinished id) = s
         /\ step newURL cfg s (LoadingFailed id txt) = s).
Proof.
  intros s.
  assert (Hnum : numbered s) by apply numbered_run, numbered_init.
  destruct Hnum as [H1 H2]. split; [exact H2|].
  split; [now apply Forall_forall|]. split.
  - intros call body Hnot.
    assert (T : takeFetch call (bodyFetches s) = None).
    { destruct (takeFetch call (bodyFetches s)) as [[f rest]|] eqn:T; [|reflexivity].
      apply In_takeFetch in T as (E & Hin & _). exfalso. apply Hnot.
      rewrite <- E. now apply in_map. }
    unfold step. rewrite T. destruct (exited s); auto.
  - intros id st rh txt G. unfold step. rewrite G. destruct (exited s); auto.
Qed.
End Platform.
End Exchanges.

(* ================================================================== *)
(** * Properties of the patterns outside [normalizePath] *)
(* ================================================================== *)

Module PatternFacts.
Import JS RegExp RegExpFacts StringFacts.

Lemma chars_app a b : list_ascii_of_string (a ++ b)%string = list_ascii_of_string a ++ list_ascii_of_string b.
Proof. induction a as [|c a IH]; simpl; [reflexivity | now rewrite IH]. Qed.

Lemma string_app a b : string_of_list_ascii (a ++ b) = (string_of_list_ascii a ++ string_of_list_ascii b)%string.
Proof. induction a as [|c a IH]; simpl; [reflexivity | now rewrite IH]. Qed.

Lemma chars_inj a b : list_ascii_of_string a = list_ascii_of_string b -> a = b.
Proof.
  intros H. apply (f_equal string_of_list_ascii) in H.
  now rewrite !string_of_list_ascii_of_string in H.
Qed.

(** A property of characters that holds of each of the 256. *)
Lemma ascii_all (P : ascii -> bool) :
  forallb (fun n => P (ascii_of_nat n)) (seq 0 256) = true -> forall c, P c = true.
Proof.
  intros H c. rewrite forallb_forall in H.
  rewrite <- (ascii_nat_embedding c). apply H. apply in_seq.
  pose proof (nat_ascii_bounded c). lia.
Qed.

Definition lowerOrDigit (x : ascii) : bool := between "a" "z" x || between "0" "9" x.

Definition lowerDigits : list ascii :=
  list_ascii_of_string "abcdefghijklmnopqrstuvwxyz0123456789".

Lemma lowerOrDigit_In x : lowerOrDigit x = true -> In x lowerDigits.
Proof.
  intros Hx.
  assert (H : forall x, implb (lowerOrDigit x) (existsb (Ascii.eqb x) lowerDigits) = true).
  { apply ascii_all. vm_compute. reflexivity. }
  specialize (H x). rewrite Hx in H. cbn [implb] in H.
  apply existsb_exists in H as (y & Hy & E). apply Ascii.eqb_eq in E. now subst.
Qed.

(** Matching a lower-case letter or a digit without regard to case
    is comparing with the lower-cased character. *)
Lemma fold_lower x c :
  lowerOrDigit x = true ->
  Ascii.eqb (toUpper x) (toUpper c) = Ascii.eqb (toLower c) x.
Proof.
  intros Hx. apply lowerOrDigit_In in Hx.
  assert (H : forall c,
             forallb (fun x => Bool.eqb (Ascii.eqb (toUpper x) (toUpper c))
                                        (Ascii.eqb (toLower c) x)) lowerDigits = true).
  { apply ascii_all. vm_compute. reflexivity. }
  specialize (H c). rewrite forallb_forall in H.
  now apply Bool.eqb_prop, H.
Qed.

(** Matching a full stop or a question mark, with or without regard
    to case, is comparing with it. *)
Lemma fold_mark x c :
  In x ["."; "?"]%char -> Ascii.eqb (toUpper x) (toUpper c) = Ascii.eqb x c.
Proof.
  intros Hx.
  assert (H : forall c,
             forallb (fun x => Bool.eqb (Ascii.eqb (toUpper x) (toUpper c)) (Ascii.eqb x c))
                     ["."; "?"]%char = true).
  { apply ascii_all. vm_compute. reflexivity. }
  specialize (H c). rewrite forallb_forall in H.
  now apply Bool.eqb_prop, H.
Qed.

(** ** [test] *)

Lemma test_iff icase r s :
  test icase r s = true
  <-> exists pre w rest, s = pre ++ w ++ rest /\ Matches icase r w rest.
Proof.
  split.
  - induction s as [|c s IH]; simpl.
    + destruct (matchAt icase r []) as [rest|] eqn:E; [|discriminate].
      intros _. apply matchAt_sound in E as (w & E & M). now exists [], w, rest.
    + destruct (matchAt icase r (c :: s)) as [rest|] eqn:E.
      * intros _. apply matchAt_sound in E as (w & E & M). now exists [], w, rest.
      * intros H. destruct (IH H) as (pre & w & rest & -> & M).
        now exists (c :: pre), w, rest.
  - intros (pre & w & rest & -> & M). apply matchAt_complete in M.
    induction pre as [|c pre IH]; simpl.
    + destruct (w ++ rest) as [|c t]; simpl;
        destruct (matchAt icase r _); congruence.
    + destruct (matchAt icase r (c :: pre ++ w ++ rest)); [reflexivity | exact IH].
Qed.

(** ** Words and alternatives *)

Lemma Matches_word icase e : forall w rest,
  Matches icase (word e) w rest
  <-> Forall2 (fun x c => matches1 icase (Lit x) c = true) (list_ascii_of_string e) w.
Proof.
  induction e as [|x e IH]; intros w rest.
  - simpl. split; [intros ->; constructor | now inversion 1].
  - destruct e as [|y e].
    + simpl. split.
      * intros (c & -> & H). repeat constructor. exact H.
      * intros H. inversion H as [|? c ? t Hc Ht]; subst. inversion Ht; subst.
        now exists c.
    + change (word (String x (String y e))) with (Seq (lit x) (word (String y e))).
      change (list_ascii_of_string (String x (String y e))) with (x :: list_ascii_of_string (String y e)).
      split.
      * intros (w1 & w2 & -> & (c & -> & Hc) & M). apply IH in M.
        now constructor.
      * intros H. inversion H as [|? c ? t Hc Ht]; subst.
        exists [c], t. split; [reflexivity|]. split; [now exists c | now apply IH].
Qed.

Lemma Matches_alts icase rs : rs <> [] -> forall w rest,
  Matches icase (alts rs) w rest <-> exists r, In r rs /\ Matches icase r w rest.
Proof.
  intros Hne w rest. induction rs as [|r rs IH]; [congruence|].
  destruct rs as [|r' rs].
  - simpl. split; [intros H; eauto | intros (r0 & [<- | []] & H); exact H].
  - change (alts (r :: r' :: rs)) with (Alt r (alts (r' :: rs))).
    simpl Matches. rewrite IH by discriminate. split.
    + intros [H | (r0 & Hin & H)].
      * exists r. split; [now left | exact H].
      * exists r0. split; [now right | exact H].
    + intros (r0 & [<- | Hin] & H); [now left | right; eauto].
Qed.

(** A word matched exactly is the word. *)
Lemma word_exact e w rest : Matches false (word e) w rest <-> w = list_ascii_of_string e.
Proof.
  rewrite Matches_word. generalize (list_ascii_of_string e). intros l. split.
  - induction 1 as [|x c l w Hc _ IH]; [reflexivity|].
    simpl in Hc. apply Ascii.eqb_eq in Hc. now subst.
  - intros ->. induction l; constructor; [apply Ascii.eqb_refl | assumption].
Qed.

(** A word of lower-case letters and digits matched without regard
    to case is the word lower-cased. *)
Lemma chars_toLowerCase s : list_ascii_of_string (toLowerCase s) = map toLower (list_ascii_of_string s).
Proof. induction s as [|c s IH]; simpl; [reflexivity | now rewrite IH]. Qed.

Lemma word_folded e w rest :
  forallb lowerOrDigit (list_ascii_of_string e) = true ->
  Matches true (word e) w rest <-> toLowerCase (string_of_list_ascii w) = e.
Proof.
  intros He. rewrite Matches_word.
  rewrite <- (string_of_list_ascii_of_string e) at 2.
  revert He. generalize (list_ascii_of_string e). intros l He. split.
  - intros H. induction H as [|x c l w Hc _ IH]; [reflexivity|].
    simpl in He. apply andb_prop in He as [Hx Hl].
    simpl in Hc. rewrite fold_lower in Hc by exact Hx.
    apply Ascii.eqb_eq in Hc. simpl. now rewrite Hc, IH.
  - intros H. apply (f_equal list_ascii_of_string) in H.
    rewrite chars_toLowerCase, !list_ascii_of_string_of_list_ascii in H. subst l.
    induction w as [|c w IH]; constructor.
    + simpl in He. apply andb_prop in He as [Hx _].
      simpl. rewrite fold_lower by exact Hx. apply Ascii.eqb_refl.
    + apply IH. simpl in He. now apply andb_prop in He.
Qed.

(** ** [replace] *)

Lemma replaceFirst_clean icase r by_ s :
  clean (matchAt icase r) s -> replaceFirst icase r by_ s = s.
Proof.
  induction s as [|c s IH]; intros H; simpl.
  - now rewrite (H [] (suffix_refl [])).
  - rewrite (H (c :: s) (suffix_refl _)). f_equal. apply IH.
    eapply clean_suffix; [exact H | apply suffix_cons, suffix_refl].
Qed.

(** The first match is the leftmost. *)
Lemma replaceFirst_at icase r by_ pre s rest :
  (forall p1 c p2, pre = p1 ++ c :: p2 -> matchAt icase r (c :: p2 ++ s) = None) ->
  matchAt icase r s = Some rest ->
  replaceFirst icase r by_ (pre ++ s) = pre ++ by_ ++ rest.
Proof.
  intros Hpre Hs. induction pre as [|c pre IH]; simpl.
  - destruct s; simpl; now rewrite Hs.
  - rewrite (Hpre [] c pre eq_refl). f_equal. apply IH.
    intros p1 c' p2 E. apply (Hpre (c :: p1) c' p2). now rewrite E.
Qed.

(** Deleting the first match only takes characters away. *)
Lemma replaceFirst_In icase r s x :
  In x (replaceFirst icase r [] s) -> In x s.
Proof.
  induction s as [|c s IH]; simpl.
  - destruct (matchAt icase r []) as [rest|] eqn:E; [|tauto].
    apply matchAt_sound in E as (w & E & _).
    symmetry in E. apply app_eq_nil in E as [_ ->]. tauto.
  - destruct (matchAt icase r (c :: s)) as [rest|] eqn:E.
    + apply matchAt_sound in E as (w & E & _). simpl. intros H.
      change (In x (c :: s)). rewrite E. apply in_or_app. now right.
    + simpl. intros [H | H]; auto.
Qed.

(** Replacing one character by another, everywhere. *)
Definition swap (c d x : ascii) : ascii := if Ascii.eqb c x then d else x.

Lemma lit_consumes c : forall s rest,
  matchAt false (lit c) s = Some rest -> exists x w, s = x :: w ++ rest.
Proof. apply matchAt_consumes. simpl. lia. Qed.

Lemma replaceAll_lit c d s :
  replaceAll false (lit c) [d] s = map (swap c d) s.
Proof.
  induction s as [|x s IH].
  - apply replaceAll_nil. apply lit_consumes.
  - simpl map. unfold swap at 1. destruct (Ascii.eqb c x) eqn:E.
    + rewrite (replaceAll_match false (lit c) [d] (lit_consumes c) (x :: s) s).
      * simpl. now rewrite IH.
      * unfold matchAt. simpl. now rewrite E.
    + rewrite replaceAll_copy; [now rewrite IH|].
      unfold matchAt. simpl. now rewrite E.
Qed.

Lemma swap_free c d l : c <> d -> ~ In c (map (swap c d) l).
Proof.
  intros Hne H. apply in_map_iff in H as (x & E & _). unfold swap in E.
  destruct (Ascii.eqb c x) eqn:Ex; [congruence|].
  apply Ascii.eqb_neq in Ex. congruence.
Qed.

Lemma greedy_all p : forall s lo,
  Forall (fun c => p c = true) s -> lo <= List.length s ->
  greedy p lo None s (fun rest => Some rest) = Some [].
Proof.
  induction s as [|c s IH]; intros lo H Hlo; simpl in *.
  - now replace lo with 0 by lia.
  - inversion H as [|? ? Hc Hs]; subst. rewrite Hc. simpl.
    rewrite IH; [reflexivity | exact Hs | lia].
Qed.
End PatternFacts.

(* ================================================================== *)
(** * File names, skill names and static assets *)
(* ================================================================== *)

Module Names.
Import JS RegExp RegExpFacts StringFacts PatternFacts.
Local Open Scope string_scope.

(** [s] with each [c] turned into [d]. *)
Fixpoint swapped (c d : ascii) (s : string) : string :=
  match s with
  | EmptyString => EmptyString
  | String x s' => String (if Ascii.eqb c x then d else x) (swapped c d s')
  end.

Lemma swapped_map c d s :
  swapped c d s = string_of_list_ascii (map (swap c d) (list_ascii_of_string s)).
Proof. induction s as [|x s IH]; simpl; [reflexivity | now rewrite IH]. Qed.

Lemma replaceAllS_lit c d s :
  replaceAllS false (lit c) (String d "") s = swapped c d s.
Proof.
  unfold replaceAllS. simpl list_ascii_of_string at 1.
  now rewrite replaceAll_lit, swapped_map.
Qed.

Lemma swapped_free c d s : c <> d -> free c (swapped c d s).
Proof.
  intros H. unfold free. rewrite swapped_map, list_ascii_of_string_of_list_ascii.
  now apply swap_free.
Qed.

Lemma swapped_app c d a b : swapped c d (a ++ b) = swapped c d a ++ swapped c d b.
Proof. induction a as [|x a IH]; simpl; [reflexivity | now rewrite IH]. Qed.

Lemma swapped_keeps c d x s : x <> c -> x <> d -> free x s -> free x (swapped c d s).
Proof.
  intros Hc Hd. induction s as [|y s IH]; simpl; [auto|].
  rewrite !free_cons. intros [Hy Hs]. split; [|auto].
  destruct (Ascii.eqb c y); congruence.
Qed.

(** ** The stem of a session file's name *)

(** [/\..+/] *)
Definition fraction : re := Seq (lit ".") (Quant Dot 1 None).

Definition lineEnd (c : ascii) : bool := (code c =? 10)%N || (code c =? 13)%N.

Lemma fraction_miss c s : c <> "."%char -> matchAt false fraction (c :: s) = None.
Proof.
  intros H. unfold matchAt, fraction, lit. cbn [run matches1].
  destruct (Ascii.eqb "." c) eqn:E; [|reflexivity].
  apply Ascii.eqb_eq in E. congruence.
Qed.

Lemma fraction_hit s :
  s <> [] -> Forall (fun c => lineEnd c = false) s ->
  matchAt false fraction ("."%char :: s) = Some [].
Proof.
  intros Hne H. unfold matchAt, fraction, lit. cbn [run matches1].
  rewrite Ascii.eqb_refl. apply greedy_all.
  - eapply Forall_impl; [|exact H]. intros c Hc. simpl. unfold lineEnd in Hc.
    now rewrite Hc.
  - destruct s; [congruence | simpl; lia].
Qed.

(** The stem of a session file's name holds no colon; and when the
    clock reading has a fractional part -- as an ISO time stamp does --
    the stem is the reading up to its first full stop, with a hyphen
    for each colon. *)
Theorem fileStem_of_clock :
  (forall now, free ":" (Capture.fileStem now))
  /\ (forall a b,
         free "." a -> b <> "" ->
         Forall (fun c => lineEnd c = false) (list_ascii_of_string b) ->
         Capture.fileStem (a ++ "." ++ b) = swapped ":" "-" a).
Proof.
  split.
  - intros now Hin. unfold Capture.fileStem, replaceFirstS in Hin. fold fraction in Hin.
    rewrite list_ascii_of_string_of_list_ascii in Hin.
    simpl list_ascii_of_string at 1 in Hin.
    apply replaceFirst_In in Hin.
    rewrite replaceAllS_lit in Hin. revert Hin. apply swapped_free. discriminate.
  - intros a b Ha Hb Hline. unfold Capture.fileStem, replaceFirstS. fold fraction.
    rewrite replaceAllS_lit, swapped_app. simpl list_ascii_of_string at 1.
    change (swapped ":" "-" ("." ++ b)) with (String "." (swapped ":" "-" b)).
    rewrite chars_app. simpl list_ascii_of_string at 2.
    rewrite (replaceFirst_at false fraction [] _ _ []).
    + simpl. rewrite app_nil_r. apply string_of_list_ascii_of_string.
    + intros p1 c p2 E. apply fraction_miss. intros ->.
      apply (swapped_keeps ":" "-" "." a) in Ha; [|discriminate|discriminate].
      apply Ha. rewrite E. apply in_or_app. right. now left.
    + apply fraction_hit.
      * destruct b; [congruence | discriminate].
      * rewrite swapped_map, list_ascii_of_string_of_list_ascii.
        apply Forall_forall. intros x Hx. apply in_map_iff in Hx as (y & <- & Hy).
        rewrite Forall_forall in Hline. unfold swap.
        destruct (Ascii.eqb ":" y); [reflexivity | now apply Hline].
Qed.

(** ** The default name of a skill *)

Definition tlds : list string := [".com"; ".net"; ".org"; ".io"].

(** [/\.com$|\.net$|\.org$|\.io$/] *)
Definition tldRe : re :=
  alts [Seq (word ".com") Eoi; Seq (word ".net") Eoi;
        Seq (word ".org") Eoi; Seq (word ".io") Eoi].

Lemma tldRe_Matches w rest :
  Matches false tldRe w rest
  <-> rest = [] /\ exists tld, In tld tlds /\ w = list_ascii_of_string tld.
Proof.
  unfold tldRe.
  change [Seq (word ".com") Eoi; Seq (word ".net") Eoi;
          Seq (word ".org") Eoi; Seq (word ".io") Eoi]
    with (map (fun t => Seq (word t) Eoi) tlds).
  rewrite Matches_alts by discriminate. split.
  - intros (r & Hr & M). apply in_map_iff in Hr as (t & <- & Ht).
    destruct M as (w1 & w2 & -> & M1 & -> & ->).
    apply word_exact in M1. subst w1. rewrite app_nil_r. eauto.
  - intros (-> & t & Ht & ->). exists (Seq (word t) Eoi). split.
    + apply in_map_iff. eauto.
    + exists (list_ascii_of_string t), []. rewrite app_nil_r.
      split; [reflexivity|]. split; [now apply word_exact | now split].
Qed.

Lemma tld_hit tld :
  In tld tlds -> matchAt false tldRe (list_ascii_of_string tld) = Some [].
Proof.
  intros [<- | [<- | [<- | [<- | []]]]]; reflexivity.
Qed.

Lemma tld_miss c p tld :
  In tld tlds -> matchAt false tldRe (c :: p ++ list_ascii_of_string tld) = None.
Proof.
  intros Ht. destruct (matchAt false tldRe _) as [rest|] eqn:E; [|reflexivity].
  exfalso. apply matchAt_sound in E as (w & E & M).
  apply tldRe_Matches in M as (-> & t & Hin & ->). rewrite app_nil_r in E.
  assert (Hlen : S (List.length p + String.length tld) = String.length t).
  { apply (f_equal (@List.length ascii)) in E. simpl in E.
    rewrite length_app in E.
    assert (L : forall s, List.length (list_ascii_of_string s) = String.length s)
      by (induction s; simpl; congruence).
    now rewrite !L in E. }
  destruct Ht as [<- | [<- | [<- | [<- | []]]]];
    destruct Hin as [<- | [<- | [<- | [<- | []]]]]; simpl in Hlen; try lia;
    destruct p as [|c' p]; simpl in Hlen; try lia;
    simpl in E; discriminate E.
Qed.

Lemma endsWith_app p a : endsWith p (a ++ p) = true.
Proof.
  induction a as [|c a IH]; simpl.
  - destruct p; simpl; [reflexivity | now rewrite Ascii.eqb_refl, String.eqb_refl].
  - rewrite IH. apply orb_true_r.
Qed.

Lemma endsWith_iff p s : endsWith p s = true <-> exists a, s = a ++ p.
Proof.
  split.
  - induction s as [|c s IH]; simpl.
    + rewrite orb_false_r. destruct p; [intros _; now exists "" | discriminate].
    + change (String.eqb (String c s) p || endsWith p s = true -> exists a, String c s = a ++ p).
      intros H. apply orb_prop in H as [H | H].
      * apply String.eqb_eq in H. now exists "".
      * destruct (IH H) as (a & ->). now exists (String c a).
  - intros (a & ->). apply endsWith_app.
Qed.

(** The default name of a skill is the domain without one final
    [.com], [.net], [.org] or [.io], with a hyphen for each full stop
    that is left; no full stop remains in it. *)
Theorem domainPrefix_hyphens :
  (forall base tld,
      In tld tlds -> Generate.domainPrefix (base ++ tld) = swapped "." "-" base)
  /\ (forall d,
         (forall tld, In tld tlds -> endsWith tld d = false) ->
         Generate.domainPrefix d = swapped "." "-" d)
  /\ (forall d, free "." (Generate.domainPrefix d))
  /\ (forall r c,
         Generate.SKILL_NAME r = None ->
         Generate.skillNameOf r c
         = "api-" ++ Generate.domainPrefix (Generate.domainOf r c)).
Proof.
  assert (H1 : forall base tld,
             In tld tlds -> Generate.domainPrefix (base ++ tld) = swapped "." "-" base).
  { intros base tld Ht. unfold Generate.domainPrefix, replaceFirstS. fold tldRe.
    rewrite replaceAllS_lit. f_equal. simpl list_ascii_of_string at 1.
    rewrite chars_app, (replaceFirst_at false tldRe [] _ _ []).
    - simpl. rewrite app_nil_r. apply string_of_list_ascii_of_string.
    - intros p1 c p2 _. now apply tld_miss.
    - now apply tld_hit. }
  assert (H2 : forall d,
             (forall tld, In tld tlds -> endsWith tld d = false) ->
             Generate.domainPrefix d = swapped "." "-" d).
  { intros d Hd. unfold Generate.domainPrefix, replaceFirstS. fold tldRe.
    rewrite replaceAllS_lit. f_equal.
    rewrite replaceFirst_clean; [apply string_of_list_ascii_of_string|].
    intros t [pre Ht]. destruct (matchAt false tldRe t) as [rest|] eqn:E; [|reflexivity].
    exfalso. apply matchAt_sound in E as (w & E & M).
    apply tldRe_Matches in M as (-> & tld & Hin & ->). rewrite app_nil_r in E. subst t.
    specialize (Hd tld Hin).
    assert (Hends : endsWith tld d = true).
    { apply endsWith_iff. exists (string_of_list_ascii pre).
      apply chars_inj. now rewrite chars_app, list_ascii_of_string_of_list_ascii. }
    congruence. }
  split; [exact H1 | split; [exact H2 | split]].
  - intros d.
    assert (Hsw : exists x, Generate.domainPrefix d = swapped "." "-" x).
    { unfold Generate.domainPrefix. rewrite replaceAllS_lit. eauto. }
    destruct Hsw as (x & ->). apply swapped_free. discriminate.
  - intros r c Hn. unfold Generate.skillNameOf. now rewrite Hn.
Qed.

(** ** Static assets *)

Definition extensions : list string :=
  ["js"; "css"; "png"; "jpg"; "jpeg"; "gif"; "svg"; "ico";
   "woff"; "woff2"; "ttf"; "eot"; "map"; "webp"; "avif"].

Lemma extensions_lower e :
  In e extensions -> forallb lowerOrDigit (list_ascii_of_string e) = true.
Proof.
  intros H.
  assert (Hall : forallb (fun e => forallb lowerOrDigit (list_ascii_of_string e))
                         extensions = true) by reflexivity.
  rewrite forallb_forall in Hall. now apply Hall.
Qed.

Lemma lit_folded x c :
  In x ["."; "?"]%char -> (matches1 true (Lit x) c = true <-> c = x).
Proof.
  intros H. simpl. rewrite fold_mark by exact H. rewrite Ascii.eqb_eq.
  split; congruence.
Qed.

Lemma STATIC_Matches w rest :
  Matches true Capture.STATIC_EXTENSIONS w rest
  <-> exists ext tail,
        w = ("."%char :: list_ascii_of_string ext ++ tail)%list
        /\ In (toLowerCase ext) extensions
        /\ (tail = ["?"%char] \/ tail = [] /\ rest = []).
Proof.
  unfold Capture.STATIC_EXTENSIONS. fold extensions.
  change (seqs [lit "."; alts (map word extensions); Alt (lit "?") Eoi])
    with (Seq (lit ".") (Seq (alts (map word extensions)) (Alt (lit "?") Eoi))).
  assert (Hne : map word extensions <> []) by discriminate.
  split.
  - intros (w1 & w23 & -> & (c & -> & Hc) & w2 & w3 & -> & M2 & M3).
    apply (lit_folded "." c (or_introl eq_refl)) in Hc. subst c.
    apply (Matches_alts true _ Hne) in M2 as (r & Hr & M2).
    apply in_map_iff in Hr as (e & <- & He).
    apply word_folded in M2; [|now apply extensions_lower].
    exists (string_of_list_ascii w2), w3.
    rewrite list_ascii_of_string_of_list_ascii. split; [reflexivity|].
    split; [now rewrite M2|].
    destruct M3 as [(c & -> & Hc) | [-> ->]]; [left | now right].
    apply (lit_folded "?" c (or_intror (or_introl eq_refl))) in Hc. now subst c.
  - intros (ext & tail & -> & He & Htail).
    exists ["."%char], (list_ascii_of_string ext ++ tail)%list. split; [reflexivity|].
    split; [exists "."%char; split; reflexivity|].
    exists (list_ascii_of_string ext), tail. split; [reflexivity|]. split.
    + apply (Matches_alts true _ Hne). exists (word (toLowerCase ext)). split.
      * now apply in_map.
      * apply word_folded; [now apply extensions_lower|].
        now rewrite string_of_list_ascii_of_string.
    + destruct Htail as [-> | [-> ->]]; [left | right; now split].
      exists "?"%char. split; reflexivity.
Qed.

Section Platform.
Variable newURL : string -> option URL.

(** A request is skipped as a static asset exactly when the path of
    its address holds a full stop, then one of the listed extensions
    in any mix of upper and lower case, and then ends or goes on with
    a question mark; an address that does not parse is never skipped
    on this ground. *)
Theorem isStaticAsset_extension (url : string) :
  (forall u, newURL url = Some u ->
     (Capture.isStaticAsset newURL url = true
      <-> exists pre ext rest,
            pathname u = pre ++ "." ++ ext ++ rest
            /\ In (toLowerCase ext) extensions
            /\ (rest = "" \/ exists t, rest = "?" ++ t)))
  /\ (newURL url = None -> Capture.isStaticAsset newURL url = false).
Proof.
  split; [|intros Hu; unfold Capture.isStaticAsset; now rewrite Hu].
  intros u Hu. unfold Capture.isStaticAsset, testS. rewrite Hu, test_iff. split.
  - intros (pre & w & rest & E & M).
    apply STATIC_Matches in M as (ext & tail & -> & He & Htail).
    exists (string_of_list_ascii pre), ext, (string_of_list_ascii (tail ++ rest)%list).
    split; [|split; [exact He|]].
    + apply chars_inj. rewrite E, !chars_app, !list_ascii_of_string_of_list_ascii.
      simpl. now rewrite <- app_assoc.
    + destruct Htail as [-> | [-> ->]]; [right | now left].
      exists (string_of_list_ascii rest). reflexivity.
  - intros (pre & ext & rest & E & He & Hrest).
    destruct Hrest as [-> | (t & ->)].
    + exists (list_ascii_of_string pre), ("."%char :: list_ascii_of_string ext), [].
      split.
      * rewrite E, !chars_app. simpl. now rewrite !app_nil_r.
      * apply STATIC_Matches. exists ext, []. rewrite app_nil_r. auto.
    + exists (list_ascii_of_string pre),
             ("."%char :: list_ascii_of_string ext ++ ["?"%char])%list,
             (list_ascii_of_string t).
      split.
      * rewrite E, !chars_app. simpl. now rewrite <- app_assoc.
      * apply STATIC_Matches. exists ext, ["?"%char]. auto.
Qed.
End Platform.
End Names.

(* ================================================================== *)
(** * Properties of endpoint clustering *)
(* ================================================================== *)

Module Clusters.
Import JS Generate StoreFacts Sessions.

(** ** Insertion-ordered sets *)

Lemma addParam_In ks k x : In x (addParam ks k) <-> In x ks \/ x = k.
Proof.
  unfold addParam. destruct (existsb (String.eqb k) ks) eqn:E.
  - split; [auto|]. intros [H | ->]; [exact H|].
    apply existsb_exists in E as (y & Hy & Ey). apply String.eqb_eq in Ey. now subst.
  - rewrite in_app_iff. simpl. intuition congruence.
Qed.

Lemma addParam_NoDup ks k : NoDup ks -> NoDup (addParam ks k).
Proof.
  intros H. unfold addParam. destruct (existsb (String.eqb k) ks) eqn:E; [exact H|].
  apply NoDup_rev in H. rewrite <- (rev_involutive (ks ++ [k])).
  apply NoDup_rev. rewrite rev_app_distr. simpl. constructor; [|exact H].
  rewrite <- in_rev. intros Hin.
  assert (existsb (String.eqb k) ks = true); [|congruence].
  apply existsb_exists. exists k. split; [exact Hin | apply String.eqb_refl].
Qed.

Lemma addParams_In l : forall ks x,
  In x (fold_left addParam l ks) <-> In x ks \/ In x l.
Proof.
  induction l as [|k l IH]; intros ks x; simpl; [tauto|].
  rewrite IH, addParam_In. intuition congruence.
Qed.

Lemma addParams_NoDup l : forall ks, NoDup ks -> NoDup (fold_left addParam l ks).
Proof.
  induction l as [|k l IH]; intros ks H; simpl; [exact H|].
  apply IH, addParam_NoDup, H.
Qed.

(** ** Maps with distinct keys *)

Section MapFacts.
Variable V : Type.
Implicit Types (m : list (string * V)) (k : string) (v : V).

Lemma get_set k k' v m :
  get k' (set k v m) = if String.eqb k k' then Some v else get k' m.
Proof.
  destruct (String.eqb k k') eqn:E.
  - apply String.eqb_eq in E. subst. apply get_set_same.
  - apply String.eqb_neq in E. now apply get_set_other.
Qed.

Lemma has_keys k m : existsb (String.eqb k) (map fst m) = has k m.
Proof.
  unfold has. induction m as [|[k' v'] m IH]; simpl; [reflexivity|].
  destruct (String.eqb k k'); [reflexivity | exact IH].
Qed.

(** A map with distinct keys is what [get] reads at its keys. *)
Lemma map_by_get m (f : string -> V) :
  NoDup (map fst m) -> (forall k v, get k m = Some v -> v = f k) ->
  m = map (fun k => (k, f k)) (map fst m).
Proof.
  induction m as [|[k v] m IH]; intros Hnd Hget; simpl; [reflexivity|].
  inversion Hnd as [|? ? Hnot Hnd']; subst. f_equal.
  - f_equal. apply (Hget k). simpl. now rewrite String.eqb_refl.
  - apply IH; [exact Hnd'|]. intros k' v' G. apply Hget. simpl.
    destruct (String.eqb k' k) eqn:E; [|exact G].
    apply String.eqb_eq in E. subst k'. exfalso. apply Hnot.
    apply get_In in G. change k with (fst (k, v')). now apply in_map.
Qed.
End MapFacts.

Section Platform.
Variable newURL : string -> option URL.

Definition keyOf (r : entry) : string := endpointKey newURL (method r) (url r).

(** The name of an endpoint as its section title has it. *)
Definition title (ep : endpoint) : string :=
  (ep_method ep ++ " " ++ normalizedPath ep)%string.

(** The requests of [reqs] that fall under the key [k]. *)
Definition under (k : string) (reqs : list entry) : list entry :=
  filter (fun r => String.eqb (keyOf r) k) reqs.

(** The names of the query parameters of a request. *)
Definition paramsOf (r : entry) : list string :=
  match newURL (url r) with
  | Some u => map fst (searchParams u)
  | None => []
  end.

(** The distinct keys of [reqs], in the order of their first requests. *)
Definition firstSeen (reqs : list entry) : list string :=
  fold_left addParam (map keyOf reqs) [].

(** The endpoint a non-empty list of requests with one key makes. *)
Definition cluster (rs : list entry) : endpoint :=
  mkEndpoint (match rs with r0 :: _ => method r0 | [] => "" end)
             (match rs with r0 :: _ => normalizePath newURL (url r0) | [] => "" end)
             rs (fold_left addParam (flat_map paramsOf rs) []).

Definition fresh (r : entry) : endpoint :=
  mkEndpoint (method r) (normalizePath newURL (url r)) [] [].

Definition grow (ep : endpoint) (r : entry) : endpoint :=
  mkEndpoint (ep_method ep) (normalizedPath ep) (ep_requests ep ++ [r])
             (fold_left addParam (paramsOf r) (queryParams ep)).

(** One turn of the grouping loop sets one key. *)
Lemma groupRequest_set g r :
  groupRequest newURL g r
  = set (keyOf r)
        (grow (match get (keyOf r) g with Some ep => ep | None => fresh r end) r) g.
Proof.
  unfold groupRequest, has. fold (keyOf r).
  destruct (get (keyOf r) g) as [ep|] eqn:G.
  - rewrite G. unfold grow, paramsOf. destruct (newURL (url r)); reflexivity.
  - rewrite get_set_same, set_set. unfold grow, paramsOf, fresh. simpl.
    destruct (newURL (url r)); reflexivity.
Qed.

Lemma grow_cluster rs r :
  rs <> [] -> grow (cluster rs) r = cluster (rs ++ [r]).
Proof.
  intros Hne. destruct rs as [|r0 rs]; [congruence|].
  unfold grow, cluster. simpl. f_equal.
  rewrite flat_map_app, !fold_left_app. simpl. now rewrite app_nil_r.
Qed.

Lemma grow_fresh r : grow (fresh r) r = cluster [r].
Proof. unfold grow, fresh, cluster. simpl. now rewrite app_nil_r. Qed.

(** What the grouping loop has built when it has seen [seen]. *)
Definition grouped (g : list (string * endpoint)) (seen : list entry) : Prop :=
  NoDup (map fst g)
  /\ map fst g = firstSeen seen
  /\ forall k, get k g = match under k seen with
                         | [] => None
                         | rs => Some (cluster rs)
                         end.

Lemma under_snoc k seen r :
  under k (seen ++ [r]) = under k seen ++ (if String.eqb (keyOf r) k then [r] else []).
Proof. unfold under. rewrite filter_app. reflexivity. Qed.

Lemma grouped_step g seen r :
  grouped g seen -> grouped (groupRequest newURL g r) (seen ++ [r]).
Proof.
  intros (Hnd & Hkeys & Hget). rewrite groupRequest_set. split; [|split].
  - now apply NoDup_set.
  - rewrite keys_set. unfold firstSeen. rewrite map_app, fold_left_app. simpl.
    fold (firstSeen seen). rewrite <- Hkeys. unfold addParam.
    rewrite has_keys. unfold has. now destruct (get (keyOf r) g).
  - intros k. rewrite get_set, under_snoc.
    destruct (String.eqb (keyOf r) k) eqn:E.
    + apply String.eqb_eq in E. subst k. rewrite Hget.
      destruct (under (keyOf r) seen) as [|r0 rs] eqn:U.
      * simpl. now rewrite grow_fresh.
      * rewrite grow_cluster by discriminate. reflexivity.
    + rewrite app_nil_r. apply Hget.
Qed.

Lemma grouped_run reqs : forall g seen,
  grouped g seen -> grouped (fold_left (groupRequest newURL) reqs g) (seen ++ reqs).
Proof.
  induction reqs as [|r reqs IH]; intros g seen H; simpl.
  - now rewrite app_nil_r.
  - replace (seen ++ r :: reqs) with ((seen ++ [r]) ++ reqs)
      by (now rewrite <- app_assoc).
    apply IH, grouped_step, H.
Qed.

(** The groups: one for each distinct key, in the order of first
    appearance, holding the requests under the key in their order. *)
Lemma groups_spec reqs :
  fold_left (groupRequest newURL) reqs []
  = map (fun k => (k, cluster (under k reqs))) (firstSeen reqs).
Proof.
  assert (H : grouped (fold_left (groupRequest newURL) reqs []) ([] ++ reqs)).
  { apply grouped_run. repeat split; constructor. }
  simpl in H. destruct H as (Hnd & Hkeys & Hget).
  rewrite <- Hkeys. apply map_by_get; [exact Hnd|].
  intros k v G. rewrite Hget in G.
  destruct (under k reqs); [discriminate | congruence].
Qed.

Lemma firstSeen_In reqs k : In k (firstSeen reqs) <-> exists r, In r reqs /\ keyOf r = k.
Proof.
  unfold firstSeen. rewrite addParams_In, in_map_iff. simpl. split.
  - intros [[] | (r & E & Hr)]. eauto.
  - intros (r & Hr & E). right. eauto.
Qed.

Lemma firstSeen_NoDup reqs : NoDup (firstSeen reqs).
Proof. apply addParams_NoDup. constructor. Qed.

Lemma under_nonempty reqs k : In k (firstSeen reqs) -> under k reqs <> [].
Proof.
  intros H. apply firstSeen_In in H as (r & Hr & <-).
  assert (Hin : In r (under (keyOf r) reqs)).
  { apply filter_In. split; [exact Hr | apply String.eqb_refl]. }
  intros E. now rewrite E in Hin.
Qed.

Lemma title_cluster rs k :
  rs <> [] -> (forall r, In r rs -> keyOf r = k) -> title (cluster rs) = k.
Proof.
  intros Hne H. destruct rs as [|r0 rs]; [congruence|].
  rewrite <- (H r0 (or_introl eq_refl)). reflexivity.
Qed.

Lemma under_key reqs k r : In r (under k reqs) -> keyOf r = k.
Proof. intros H. apply filter_In in H as [_ H]. now apply String.eqb_eq. Qed.

(** The endpoints are the groups, sorted. *)
Lemma sortedEndpoints_spec reqs :
  sortedEndpoints newURL reqs
  = sort byObservedDesc (map (fun k => cluster (under k reqs)) (firstSeen reqs)).
Proof.
  unfold sortedEndpoints. rewrite groups_spec, map_map. reflexivity.
Qed.

Lemma In_sortedEndpoints reqs ep :
  In ep (sortedEndpoints newURL reqs)
  <-> exists k, In k (firstSeen reqs) /\ ep = cluster (under k reqs).
Proof.
  rewrite sortedEndpoints_spec. split.
  - intros H. apply (Permutation_in _ (Auth.sort_perm _ byObservedDesc _)) in H.
    apply in_map_iff in H as (k & <- & Hk). eauto.
  - intros (k & Hk & ->).
    apply (Permutation_in _ (Permutation_sym (Auth.sort_perm _ byObservedDesc _))).
    apply in_map_iff. eauto.
Qed.

Lemma ones_sum (x : string) keys :
  NoDup keys -> In x keys ->
  list_sum (map (fun k => if String.eqb x k then 1 else 0) keys) = 1.
Proof.
  induction keys as [|k keys IH]; intros Hnd Hin; [destruct Hin|].
  inversion Hnd as [|? ? Hnot Hnd']; subst. simpl.
  destruct (String.eqb x k) eqn:E.
  - apply String.eqb_eq in E. subst k. f_equal.
    clear IH Hin Hnd Hnd'. induction keys as [|k keys IH]; [reflexivity|].
    simpl. destruct (String.eqb x k) eqn:E.
    + apply String.eqb_eq in E. subst. exfalso. apply Hnot. now left.
    + apply IH. intros H. apply Hnot. now right.
  - apply String.eqb_neq in E. destruct Hin as [-> | Hin]; [congruence|]. now apply IH.
Qed.

Lemma list_sum_cons a l : list_sum (a :: l) = a + list_sum l.
Proof. reflexivity. Qed.

Lemma under_cons keys r reqs :
  list_sum (map (fun k => List.length (under k (r :: reqs))) keys)
  = list_sum (map (fun k => if String.eqb (keyOf r) k then 1 else 0) keys)
    + list_sum (map (fun k => List.length (under k reqs)) keys).
Proof.
  induction keys as [|k keys IH]; [reflexivity|].
  cbn [map]. rewrite !list_sum_cons, IH.
  assert (E : List.length (under k (r :: reqs))
              = (if String.eqb (keyOf r) k then 1 else 0) + List.length (under k reqs)).
  { unfold under. simpl. destruct (String.eqb (keyOf r) k); reflexivity. }
  rewrite E. lia.
Qed.

Lemma under_sum keys : forall reqs,
  NoDup keys -> (forall r, In r reqs -> In (keyOf r) keys) ->
  list_sum (map (fun k => List.length (under k reqs)) keys) = List.length reqs.
Proof.
  intros reqs Hnd. induction reqs as [|r reqs IH]; intros Hall.
  - simpl. clear. induction keys; simpl; [reflexivity | exact IHkeys].
  - rewrite under_cons, IH by (intros; apply Hall; now right).
    rewrite (ones_sum (keyOf r) keys Hnd (Hall r (or_introl eq_refl))).
    reflexivity.
Qed.

Lemma list_sum_perm l l' : Permutation l l' -> list_sum l = list_sum l'.
Proof. induction 1; simpl; lia. Qed.

(** Clustering is a partition of the requests by method and path
    template: every endpoint holds, in their order, exactly the
    requests that share its key, and at least one; its method and
    template are those of its requests; no two endpoints share a key;
    every request is in an endpoint; the observation counts add up to
    the number of requests; and a representative is always found. *)
Theorem clustering_partitions (reqs : list entry) :
  let eps := sortedEndpoints newURL reqs in
  (forall ep, In ep eps ->
     ep_requests ep = under (title ep) reqs
     /\ ep_requests ep <> []
     /\ (forall r, In r (ep_requests ep) -> keyOf r = title ep)
     /\ (exists r0, hd_error (ep_requests ep) = Some r0
                    /\ ep_method ep = method r0
                    /\ normalizedPath ep = normalizePath newURL (url r0))
     /\ exists rep, representative (ep_requests ep) = Some rep
                    /\ In rep (ep_requests ep))
  /\ NoDup (map title eps)
  /\ (forall r, In r reqs -> exists ep, In ep eps /\ In r (ep_requests ep))
  /\ list_sum (map (fun ep => List.length (ep_requests ep)) eps) = List.length reqs.
Proof.
  intros eps.
  assert (Htitle : forall k, In k (firstSeen reqs) -> title (cluster (under k reqs)) = k).
  { intros k Hk. apply title_cluster; [now apply under_nonempty|].
    intros r. apply under_key. }
  assert (Hperm : Permutation eps (map (fun k => cluster (under k reqs)) (firstSeen reqs))).
  { unfold eps. rewrite sortedEndpoints_spec. apply Auth.sort_perm. }
  split; [|split; [|split]].
  - intros ep Hin. apply In_sortedEndpoints in Hin as (k & Hk & ->).
    rewrite (Htitle k Hk). pose proof (under_nonempty reqs k Hk) as Hne.
    split; [reflexivity|]. split; [exact Hne|].
    split; [intros r; apply under_key|].
    destruct (under k reqs) as [|r0 rs] eqn:U; [congruence|]. split.
    + exists r0. repeat split.
    + unfold representative. simpl ep_requests.
      destruct (find successWithBody (r0 :: rs)) as [rep|] eqn:F.
      * exists rep. split; [reflexivity|]. now apply find_some in F.
      * exists r0. split; [reflexivity | now left].
  - apply (Permutation_NoDup (l := firstSeen reqs)); [|apply firstSeen_NoDup].
    rewrite (Permutation_map title Hperm), map_map.
    rewrite (map_ext_in _ (fun k => k)); [now rewrite map_id|].
    intros k Hk. now apply Htitle.
  - intros r Hr. exists (cluster (under (keyOf r) reqs)). split.
    + apply In_sortedEndpoints. exists (keyOf r). split; [|reflexivity].
      apply firstSeen_In. eauto.
    + simpl. apply filter_In. split; [exact Hr | apply String.eqb_refl].
  - rewrite (list_sum_perm _ _ (Permutation_map _ Hperm)), map_map. simpl.
    apply under_sum; [apply firstSeen_NoDup|].
    intros r Hr. apply firstSeen_In. eauto.
Qed.

(** ** The order of the endpoints *)

Definition observed (ep : endpoint) : nat := List.length (ep_requests ep).

Lemma insert_class n x l :
  filter (fun ep => observed ep =? n) (insert byObservedDesc x l)
  = filter (fun ep => observed ep =? n) (x :: l).
Proof.
  induction l as [|y l IH]; [reflexivity|].
  simpl insert. destruct (byObservedDesc x y <=? 0)%Z eqn:E; [reflexivity|].
  apply Z.leb_gt in E. unfold byObservedDesc in E. fold (observed x) (observed y) in E.
  cbn [filter]. rewrite IH. cbn [filter].
  destruct (observed x =? n) eqn:Ex; [|reflexivity].
  apply Nat.eqb_eq in Ex.
  destruct (observed y =? n) eqn:Ey; [|reflexivity].
  apply Nat.eqb_eq in Ey. lia.
Qed.

(** Sorting keeps the endpoints of one count in their order. *)
Lemma sort_class n l :
  filter (fun ep => observed ep =? n) (sort byObservedDesc l)
  = filter (fun ep => observed ep =? n) l.
Proof.
  induction l as [|x l IH]; [reflexivity|].
  simpl sort. rewrite insert_class. cbn [filter]. now rewrite IH.
Qed.

Lemma title_under reqs k :
  In k (firstSeen reqs) -> title (cluster (under k reqs)) = k.
Proof.
  intros Hk. apply title_cluster; [now apply under_nonempty|].
  intros r. apply under_key.
Qed.

Lemma classes_titles reqs n : forall ks,
  (forall k, In k ks -> In k (firstSeen reqs)) ->
  map title (filter (fun ep => observed ep =? n)
                    (map (fun k => cluster (under k reqs)) ks))
  = filter (fun k => List.length (under k reqs) =? n) ks.
Proof.
  induction ks as [|k ks IH]; intros Hks; [reflexivity|].
  cbn [map filter]. unfold observed at 1. cbn [ep_requests cluster].
  destruct (List.length (under k reqs) =? n).
  - cbn [map]. rewrite title_under by (apply Hks; now left).
    f_equal. apply IH. intros; apply Hks; now right.
  - apply IH. intros; apply Hks; now right.
Qed.

(** The endpoints come by descending number of observations, and
    endpoints observed equally often come in the order in which their
    first requests were captured. *)
Theorem endpoints_by_frequency (reqs : list entry) :
  StronglySorted (fun a b => observed b <= observed a) (sortedEndpoints newURL reqs)
  /\ forall n,
       map title (filter (fun ep => observed ep =? n) (sortedEndpoints newURL reqs))
       = filter (fun k => List.length (under k reqs) =? n) (firstSeen reqs).
Proof.
  split.
  - unfold sortedEndpoints.
    apply Auth.sort_sorted; unfold byObservedDesc, observed; intros; lia.
  - intros n. rewrite sortedEndpoints_spec, sort_class.
    apply classes_titles. auto.
Qed.

(** ** Query parameters *)

Lemma flat_map_nil (A B : Type) (f : A -> list B) l :
  flat_map f l = [] <-> forall x, In x l -> f x = [].
Proof.
  induction l as [|a l IH]; simpl; [tauto|]. split.
  - intros H. apply app_eq_nil in H as [H1 H2]. intros x [<- | Hx]; [exact H1|].
    now apply IH.
  - intros H. rewrite (H a (or_introl eq_refl)). apply IH. auto.
Qed.

(** The parameter names an endpoint section shows are the distinct
    names found in the addresses of the endpoint's requests, each
    once, in the order of first appearance; the section shows no
    query string when none of the requests had a parameter. *)
Theorem endpoint_queryParams (reqs : list entry) (ep : endpoint) :
  In ep (sortedEndpoints newURL reqs) ->
  queryParams ep = fold_left addParam (flat_map paramsOf (ep_requests ep)) []
  /\ NoDup (queryParams ep)
  /\ (forall k, In k (queryParams ep)
        <-> exists r u, In r (ep_requests ep) /\ newURL (url r) = Some u
                        /\ In k (map fst (searchParams u)))
  /\ (queryStr ep = ""%string <-> forall r, In r (ep_requests ep) -> paramsOf r = []).
Proof.
  intros Hin. apply In_sortedEndpoints in Hin as (key & Hkey & ->).
  cbn [queryParams ep_requests cluster].
  split; [reflexivity|]. split; [apply addParams_NoDup; constructor|]. split.
  - intros k. rewrite addParams_In, in_flat_map. split.
    + intros [[] | (r & Hr & Hk)]. unfold paramsOf in Hk.
      destruct (newURL (url r)) as [u|] eqn:E; [|destruct Hk]. eauto.
    + intros (r & u & Hr & E & Hk). right. exists r. split; [exact Hr|].
      unfold paramsOf. now rewrite E.
  - rewrite <- flat_map_nil. unfold queryStr. cbn [queryParams cluster].
    destruct (flat_map paramsOf (under key reqs)) as [|p ps] eqn:E.
    + simpl. tauto.
    + assert (Hne : fold_left addParam (p :: ps) [] <> []).
      { intros H0. assert (Hp : In p (fold_left addParam (p :: ps) [])).
        { apply addParams_In. right. now left. }
        now rewrite H0 in Hp. }
      destruct (fold_left addParam (p :: ps) []); [congruence|].
      split; discriminate.
Qed.

(** ** Keys *)

Lemma space_split a : forall b x y,
  StringFacts.free " " a -> StringFacts.free " " b ->
  (a ++ " " ++ x = b ++ " " ++ y)%string -> a = b /\ x = y.
Proof.
  induction a as [|c a IH]; intros [|d b] x y Ha Hb E; simpl in E.
  - injection E as ->. auto.
  - injection E as <- _. apply StringFacts.free_cons in Hb. now destruct Hb.
  - injection E as -> _. apply StringFacts.free_cons in Ha. now destruct Ha.
  - injection E as -> E. apply StringFacts.free_cons in Ha, Hb.
    destruct (IH b x y (proj2 Ha) (proj2 Hb) E) as [-> ->]. auto.
Qed.

(** When no method holds a space -- an HTTP method is a token -- two
    requests share a key exactly when they share the method and the
    path template, and every request of an endpoint has the method
    and the template the endpoint is titled with. *)
Theorem endpointKey_separates (reqs : list entry) :
  (forall r, In r reqs -> StringFacts.free " " (method r)) ->
  (forall r1 r2, In r1 reqs -> In r2 reqs ->
     (keyOf r1 = keyOf r2
      <-> method r1 = method r2
          /\ normalizePath newURL (url r1) = normalizePath newURL (url r2)))
  /\ (forall ep r,
         In ep (sortedEndpoints newURL reqs) -> In r (ep_requests ep) ->
         method r = ep_method ep /\ normalizePath newURL (url r) = normalizedPath ep).
Proof.
  intros Hfree.
  assert (Hsep : forall r1 r2, In r1 reqs -> In r2 reqs ->
            (keyOf r1 = keyOf r2
             <-> method r1 = method r2
                 /\ normalizePath newURL (url r1) = normalizePath newURL (url r2))).
  { intros r1 r2 H1 H2. unfold keyOf, endpointKey. split.
    - apply space_split; auto.
    - intros [-> ->]. reflexivity. }
  split; [exact Hsep|].
  intros ep r Hin Hr. apply In_sortedEndpoints in Hin as (k & Hk & ->).
  cbn [ep_requests cluster] in Hr.
  destruct (under k reqs) as [|r0 rs] eqn:U; [destruct Hr|].
  cbn [ep_method normalizedPath cluster].
  assert (H0 : In r0 (under k reqs)) by (rewrite U; now left).
  rewrite <- U in Hr.
  apply Hsep.
  - apply filter_In in Hr. tauto.
  - apply filter_In in H0. tauto.
  - rewrite (under_key reqs k r Hr), (under_key reqs k r0 H0). reflexivity.
Qed.

(** ** The representative request *)

(** The request an endpoint section shows is one of the endpoint's
    requests: the first that has a response body and a status from
    200 to 399, or the first of all when there is none; a list of
    requests that is not empty always has one. *)
Theorem representative_choice (rs : list entry) :
  (rs = [] -> representative rs = None)
  /\ (rs <> [] ->
      exists rep pre post,
        representative rs = Some rep /\ rs = pre ++ rep :: post
        /\ (forall r, In r pre -> successWithBody r = false)
        /\ (successWithBody rep = true
            \/ pre = [] /\ forall r, In r rs -> successWithBody r = false))
  /\ (forall r,
         successWithBody r = true
         <-> exists body st,
               responseBody r = Some body /\ body <> ""%string
               /\ responseStatus r = Some st /\ 200 <= st < 400).
Proof.
  split; [intros ->; reflexivity | split].
  - intros Hne. unfold representative.
    destruct (find successWithBody rs) as [rep|] eqn:F.
    + assert (H : exists pre post, rs = pre ++ rep :: post
                    /\ forall r, In r pre -> successWithBody r = false).
      { clear Hne. induction rs as [|x rs IH]; [discriminate|]. simpl in F.
        destruct (successWithBody x) eqn:Ex.
        - injection F as <-. exists [], rs. split; [reflexivity | intros r []].
        - destruct (IH F) as (pre & post & -> & Hpre).
          exists (x :: pre), post. split; [reflexivity|].
          intros r [<- | Hr]; auto. }
      destruct H as (pre & post & E & Hpre).
      exists rep, pre, post. apply find_some in F. tauto.
    + destruct rs as [|r0 rs]; [congruence|].
      exists r0, [], rs. split; [reflexivity|]. split; [reflexivity|].
      split; [intros r []|]. right. split; [reflexivity|].
      intros r Hr. now apply (find_none _ _ F).
  - intros r. unfold successWithBody. split.
    + destruct (responseBody r) as [[|c b]|] eqn:B; cbn [truthy]; try discriminate.
      destruct (responseStatus r) as [st|]; [|discriminate].
      intros H. apply andb_prop in H as [H1 H2].
      apply Nat.leb_le in H1. apply Nat.ltb_lt in H2.
      exists (String c b), st. repeat split; auto. discriminate.
    + intros (body & st & -> & Hb & -> & H1 & H2).
      destruct body as [|c b]; [congruence|]. cbn [truthy].
      apply andb_true_intro. split; [now apply Nat.leb_le | now apply Nat.ltb_lt].
Qed.
End Platform.
End Clusters.

(* ================================================================== *)
(** * Properties of the default ordering of strings *)
(* ================================================================== *)

Module OrderFacts.
Import JS.

Definition le (a b : string) : Prop := String.leb a b = true.

Lemma ascii_compare_refl c : Ascii.compare c c = Eq.
Proof. apply N.compare_refl. Qed.

Lemma ascii_lt_trans a b c :
  Ascii.compare a b = Lt -> Ascii.compare b c = Lt -> Ascii.compare a c = Lt.
Proof.
  unfold Ascii.compare. rewrite !N.compare_lt_iff. apply N.lt_trans.
Qed.

Lemma compare_refl s : String.compare s s = Eq.
Proof.
  induction s as [|c s IH]; simpl; [reflexivity|].
  now rewrite ascii_compare_refl.
Qed.

Lemma compare_lt_trans a : forall b c,
  String.compare a b = Lt -> String.compare b c = Lt -> String.compare a c = Lt.
Proof.
  induction a as [|x a IH]; intros [|y b] [|z c]; simpl; try discriminate; auto.
  destruct (Ascii.compare x y) eqn:Exy; try discriminate;
    destruct (Ascii.compare y z) eqn:Eyz; try discriminate; intros H1 H2.
  - apply Ascii.compare_eq_iff in Exy, Eyz. subst.
    rewrite ascii_compare_refl. eapply IH; eauto.
  - apply Ascii.compare_eq_iff in Exy. subst. now rewrite Eyz.
  - apply Ascii.compare_eq_iff in Eyz. subst. now rewrite Exy.
  - now rewrite (ascii_lt_trans x y z).
Qed.

Lemma le_refl a : le a a.
Proof. unfold le, String.leb. now rewrite compare_refl. Qed.

Lemma le_trans a b c : le a b -> le b c -> le a c.
Proof.
  unfold le, String.leb.
  destruct (String.compare a b) eqn:Eab; try discriminate;
    destruct (String.compare b c) eqn:Ebc; try discriminate; intros _ _.
  - apply String.compare_eq_iff in Eab, Ebc. subst. now rewrite compare_refl.
  - apply String.compare_eq_iff in Eab. subst. now rewrite Ebc.
  - apply String.compare_eq_iff in Ebc. subst. now rewrite Eab.
  - now rewrite (compare_lt_trans a b c).
Qed.

Lemma le_antisym a b : le a b -> le b a -> a = b.
Proof. apply String.leb_antisym. Qed.

Lemma compareStrings_le a b : (compareStrings a b <= 0)%Z -> le a b.
Proof.
  unfold compareStrings, le, String.leb.
  destruct (String.compare a b); [reflexivity | reflexivity | lia].
Qed.

Lemma compareStrings_gt a b : (0 < compareStrings a b)%Z -> le b a.
Proof.
  unfold compareStrings, le, String.leb. rewrite (String.compare_antisym b a).
  destruct (String.compare a b); simpl; [lia | lia | reflexivity].
Qed.

(** The default sort puts strings in ascending order. *)
Lemma sort_ascending l : StronglySorted le (sort compareStrings l).
Proof.
  apply Auth.sort_sorted.
  - apply compareStrings_le.
  - apply compareStrings_gt.
  - apply le_trans.
Qed.

(** There is one way to put strings in ascending order. *)
Lemma ascending_unique l1 : forall l2,
  StronglySorted le l1 -> StronglySorted le l2 -> Permutation l1 l2 -> l1 = l2.
Proof.
  induction l1 as [|a l1 IH]; intros l2 H1 H2 Hp.
  - apply Permutation_nil in Hp. now subst.
  - destruct l2 as [|b l2]; [apply Permutation_sym, Permutation_nil in Hp; discriminate|].
    inversion H1 as [|? ? S1 F1]; inversion H2 as [|? ? S2 F2]; subst.
    assert (Hab : a = b).
    { assert (Ha : In a (b :: l2)) by (apply (Permutation_in _ Hp); now left).
      assert (Hb : In b (a :: l1))
        by (apply (Permutation_in _ (Permutation_sym Hp)); now left).
      rewrite Forall_forall in F1, F2.
      destruct Ha as [-> | Ha]; [reflexivity|].
      destruct Hb as [-> | Hb]; [reflexivity|].
      apply le_antisym; auto. }
    subst b. f_equal. apply IH; auto. now apply Permutation_cons_inv in Hp.
Qed.

Lemma sort_permuted l1 l2 :
  Permutation l1 l2 -> sort compareStrings l1 = sort compareStrings l2.
Proof.
  intros Hp. apply ascending_unique; try apply sort_ascending.
  rewrite (Auth.sort_perm _ compareStrings l1), Hp.
  symmetry. apply Auth.sort_perm.
Qed.

(** The last of an ascending list is its greatest. *)
Lemma ascending_last l f :
  StronglySorted le (l ++ [f]) -> forall g, In g (l ++ [f]) -> le g f.
Proof.
  induction l as [|a l IH]; simpl; intros H g Hg.
  - destruct Hg as [<- | []]. apply le_refl.
  - inversion H as [|? ? S F]; subst. destruct Hg as [<- | Hg]; [|now apply IH].
    rewrite Forall_forall in F. apply F. apply in_or_app. right. now left.
Qed.
End OrderFacts.

(* ================================================================== *)
(** * Properties of the analysis *)
(* ================================================================== *)

Module Analysis.
Import JS Generate StringFacts OrderFacts.
Local Open Scope string_scope.

Section Platform.
Variable newURL : string -> option URL.
Variable JSON_parse : string -> option json.

(** ** Query parameters of an address *)

(** [normalizeQueryParams] lists the parameter names of an address in
    ascending order, repeated names repeated, and so does not depend
    on the order in which the address gives them; an address that
    does not parse has none. *)
Theorem normalizeQueryParams_sorted :
  (forall u U, newURL u = Some U ->
     exists ks, normalizeQueryParams newURL u = join "," ks
                /\ Permutation ks (map fst (searchParams U))
                /\ StronglySorted le ks)
  /\ (forall u1 u2 U1 U2,
         newURL u1 = Some U1 -> newURL u2 = Some U2 ->
         Permutation (map fst (searchParams U1)) (map fst (searchParams U2)) ->
         normalizeQueryParams newURL u1 = normalizeQueryParams newURL u2)
  /\ (forall u, newURL u = None -> normalizeQueryParams newURL u = "").
Proof.
  split; [|split].
  - intros u U Hu. unfold normalizeQueryParams. rewrite Hu.
    eexists. split; [reflexivity|]. split; [apply Auth.sort_perm | apply sort_ascending].
  - intros u1 u2 U1 U2 H1 H2 Hp. unfold normalizeQueryParams. rewrite H1, H2.
    f_equal. now apply sort_permuted.
  - intros u Hu. unfold normalizeQueryParams. now rewrite Hu.
Qed.

(** ** The capture file *)

Lemma hd_rev (A : Type) (l : list A) x :
  hd_error (rev l) = Some x -> exists l', l = (l' ++ [x])%list.
Proof.
  intros H. rewrite <- (rev_involutive l).
  destruct (rev l) as [|y r]; [discriminate|]. injection H as ->.
  simpl. eauto.
Qed.

(** The capture files of a directory listing. *)
Lemma captureFiles_In listing f :
  In f (captureFiles listing) <-> In f listing /\ endsWith ".json" f = true.
Proof.
  unfold captureFiles. rewrite <- in_rev, <- filter_In. split; apply Permutation_in.
  - apply Auth.sort_perm.
  - apply Permutation_sym, Auth.sort_perm.
Qed.

(** Of the files of a domain's directory [main] reads the one whose
    name ends in [.json] and comes last in the ordering of strings --
    with the names the capture engine gives, the latest session --
    and it gives up when there is no such file. *)
Theorem latestCapture_greatest (listing : list string) :
  (latestCapture listing = None
   <-> forall f, In f listing -> endsWith ".json" f = false)
  /\ (forall f, latestCapture listing = Some f ->
        In f listing /\ endsWith ".json" f = true
        /\ forall g, In g listing -> endsWith ".json" g = true -> le g f)
  /\ (forall now, endsWith ".json" (Capture.fileStem now ++ ".json") = true).
Proof.
  unfold latestCapture. split; [|split].
  - split.
    + intros H f Hf. destruct (endsWith ".json" f) eqn:E; [|reflexivity].
      assert (Hin : In f (captureFiles listing)) by (apply captureFiles_In; auto).
      destruct (captureFiles listing); [destruct Hin | discriminate].
    + intros H. destruct (captureFiles listing) as [|f r] eqn:E; [reflexivity|].
      assert (Hin : In f (captureFiles listing)) by (rewrite E; now left).
      apply captureFiles_In in Hin as [Hin He]. rewrite (H f Hin) in He. discriminate.
  - intros f H.
    assert (Hin : In f (captureFiles listing)).
    { destruct (captureFiles listing); [discriminate|]. injection H as ->. now left. }
    apply captureFiles_In in Hin as [Hin He]. split; [exact Hin|]. split; [exact He|].
    intros g Hg Hge. unfold captureFiles in H. apply hd_rev in H as (l' & E).
    pose proof (sort_ascending (filter (endsWith ".json") listing)) as Hs.
    rewrite E in Hs. apply (ascending_last l' f Hs). rewrite <- E.
    apply in_rev. fold (captureFiles listing). apply captureFiles_In. auto.
  - intros now. apply Names.endsWith_app.
Qed.

(** ** Status codes *)

Definition statusCounts (rs : list entry) : list (nat * nat) :=
  fold_left (fun m r => bumpStatus (statusOf r) m) rs [].

(** The count listed for a status. *)
Fixpoint tally (s : nat) (m : list (nat * nat)) : nat :=
  match m with
  | [] => 0
  | (k, c) :: m' => if (k =? s)%nat then c else tally s m'
  end.

Lemma bumpStatus_keys s m k :
  In k (map fst (bumpStatus s m)) -> k = s \/ In k (map fst m).
Proof.
  induction m as [|[k0 c0] m IH]; simpl.
  - intros [<- | []]. now left.
  - destruct (s =? k0)%nat; [simpl; tauto|].
    destruct (s <? k0)%nat; simpl; [intuition|].
    intros [<- | H]; [tauto|]. destruct (IH H); tauto.
Qed.

Lemma bumpStatus_sorted s m :
  StronglySorted lt (map fst m) -> StronglySorted lt (map fst (bumpStatus s m)).
Proof.
  induction m as [|[k0 c0] m IH]; simpl; intros H.
  - repeat constructor.
  - inversion H as [|? ? S F]; subst.
    destruct (s =? k0)%nat eqn:E; [exact H|].
    destruct (s <? k0)%nat eqn:L; simpl.
    + apply Nat.ltb_lt in L. constructor; [exact H|].
      constructor; [exact L|]. eapply Forall_impl; [|exact F]. simpl. intros; lia.
    + apply Nat.eqb_neq in E. apply Nat.ltb_ge in L.
      constructor; [now apply IH|]. apply Forall_forall. intros k Hk.
      apply bumpStatus_keys in Hk as [-> | Hk]; [lia|].
      rewrite Forall_forall in F. now apply F.
Qed.

Lemma bumpStatus_tally s m s' :
  StronglySorted lt (map fst m) ->
  tally s' (bumpStatus s m) = tally s' m + (if (s =? s')%nat then 1 else 0).
Proof.
  induction m as [|[k0 c0] m IH]; simpl; intros H.
  - destruct (s =? s')%nat; reflexivity.
  - inversion H as [|? ? S F]; subst.
    destruct (s =? k0)%nat eqn:E.
    + apply Nat.eqb_eq in E. subst k0. simpl.
      destruct (s =? s')%nat; lia.
    + destruct (s <? k0)%nat eqn:L; simpl.
      * destruct (s =? s')%nat eqn:E'; [|lia].
        apply Nat.eqb_eq in E'. subst s'.
        apply Nat.ltb_lt in L.
        assert (T : tally s m = 0).
        { clear IH H S. induction m as [|[k c] m IHm]; [reflexivity|].
          inversion F as [|? ? Fk Fm]; subst. simpl in *.
          destruct (k =? s)%nat eqn:Ek; [apply Nat.eqb_eq in Ek; lia | auto]. }
        destruct (k0 =? s)%nat eqn:Ek; [apply Nat.eqb_eq in Ek; lia | rewrite T; reflexivity].
      * rewrite IH by exact S.
        destruct (k0 =? s')%nat eqn:Ek; [|reflexivity].
        apply Nat.eqb_eq in Ek. subst s'. rewrite E. lia.
Qed.

Lemma bumpStatus_positive s m :
  Forall (fun kc => 1 <= snd kc) m -> Forall (fun kc => 1 <= snd kc) (bumpStatus s m).
Proof.
  induction m as [|[k0 c0] m IH]; simpl; intros H.
  - repeat constructor.
  - inversion H; subst. destruct (s =? k0)%nat; [constructor; simpl in *; [lia | auto]|].
    destruct (s <? k0)%nat; repeat constructor; auto.
Qed.

Lemma bumpStatus_sum s m :
  list_sum (map snd (bumpStatus s m)) = S (list_sum (map snd m)).
Proof.
  induction m as [|[k0 c0] m IH]; simpl; [reflexivity|].
  destruct (s =? k0)%nat; [simpl; lia|].
  destruct (s <? k0)%nat; simpl; [reflexivity | rewrite IH; lia].
Qed.

Lemma tally_In m s c :
  StronglySorted lt (map fst m) -> Forall (fun kc => 1 <= snd kc) m ->
  (In (s, c) m <-> tally s m = c /\ 1 <= c).
Proof.
  induction m as [|[k0 c0] m IH]; simpl; intros Hs Hp.
  - split; [tauto | lia].
  - inversion Hs as [|? ? S F]; inversion Hp as [|? ? P0 P]; subst. simpl in P0.
    destruct (k0 =? s)%nat eqn:E.
    + apply Nat.eqb_eq in E. subst k0. split.
      * intros [H | H]; [injection H as ->; auto|].
        exfalso. rewrite Forall_forall in F.
        assert (s < s); [|lia]. apply F. change s with (fst (s, c)). now apply in_map.
      * intros [-> _]. now left.
    + apply Nat.eqb_neq in E. rewrite <- (IH S P). split.
      * intros [H | H]; [injection H as -> _; congruence | exact H].
      * auto.
Qed.

(** The status line of an endpoint section lists each status that
    was observed once, by ascending status, with the number of the
    endpoint's requests that ended with it (a request without a
    response counts under 0); the counts add up to the number of
    requests. *)
Theorem status_counts (rs : list entry) :
  statusLine rs
  = "**Status codes:** "
    ++ join ", " (map (fun '(s, c) => ofNat s ++ " (" ++ ofNat c ++ "x)") (statusCounts rs))
  /\ StronglySorted lt (map fst (statusCounts rs))
  /\ (forall s c,
        In (s, c) (statusCounts rs)
        <-> c = count_occ Nat.eq_dec (map statusOf rs) s /\ 1 <= c)
  /\ list_sum (map snd (statusCounts rs)) = List.length rs.
Proof.
  split; [reflexivity|].
  assert (H : forall rs m seen,
             StronglySorted lt (map fst m) /\ Forall (fun kc => 1 <= snd kc) m
             /\ (forall s, tally s m = count_occ Nat.eq_dec seen s)
             /\ list_sum (map snd m) = List.length seen ->
             let m' := fold_left (fun m r => bumpStatus (statusOf r) m) rs m in
             StronglySorted lt (map fst m') /\ Forall (fun kc => 1 <= snd kc) m'
             /\ (forall s, tally s m' = count_occ Nat.eq_dec (seen ++ map statusOf rs)%list s)
             /\ list_sum (map snd m') = List.length seen + List.length rs).
  { clear rs. induction rs as [|r rs IH]; intros m seen (H1 & H2 & H3 & H4); simpl.
    - rewrite app_nil_r, Nat.add_0_r. auto.
    - specialize (IH (bumpStatus (statusOf r) m) (seen ++ [statusOf r])%list).
      simpl in IH. rewrite <- app_assoc, length_app in IH. simpl in IH.
      replace (List.length seen + S (List.length rs))
        with (List.length seen + 1 + List.length rs) by lia.
      apply IH. split; [now apply bumpStatus_sorted|].
      split; [now apply bumpStatus_positive|]. split.
      + intros s. rewrite bumpStatus_tally, count_occ_app, H3 by exact H1. simpl.
        destruct (Nat.eq_dec (statusOf r) s) as [-> | Hne].
        * now rewrite Nat.eqb_refl.
        * apply Nat.eqb_neq in Hne. now rewrite Hne.
      + rewrite bumpStatus_sum. lia. }
  specialize (H rs [] []). simpl in H.
  destruct H as (H1 & H2 & H3 & H4).
  { repeat split; constructor. }
  fold (statusCounts rs) in H1, H2, H3, H4.
  split; [exact H1|]. split; [|exact H4].
  intros s c. rewrite (tally_In _ s c H1 H2), H3. intuition congruence.
Qed.

(** ** Schema blocks *)

Lemma describeType_nonempty v depth maxDepth : describeType v depth maxDepth <> "".
Proof.
  destruct v as [|b|n|s|items|entries].
  - discriminate.
  - discriminate.
  - discriminate.
  - simpl. destruct (80 <? String.length s)%nat; discriminate.
  - simpl. destruct items; [discriminate|].
    destruct (maxDepth <=? depth)%nat; discriminate.
  - rewrite Schema.describeType_object.
    destruct (maxDepth <=? depth)%nat; discriminate.
Qed.

(** A description is never the empty string, so a schema block is
    written exactly when the body parses as JSON: for the request
    body of a POST, PUT or PATCH, and for a response body that does
    not begin with a bracket. *)
Theorem schema_blocks_when_parsed :
  (forall v depth maxDepth, describeType v depth maxDepth <> "")
  /\ (forall title body,
         schemaBlock JSON_parse title body
         = match JSON_parse body with
           | Some v => [title; "```"; describeType v 0 2; "```"; ""]
           | None => []
           end)
  /\ (forall ep rep,
         requestSchemaBlock JSON_parse ep rep <> []
         <-> exists body v,
               requestBody rep = Some body /\ body <> ""
               /\ In (ep_method ep) ["POST"; "PUT"; "PATCH"]
               /\ JSON_parse body = Some v)
  /\ (forall rep,
         responseSchemaBlock JSON_parse rep <> []
         <-> exists body v,
               responseBody rep = Some body /\ body <> ""
               /\ startsWith "[" body = false
               /\ JSON_parse body = Some v).
Proof.
  assert (Hblock : forall title body,
             schemaBlock JSON_parse title body
             = match JSON_parse body with
               | Some v => [title; "```"; describeType v 0 2; "```"; ""]
               | None => []
               end).
  { intros title body. unfold schemaBlock, inferSchema.
    destruct (JSON_parse body) as [v|]; [|reflexivity].
    pose proof (describeType_nonempty v 0 2).
    destruct (describeType v 0 2); [congruence | reflexivity]. }
  split; [apply describeType_nonempty|]. split; [exact Hblock|]. split.
  - intros ep rep. unfold requestSchemaBlock.
    destruct (requestBody rep) as [[|c b]|]; cbn [truthy].
    + split; [congruence | intros (body & v & H & Hne & _); congruence].
    + destruct (existsb (String.eqb (ep_method ep)) ["POST"; "PUT"; "PATCH"]) eqn:M.
      * rewrite Hblock. apply existsb_exists in M as (x & Hx & Ex).
        apply String.eqb_eq in Ex. subst x.
        destruct (JSON_parse (String c b)) as [v|] eqn:P.
        -- split; [intros _ | discriminate].
           exists (String c b), v. repeat split; auto. discriminate.
        -- split; [congruence|]. intros (body & v & H & _ & _ & Hp).
           injection H as <-. congruence.
      * split; [congruence|]. intros (body & v & _ & _ & Hin & _).
        assert (existsb (String.eqb (ep_method ep)) ["POST"; "PUT"; "PATCH"] = true);
          [|congruence].
        apply existsb_exists. exists (ep_method ep). split; [exact Hin|].
        apply String.eqb_refl.
    + split; [congruence | intros (body & v & H & _); discriminate].
  - intros rep. unfold responseSchemaBlock.
    destruct (responseBody rep) as [[|c b]|]; cbn [truthy].
    + split; [congruence | intros (body & v & H & Hne & _); congruence].
    + destruct (startsWith "[" (String c b)) eqn:S; cbn [negb].
      * split; [congruence|]. intros (body & v & H & _ & Hs & _).
        injection H as <-. congruence.
      * rewrite Hblock. destruct (JSON_parse (String c b)) as [v|] eqn:P.
        -- split; [intros _ | discriminate].
           exists (String c b), v. repeat split; auto. discriminate.
        -- split; [congruence|]. intros (body & v & H & _ & _ & Hp).
           injection H as <-. congruence.
    + split; [congruence | intros (body & v & H & _); discriminate].
Qed.
End Platform.
End Analysis.

(* ================================================================== *)
(** * Properties of the authentication analysis *)
(* ================================================================== *)

Module Tallies.
Import JS Generate StoreFacts Sessions Clusters StringFacts.
Local Open Scope string_scope.

(** ** Counting by [bump] *)

Definition tallyOf (labels : list string) : list (string * nat) :=
  fold_left (fun m n => bump n m) labels [].

Definition cnt (k : string) (m : list (string * nat)) : nat :=
  match get k m with Some n => n | None => 0 end.

Lemma bump_cnt k m k' :
  cnt k' (bump k m) = cnt k' m + (if String.eqb k k' then 1 else 0).
Proof.
  unfold cnt, bump. rewrite get_set.
  destruct (String.eqb k k') eqn:E; [|lia].
  apply String.eqb_eq in E. now subst.
Qed.

Lemma bump_keys k m : map fst (bump k m) = addParam (map fst m) k.
Proof.
  unfold bump. rewrite keys_set. unfold addParam. rewrite has_keys. unfold has.
  now destruct (get k m).
Qed.

Lemma bump_positive k m :
  Forall (fun kc => 1 <= snd kc) m -> Forall (fun kc => 1 <= snd kc) (bump k m).
Proof.
  intros H. apply Forall_forall. intros x Hx. unfold bump in Hx.
  apply In_set in Hx as [-> | Hx]; [simpl; lia|].
  rewrite Forall_forall in H. now apply H.
Qed.

Lemma tally_from labels : forall m,
  NoDup (map fst m) -> Forall (fun kc => 1 <= snd kc) m ->
  let m' := fold_left (fun m n => bump n m) labels m in
  NoDup (map fst m') /\ Forall (fun kc => 1 <= snd kc) m'
  /\ map fst m' = fold_left addParam labels (map fst m)
  /\ forall k, cnt k m' = cnt k m + count_occ string_dec labels k.
Proof.
  induction labels as [|n labels IH]; intros m Hnd Hpos; simpl.
  - repeat split; auto.
  - destruct (IH (bump n m)) as (H1 & H2 & H3 & H4).
    + rewrite bump_keys. now apply addParam_NoDup.
    + now apply bump_positive.
    + split; [exact H1|]. split; [exact H2|]. split.
      * now rewrite H3, bump_keys.
      * intros k. rewrite H4, bump_cnt.
        destruct (string_dec n k) as [-> | Hne].
        -- rewrite String.eqb_refl. lia.
        -- apply String.eqb_neq in Hne. rewrite Hne. lia.
Qed.

(** What [bump] has counted: every label once, in the order of first
    appearance, with the number of its occurrences. *)
Lemma tallyOf_spec labels :
  NoDup (map fst (tallyOf labels))
  /\ map fst (tallyOf labels) = fold_left addParam labels []
  /\ forall k c, In (k, c) (tallyOf labels)
                 <-> c = count_occ string_dec labels k /\ 1 <= c.
Proof.
  destruct (tally_from labels [] (NoDup_nil _) (Forall_nil _)) as (H1 & H2 & H3 & H4).
  fold (tallyOf labels) in H1, H2, H3, H4.
  split; [exact H1|]. split; [exact H3|].
  intros k c. specialize (H4 k). unfold cnt in H4. simpl in H4. split.
  - intros Hin. rewrite Forall_forall in H2. pose proof (H2 _ Hin) as Hc. simpl in Hc.
    apply (In_get _ _ _ _ H1) in Hin. rewrite Hin in H4. auto.
  - intros [-> Hc]. apply get_In.
    destruct (get k (tallyOf labels)); [congruence | lia].
Qed.

(** ** The headers scanned *)

(** The labels a request header is counted under. *)
Definition labelsOf (h : string * string) : list string :=
  ((if String.eqb (toLowerCase (fst h)) "authorization"
    then [("Authorization: " ++ orElse (hd "" (split " " (snd h))) "unknown" ++ " ...")%string]
    else [])
   ++ (if includes "csrf" (toLowerCase (fst h)) || includes "token" (toLowerCase (fst h))
          || includes "x-api" (toLowerCase (fst h))
       then [fst h] else []))%list.

(** The cookie names a request header is counted under. *)
Definition cookiesOf (h : string * string) : list string :=
  if String.eqb (toLowerCase (fst h)) "cookie" then cookieNamesOf (snd h) else [].

Definition headersOf (reqs : list entry) : list (string * string) :=
  flat_map requestHeaders reqs.

Definition bumps (labels : list string) (m : list (string * nat)) : list (string * nat) :=
  fold_left (fun m n => bump n m) labels m.

Lemma scanHeader_bumps acc h :
  scanHeader acc h
  = mkAuth (bumps (labelsOf h) (authHeaders acc)) (bumps (cookiesOf h) (cookieNames acc)).
Proof.
  destruct h as [key value]. destruct acc as [a c].
  unfold scanHeader, labelsOf, cookiesOf, bumps. cbn [fst snd authHeaders cookieNames].
  destruct (String.eqb (toLowerCase key) "authorization");
    destruct (includes "csrf" (toLowerCase key) || includes "token" (toLowerCase key)
              || includes "x-api" (toLowerCase key));
    destruct (String.eqb (toLowerCase key) "cookie"); reflexivity.
Qed.

Lemma scan_bumps hs : forall acc,
  fold_left scanHeader hs acc
  = mkAuth (bumps (flat_map labelsOf hs) (authHeaders acc))
           (bumps (flat_map cookiesOf hs) (cookieNames acc)).
Proof.
  induction hs as [|h hs IH]; intros acc; simpl.
  - now destruct acc.
  - rewrite IH, scanHeader_bumps. unfold bumps. cbn [authHeaders cookieNames].
    now rewrite !fold_left_app.
Qed.

Lemma detect_bumps reqs : forall acc,
  fold_left (fun acc req => fold_left scanHeader (requestHeaders req) acc) reqs acc
  = mkAuth (bumps (flat_map labelsOf (headersOf reqs)) (authHeaders acc))
           (bumps (flat_map cookiesOf (headersOf reqs)) (cookieNames acc)).
Proof.
  induction reqs as [|r reqs IH]; intros acc; simpl.
  - now destruct acc.
  - rewrite IH, scan_bumps. unfold bumps, headersOf. cbn [authHeaders cookieNames flat_map].
    now rewrite !flat_map_app, !fold_left_app.
Qed.

(** The counts of [detectAuthPatterns] are counts of occurrences: a
    cookie name is counted once for each time a [Cookie] header names
    it, a header name once for each header of that name that speaks
    of a token, and an authorization scheme once for each
    [Authorization] header that carries it; every finding is listed
    once. *)
Theorem auth_pattern_counts (reqs : list entry) :
  let found := detectAuthPatterns reqs in
  (forall name c,
      In (name, c) (cookieNames found)
      <-> c = count_occ string_dec (flat_map cookiesOf (headersOf reqs)) name /\ 1 <= c)
  /\ (forall label c,
         In (label, c) (authHeaders found)
         <-> c = count_occ string_dec (flat_map labelsOf (headersOf reqs)) label /\ 1 <= c)
  /\ NoDup (map fst (cookieNames found))
  /\ NoDup (map fst (authHeaders found))
  /\ (forall e value,
         requestHeaders e = [("Authorization", value)] ->
         authHeaders (detectAuthPatterns [e])
         = [("Authorization: "
               ++ match split " " value with
                  | "" :: _ | [] => "unknown"
                  | scheme :: _ => scheme
                  end ++ " ...", 1)]).
Proof.
  intros found. unfold found, detectAuthPatterns. rewrite detect_bumps.
  cbn [authHeaders cookieNames]. fold (tallyOf (flat_map cookiesOf (headersOf reqs))).
  fold (tallyOf (flat_map labelsOf (headersOf reqs))).
  destruct (tallyOf_spec (flat_map cookiesOf (headersOf reqs))) as (C1 & _ & C3).
  destruct (tallyOf_spec (flat_map labelsOf (headersOf reqs))) as (A1 & _ & A3).
  split; [exact C3|]. split; [exact A3|]. split; [exact C1|]. split; [exact A1|].
  intros e value He. rewrite detect_bumps. cbn [authHeaders].
  unfold headersOf. cbn [flat_map]. rewrite He. cbn [app flat_map].
  unfold labelsOf. cbn [fst snd].
    replace (String.eqb (toLowerCase "Authorization") "authorization") with true by reflexivity.
    replace (includes "csrf" (toLowerCase "Authorization")
             || includes "token" (toLowerCase "Authorization")
             || includes "x-api" (toLowerCase "Authorization")) with false by reflexivity.
    rewrite app_nil_r. destruct (split " " value) as [|[|c s] l]; reflexivity.
Qed.

(** ** Cookie names *)

(** The string does not begin with white space. *)
Definition headOk (s : string) : Prop :=
  forall c rest, s = String c rest -> isSpace c = false.

Lemma trimStart_headOk s : headOk (trimStart s).
Proof.
  induction s as [|c s IH]; simpl; [intros ? ? H; discriminate|].
  destruct (isSpace c) eqn:E; [exact IH|].
  intros c' rest H. injection H as <- _. exact E.
Qed.

Lemma trimStart_suffix s : exists pre, s = pre ++ trimStart s.
Proof.
  induction s as [|c s (pre & IH)]; simpl; [now exists ""|].
  destruct (isSpace c); [|now exists ""].
  exists (String c pre). simpl. now rewrite <- IH.
Qed.

Lemma trimEnd_prefix s : exists post, s = trimEnd s ++ post.
Proof.
  induction s as [|c s (post & IH)]; simpl; [now exists ""|].
  destruct (trimEnd s) as [|d t] eqn:E.
  - destruct (isSpace c); [now exists (String c s) | exists s; reflexivity].
  - exists post. simpl. simpl in IH. now rewrite <- IH.
Qed.

Lemma headOk_prefix a b : headOk (a ++ b) -> headOk a.
Proof.
  intros H c rest ->. apply (H c (rest ++ b)). reflexivity.
Qed.

Lemma split_hd sep s : exists rest, s = hd "" (split sep s) ++ rest.
Proof.
  pose proof (join_split sep s) as J. pose proof (split_nonempty sep s) as Hne.
  destruct (split sep s) as [|w ws]; [congruence|]. simpl hd.
  destruct ws as [|w' ws].
  - exists "". simpl in J. now rewrite append_nil_r.
  - rewrite join_cons in J by discriminate. eauto.
Qed.

Lemma split_hd_free sep s : free sep (hd "" (split sep s)).
Proof.
  pose proof (split_free sep s) as H. pose proof (split_nonempty sep s) as Hne.
  destruct (split sep s); [congruence|]. now inversion H.
Qed.

(** A cookie name that is counted is not empty, holds no semicolon
    and no equals sign, and does not begin with white space. *)
Theorem cookie_names_clean (reqs : list entry) (name : string) (c : nat) :
  In (name, c) (cookieNames (detectAuthPatterns reqs)) ->
  name <> "" /\ free ";" name /\ free "=" name /\ headOk name
  /\ exists key value piece,
       In (key, value) (headersOf reqs) /\ toLowerCase key = "cookie"
       /\ In piece (split ";" value) /\ name = hd "" (split "=" (trim piece)).
Proof.
  intros Hin.
  assert (Hname : In name (flat_map cookiesOf (headersOf reqs))).
  { unfold detectAuthPatterns in Hin. rewrite detect_bumps in Hin.
    cbn [cookieNames] in Hin.
    fold (tallyOf (flat_map cookiesOf (headersOf reqs))) in Hin.
    apply (proj2 (proj2 (tallyOf_spec _))) in Hin as [-> Hc].
    apply (count_occ_In string_dec). lia. }
  apply in_flat_map in Hname as ([key value] & Hh & Hname).
  unfold cookiesOf in Hname. cbn [fst snd] in Hname.
  destruct (String.eqb (toLowerCase key) "cookie") eqn:Ek; [|destruct Hname].
  apply String.eqb_eq in Ek. unfold cookieNamesOf in Hname.
  apply filter_In in Hname as [Hname Hne].
  apply in_map_iff in Hname as (piece & <- & Hpiece).
  split; [|split; [|split; [|split]]].
  - intros E. rewrite E in Hne. discriminate.
  - destruct (split_hd "=" (trim piece)) as (rest & E).
    assert (Hfree : free ";" (trim piece)).
    { pose proof (split_free ";" value) as F. rewrite Forall_forall in F.
      specialize (F piece Hpiece). unfold trim.
      destruct (trimStart_suffix piece) as (pre & E1).
      destruct (trimEnd_prefix (trimStart piece)) as (post & E2).
      rewrite E1, E2 in F. apply free_app in F as [_ F]. now apply free_app in F. }
    rewrite E in Hfree. now apply free_app in Hfree.
  - apply split_hd_free.
  - destruct (split_hd "=" (trim piece)) as (rest & E).
    apply (headOk_prefix _ rest). rewrite <- E. unfold trim.
    destruct (trimEnd_prefix (trimStart piece)) as (post & E2).
    apply (headOk_prefix _ post). rewrite <- E2. apply trimStart_headOk.
  - exists key, value, piece. auto.
Qed.
End Tallies.

(* ================================================================== *)
(** * Consistent findings *)
(* ================================================================== *)

Module Consistency.
Import JS Generate Auth Tallies.
Local Open Scope string_scope.









End Consistency.

(* ================================================================== *)
(** * Properties of the cookie extractor and of the argument readers *)
(* ================================================================== *)

Module Extractor.
Import JS StringFacts Tallies.
Local Open Scope string_scope.

(** ** [find] *)

Lemma find_first (A : Type) (p : A -> bool) l x :
  find p l = Some x ->
  exists pre post, l = (pre ++ x :: post)%list /\ p x = true
                   /\ forall y, In y pre -> p y = false.
Proof.
  induction l as [|a l IH]; simpl; [discriminate|].
  destruct (p a) eqn:E.
  - intros H. injection H as <-. exists [], l. split; [reflexivity|]. split; [exact E|].
    intros y [].
  - intros H. destruct (IH H) as (pre & post & -> & Hx & Hpre).
    exists (a :: pre), post. split; [reflexivity|]. split; [exact Hx|].
    intros y [<- | Hy]; auto.
Qed.

Lemma find_None (A : Type) (p : A -> bool) l :
  find p l = None <-> forall y, In y l -> p y = false.
Proof.
  split; [intros H y; now apply find_none|].
  induction l as [|a l IH]; simpl; [reflexivity|]. intros H.
  rewrite (H a (or_introl eq_refl)). apply IH. auto.
Qed.

(** ** The target of the cookie extractor *)

(** The extractor connects to the first page whose address includes
    the domain; when no page does, to the first page; it gives up
    only when the browser lists no page that can be debugged. *)
Theorem pickTarget_prefers (DOMAIN : string) (targets : list target) :
  let wanted t := Cookies.isPage t && includes DOMAIN (target_url t) in
  (Cookies.pickTarget DOMAIN targets = None
   <-> forall t, In t targets -> Cookies.isPage t = false)
  /\ (forall t, Cookies.pickTarget DOMAIN targets = Some t ->
        Cookies.isPage t = true
        /\ exists pre post,
             targets = (pre ++ t :: post)%list
             /\ (wanted t = true /\ (forall x, In x pre -> wanted x = false)
                 \/ (forall x, In x targets -> wanted x = false)
                    /\ forall x, In x pre -> Cookies.isPage x = false)).
Proof.
  intros wanted. unfold Cookies.pickTarget. fold wanted. split.
  - destruct (find wanted targets) as [t|] eqn:F.
    + split; [discriminate|]. intros H. apply find_some in F as [Hin Hw].
      unfold wanted in Hw. rewrite (H t Hin) in Hw. discriminate.
    + apply find_None.
  - intros t. destruct (find wanted targets) as [t'|] eqn:F.
    + intros H. injection H as ->.
      apply find_first in F as (pre & post & E & Hw & Hpre).
      split; [unfold wanted in Hw; now apply andb_prop in Hw|].
      exists pre, post. auto.
    + intros H. apply find_first in H as (pre & post & E & Hp & Hpre).
      split; [exact Hp|]. exists pre, post. split; [exact E|]. right.
      split; [|exact Hpre]. now apply find_None.
Qed.

(** ** The cookie header *)

(** A name as [Cookie] headers carry them: not empty, free of
    semicolons and equals signs, beginning with a character of the
    ASCII range that is not white space. *)
Definition wellNamed (n : string) : Prop :=
  free ";" n /\ free "=" n
  /\ exists c rest, n = String c rest /\ isSpace c = false /\ (code c < 128)%N.

Definition pair (c : cookie) : string := cookie_name c ++ "=" ++ cookie_value c.

Lemma trimEnd_keeps a x b :
  isSpace x = false -> trimEnd (a ++ String x b) = a ++ String x (trimEnd b).
Proof.
  intros Hx. induction a as [|c a IH]; simpl.
  - rewrite Hx. now destruct (trimEnd b).
  - rewrite IH. destruct a; reflexivity.
Qed.

Lemma name_of_pair n v :
  wellNamed n -> hd "" (split "=" (trim (n ++ "=" ++ v))) = n.
Proof.
  intros (_ & Heq & c & rest & -> & Hc & _). unfold trim. simpl trimStart. rewrite Hc.
  change (String c rest ++ "=" ++ v) with (String c rest ++ String "=" v).
  change (String c (rest ++ String "=" v)) with (String c rest ++ String "=" v).
  rewrite trimEnd_keeps by reflexivity.
  rewrite split_app, (split_of_free "=" _ Heq). reflexivity.
Qed.

Lemma name_of_spaced n v :
  wellNamed n -> hd "" (split "=" (trim (" " ++ n ++ "=" ++ v))) = n.
Proof.
  intros H. rewrite <- (name_of_pair n v H) at 2. reflexivity.
Qed.

Lemma pair_free c :
  wellNamed (cookie_name c) -> free ";" (cookie_value c) -> free ";" (pair c).
Proof.
  intros (Hn & _) Hv. unfold pair. apply free_app. split; [exact Hn|].
  apply free_app. split; [|exact Hv]. apply free_cons. split; [discriminate | apply free_nil].
Qed.

Lemma spaced_join ps : forall q,
  " " ++ join "; " (q :: ps) = join ";" (map (fun q => " " ++ q) (q :: ps)).
Proof.
  induction ps as [|a ps IH]; intros q; [reflexivity|].
  change (join "; " (q :: a :: ps)) with (q ++ "; " ++ join "; " (a :: ps)).
  change (join ";" (map (fun q => " " ++ q) (q :: a :: ps)))
    with ((" " ++ q) ++ ";" ++ join ";" (map (fun q => " " ++ q) (a :: ps))).
  rewrite <- IH. reflexivity.
Qed.

(** The pieces between the semicolons of a joined header. *)
Lemma split_joined ps p :
  Forall (free ";") (p :: ps) ->
  split ";" (join "; " (p :: ps)) = p :: map (fun q => " " ++ q) ps.
Proof.
  intros H. inversion H as [|? ? Hp Hps]; subst.
  destruct ps as [|q ps]; [simpl; now apply split_of_free|].
  change (join "; " (p :: q :: ps)) with (p ++ String ";" (" " ++ join "; " (q :: ps))).
  rewrite split_app, (split_of_free ";" p Hp), spaced_join, split_join.
  - reflexivity.
  - discriminate.
  - apply Forall_forall. intros x Hx. apply in_map_iff in Hx as (y & <- & Hy).
    rewrite Forall_forall in Hps. apply free_cons. split; [discriminate | now apply Hps].
Qed.

(** The header the extractor prints is read back by the analysis:
    scanning it as a [Cookie] header yields the names of the cookies,
    in their order, whenever the names are well formed and no value
    holds a semicolon; without cookies nothing is printed. *)
Theorem cookieStr_read_back (cookies : list cookie) (out : string) :
  Cookies.cookieStr cookies = Some out ->
  (forall c, In c cookies -> wellNamed (cookie_name c) /\ free ";" (cookie_value c)) ->
  out = join "; " (map pair cookies)
  /\ Generate.cookieNamesOf out = map cookie_name cookies
  /\ Cookies.cookieStr [] = None.
Proof.
  intros Hout Hok.
  assert (E : out = join "; " (map pair cookies)).
  { unfold Cookies.cookieStr in Hout. destruct cookies; [discriminate|].
    now injection Hout as <-. }
  split; [exact E|]. split; [|reflexivity].
  destruct cookies as [|c0 cs]; [discriminate|].
  rewrite E. unfold Generate.cookieNamesOf. cbn [map].
  rewrite split_joined.
  - cbn [map]. rewrite map_map.
    assert (H0 : hd "" (split "=" (trim (pair c0))) = cookie_name c0).
    { apply name_of_pair. apply Hok. now left. }
    assert (Hs : map (fun x => hd "" (split "=" (trim (" " ++ x)))) (map pair cs)
                 = map cookie_name cs).
    { rewrite map_map. apply map_ext_in. intros c Hc. apply name_of_spaced.
      apply Hok. now right. }
    rewrite H0, Hs. change (cookie_name c0 :: map cookie_name cs)
      with (map cookie_name (c0 :: cs)).
    apply forallb_filter_id. apply forallb_forall. intros n Hn.
    apply in_map_iff in Hn as (c & <- & Hc).
    destruct (Hok c Hc) as ((_ & _ & x & rest & -> & _) & _). reflexivity.
  - apply Forall_forall. intros x Hx.
    change (pair c0 :: map pair cs) with (map pair (c0 :: cs)) in Hx.
    apply in_map_iff in Hx as (c & <- & Hc).
    destruct (Hok c Hc). now apply pair_free.
Qed.

(** ** Command-line arguments *)

Lemma indexOf_None x l : indexOf x l = None <-> ~ In x l.
Proof.
  induction l as [|y l IH]; simpl; [tauto|].
  destruct (String.eqb y x) eqn:E.
  - apply String.eqb_eq in E. split; [discriminate | tauto].
  - apply String.eqb_neq in E. destruct (indexOf x l); simpl.
    + split; [discriminate|]. intros H. exfalso.
      assert (Hn : ~ In x l) by tauto. apply IH in Hn. discriminate.
    + split; [|reflexivity]. intros _ [H | H]; [congruence|]. now apply IH.
Qed.

Lemma indexOf_first x pre post :
  ~ In x pre -> indexOf x (pre ++ x :: post)%list = Some (List.length pre).
Proof.
  induction pre as [|y pre IH]; simpl; intros H.
  - now rewrite String.eqb_refl.
  - destruct (String.eqb y x) eqn:E.
    + apply String.eqb_eq in E. tauto.
    + rewrite IH by tauto. reflexivity.
Qed.

(** An option is read at the first place its flag stands: the value
    is the argument that follows, whatever it is; the default is
    returned when the flag is absent and when it stands last. *)
Theorem getArg_reads (args : list string) (name : string) (dflt : option string) :
  let flag := "--" ++ name in
  (Args.hasFlag args name = true <-> In flag args)
  /\ (~ In flag args -> Args.getArg args name dflt = dflt)
  /\ (forall pre, ~ In flag pre -> Args.getArg (pre ++ [flag])%list name dflt = dflt)
  /\ (forall pre v post,
         ~ In flag pre ->
         Args.getArg (pre ++ flag :: v :: post)%list name dflt = Some v).
Proof.
  intros flag. unfold Args.hasFlag, Args.getArg. fold flag. split; [|split; [|split]].
  - pose proof (indexOf_None flag args) as H.
    destruct (indexOf flag args) as [n|].
    + split; [intros _ | reflexivity].
      destruct (in_dec string_dec flag args) as [Hin | Hn]; [exact Hin|].
      apply H in Hn. discriminate.
    + split; [discriminate|]. intros Hin. exfalso. now apply (proj1 H).
  - intros H. apply indexOf_None in H. now rewrite H.
  - intros pre H. rewrite indexOf_first by exact H.
    rewrite length_app. simpl. rewrite Nat.leb_refl. reflexivity.
  - intros pre v post H. rewrite indexOf_first by exact H.
    rewrite length_app. simpl.
    destruct (Nat.leb_spec (List.length pre + S (S (List.length post))) (List.length pre + 1));
      [lia|].
    rewrite nth_error_app2 by lia.
    replace (List.length pre + 1 - List.length pre) with 1 by lia. reflexivity.
Qed.
End Extractor.

(* ================================================================== *)
(** * Path templates, segment by segment *)
(* ================================================================== *)

Module Templates.
Import JS RegExp RegExpFacts Generate NormalizeFacts PatternFacts StringFacts.

(** The path made of the given segments. *)
Definition flat (segs : list chars) : chars := flat_map (fun x => "/"%char :: x) segs.

Lemma flat_ended segs : ended (flat segs).
Proof. destruct segs as [|x segs]; [now left | right; simpl; eauto]. Qed.

(** A path is cut into its segments in one way. *)
Lemma unique_split x : forall y r1 r2,
  ~ In "/"%char x -> ~ In "/"%char y -> ended r1 -> ended r2 ->
  x ++ r1 = y ++ r2 -> x = y /\ r1 = r2.
Proof.
  induction x as [|c x IH]; intros [|d y] r1 r2 Hx Hy H1 H2 E; simpl in E.
  - auto.
  - exfalso. subst r1. destruct H1 as [H1 | (t & H1)]; [discriminate|].
    injection H1 as -> _. apply Hy. now left.
  - exfalso. subst r2. destruct H2 as [H2 | (t & H2)]; [discriminate|].
    injection H2 as -> _. apply Hx. now left.
  - injection E as -> E. destruct (IH y r1 r2) as [-> ->]; auto.
    + intros H. apply Hx. now right.
    + intros H. apply Hy. now right.
Qed.

Section SegmentReplace.
Variable icase : bool.
Variable a : atom.
Variable lo : nat.
Variable hi : option nat.
Variable by' : chars.

Hypothesis a_slash : matches1 icase a "/" = false.

(** The segment is one the pattern replaces. *)
Definition fits (x : chars) : bool :=
  (lo <=? List.length x)
  && match hi with Some h => List.length x <=? h | None => true end
  && forallb (matches1 icase a) x.

Lemma fits_iff x :
  fits x = true
  <-> Forall (fun c => matches1 icase a c = true) x
      /\ lo <= List.length x /\ within hi (List.length x).
Proof.
  unfold fits, within. rewrite !andb_true_iff, forallb_forall, Forall_forall, Nat.leb_le.
  destruct hi; rewrite ?Nat.leb_le; tauto.
Qed.

Lemma class_free x : Forall (fun c => matches1 icase a c = true) x -> ~ In "/"%char x.
Proof.
  intros H Hin. rewrite Forall_forall in H. apply H in Hin. congruence.
Qed.

Lemma segment_match x rest :
  ~ In "/"%char x -> ended rest ->
  matchAt icase (segment a lo hi) ("/"%char :: x ++ rest)
  = if fits x then Some rest else None.
Proof.
  intros Hx Hrest. destruct (fits x) eqn:F.
  - apply fits_iff in F as (F1 & F2 & F3).
    destruct (matchAt icase (segment a lo hi) ("/"%char :: x ++ rest)) as [r'|] eqn:E.
    + apply matchAt_sound in E as (w & E & M).
      apply Matches_segment in M as (x' & -> & Hx' & _ & _ & Hr').
      simpl in E. injection E as E.
      apply unique_split in E as [_ ->]; auto. now apply class_free.
    + exfalso. revert E.
      change ("/"%char :: x ++ rest) with (("/"%char :: x) ++ rest).
      apply matchAt_complete, Matches_segment. exists x. auto.
  - destruct (matchAt icase (segment a lo hi) ("/"%char :: x ++ rest)) as [r'|] eqn:E;
      [|reflexivity].
    apply matchAt_sound in E as (w & E & M).
    apply Matches_segment in M as (x' & -> & Hx' & Hlo & Hhi & Hr').
    simpl in E. injection E as E.
    apply unique_split in E as [-> _]; auto; [|now apply class_free].
    assert (fits x' = true) by (apply fits_iff; auto). congruence.
Qed.

Lemma segment_consumes : forall s rest,
  matchAt icase (segment a lo hi) s = Some rest -> exists c w, s = c :: w ++ rest.
Proof. apply matchAt_consumes, segment_minLen. Qed.

Lemma copy_free x rest :
  ~ In "/"%char x ->
  replaceAll icase (segment a lo hi) ("/"%char :: by') (x ++ rest)
  = x ++ replaceAll icase (segment a lo hi) ("/"%char :: by') rest.
Proof.
  induction x as [|c x IH]; intros Hx; [reflexivity|]. simpl app.
  rewrite replaceAll_copy.
  - rewrite IH; [reflexivity|]. intros H. apply Hx. now right.
  - destruct (matchAt icase (segment a lo hi) (c :: x ++ rest)) eqn:E; [|reflexivity].
    apply segment_head in E. subst c. exfalso. apply Hx. now left.
Qed.

(** Replacement works segment by segment. *)
Lemma segments_replaced segs :
  Forall (fun x => ~ In "/"%char x) segs ->
  replaceAll icase (segment a lo hi) ("/"%char :: by') (flat segs)
  = flat (map (fun x => if fits x then by' else x) segs).
Proof.
  induction 1 as [|x segs Hx _ IH].
  - apply replaceAll_nil, segment_consumes.
  - change (flat (x :: segs)) with ("/"%char :: x ++ flat segs).
    pose proof (segment_match x (flat segs) Hx (flat_ended segs)) as M.
    cbn [map]. destruct (fits x).
    + rewrite (replaceAll_match icase _ _ segment_consumes _ _ M), IH. reflexivity.
    + rewrite replaceAll_copy by exact M. rewrite copy_free by exact Hx.
      rewrite IH. reflexivity.
Qed.
End SegmentReplace.

(** ** The segments [normalizePath] replaces *)

Local Open Scope string_scope.

Definition isHex (c : ascii) : bool :=
  between "0" "9" c || between "a" "f" c || between "A" "F" c.

Definition isDecimal (c : ascii) : bool := between "0" "9" c.

(** Eight to sixty-four hexadecimal digits. *)
Definition hashLike (seg : string) : bool :=
  (8 <=? String.length seg)%nat && (String.length seg <=? 64)%nat
  && forallb isHex (list_ascii_of_string seg).

(** Two decimal digits or more. *)
Definition idLike (seg : string) : bool :=
  (2 <=? String.length seg)%nat && forallb isDecimal (list_ascii_of_string seg).

Definition templateOf (seg : string) : string :=
  if hashLike seg then "{hash}" else if idLike seg then "{id}" else seg.

(** The path whose segments are [segs]. *)
Definition pathOf (segs : list string) : string :=
  concat "" (map (fun seg => "/" ++ seg) segs).

Lemma hex_isHex c : matches1 true hex c = isHex c.
Proof.
  assert (H : forall c, Bool.eqb (matches1 true hex c) (isHex c) = true).
  { apply ascii_all. vm_compute. reflexivity. }
  now apply Bool.eqb_prop.
Qed.

Lemma digit_isDigit c : matches1 false digit c = isDecimal c.
Proof. unfold matches1, digit, inRanges, isDecimal. simpl. apply orb_false_r. Qed.

Lemma forallb_same (A : Type) (f g : A -> bool) l :
  (forall x, f x = g x) -> forallb f l = forallb g l.
Proof. intros H. induction l as [|x l IH]; simpl; [reflexivity | now rewrite H, IH]. Qed.

Lemma chars_length s : List.length (list_ascii_of_string s) = String.length s.
Proof. induction s; simpl; congruence. Qed.

Lemma fits_hash seg :
  fits true hex 8 (Some 64) (list_ascii_of_string seg) = hashLike seg.
Proof.
  unfold fits, hashLike. rewrite chars_length. f_equal.
  apply forallb_same. exact hex_isHex.
Qed.

Lemma fits_id seg :
  fits false digit 2 None (list_ascii_of_string seg) = idLike seg.
Proof.
  unfold fits, idLike. rewrite chars_length, andb_true_r. f_equal.
  apply forallb_same. exact digit_isDigit.
Qed.

Lemma chars_pathOf segs :
  list_ascii_of_string (pathOf segs) = flat (map list_ascii_of_string segs).
Proof.
  unfold pathOf, flat. induction segs as [|seg segs IH]; [reflexivity|].
  cbn [map flat_map]. rewrite <- IH.
  destruct segs as [|seg' segs].
  - simpl. now rewrite app_nil_r.
  - change (concat "" (("/" ++ seg) :: map (fun seg => "/" ++ seg) (seg' :: segs)))
      with (("/" ++ seg) ++ "" ++ concat "" (map (fun seg => "/" ++ seg) (seg' :: segs))).
    rewrite chars_app. reflexivity.
Qed.

Lemma pathOf_flat (xs : list chars) :
  string_of_list_ascii (flat xs) = pathOf (map string_of_list_ascii xs).
Proof.
  apply chars_inj. rewrite chars_pathOf, map_map, list_ascii_of_string_of_list_ascii.
  f_equal. rewrite <- (map_id xs) at 1. apply map_ext. intros x.
  now rewrite list_ascii_of_string_of_list_ascii.
Qed.

Lemma uuid_absent s :
  test true uuidRe s = false -> clean (matchAt true uuidRe) s.
Proof.
  intros H t [pre ->]. induction pre as [|c pre IH].
  - cbn [app] in H. destruct t; cbn [test] in H;
      destruct (matchAt true uuidRe _); [discriminate | reflexivity
                                        | discriminate | reflexivity].
  - apply IH. cbn [app test] in H.
    destruct (matchAt true uuidRe (c :: pre ++ t)); [discriminate | exact H].
Qed.

Section Platform.
Variable newURL : string -> option URL.

(** The template of a path that holds no UUID is made segment by
    segment: a segment of eight to sixty-four hexadecimal digits --
    in either case, among them the runs of eight to sixty-four decimal
    digits -- becomes
    [{hash}], another segment of two or more decimal digits becomes
    [{id}], and every other segment is left as it is. *)
Theorem normalizePath_by_segment (url : string) (u : URL) (segs : list string) :
  newURL url = Some u ->
  pathname u = pathOf segs ->
  (forall seg, In seg segs -> free "/" seg) ->
  testS true uuidRe (pathname u) = false ->
  normalizePath newURL url = pathOf (map templateOf segs).
Proof.
  intros Hu Hpath Hsegs Huuid. unfold normalizePath. rewrite Hu, rewritePath_chars.
  unfold testS in Huuid. apply uuid_absent in Huuid.
  unfold rewriteChars. rewrite stepT_after_I.
  assert (EU : stepU (list_ascii_of_string (pathname u)) = list_ascii_of_string (pathname u)).
  { apply (replaceAll_clean true uuidRe _ (matchAt_consumes true uuidRe uuid_consumes)).
    exact Huuid. }
  rewrite EU, Hpath, chars_pathOf.
  assert (Hfree : Forall (fun x => ~ In "/"%char x) (map list_ascii_of_string segs)).
  { apply Forall_forall. intros x Hx. apply in_map_iff in Hx as (seg & <- & Hseg).
    exact (Hsegs seg Hseg). }
  unfold stepH. change hashRe with (segment hex 8 (Some 64)).
  change (list_ascii_of_string "/{hash}") with ("/"%char :: list_ascii_of_string "{hash}").
  rewrite (segments_replaced true hex 8 (Some 64) _ eq_refl _ Hfree).
  unfold stepI. change idRe with (segment digit 2 None).
  change (list_ascii_of_string "/{id}") with ("/"%char :: list_ascii_of_string "{id}").
  rewrite (segments_replaced false digit 2 None _ eq_refl).
  - rewrite pathOf_flat, !map_map. f_equal. apply map_ext_in. intros seg Hseg.
    rewrite fits_hash. unfold templateOf. destruct (hashLike seg); [reflexivity|].
    rewrite fits_id. destruct (idLike seg); [reflexivity|].
    apply string_of_list_ascii_of_string.
  - apply Forall_forall. intros x Hx. apply in_map_iff in Hx as (y & <- & Hy).
    destruct (fits true hex 8 (Some 64) y).
    + vm_compute. intuition discriminate.
    + rewrite Forall_forall in Hfree. now apply Hfree.
Qed.
End Platform.
End Templates.

(* ================================================================== *)
(** * From the capture engine to the generator *)
(* ================================================================== *)

Module Pipeline.
Import JS Capture Generate StoreFacts Sessions.
Local Open Scope string_scope.

Section Platform.
Variable newURL : string -> option URL.
Variable JSON_parse : string -> option json.
Variable cfg : config.

(** Whatever session file the engine writes, the generator accepts:
    the file holds a request, so a document is made of it; read
    without a [--domain] option, the domain is the directory the file
    was written to; the commands the document prints name the port
    the capture ran with; and a directory that lists the file is
    never found to hold no capture. *)
Theorem sessions_feed_generator (pages : nat) (evs : list event)
        (d stem : string) (c : capture) :
  In (d, stem, c) (written (runEvents newURL cfg evs (init pages))) ->
  (forall r,
      skillContent newURL JSON_parse r c
      = Some (join nl (skillLines newURL JSON_parse r c) ++ nl))
  /\ (forall r, truthy (DOMAIN r) = None -> domainOf r c = d)
  /\ portOf c = match CDP_PORT cfg with 0 => "9222" | p => ofNat p end
  /\ durationOf c = match DURATION cfg with 0 => "?" | n => ofNat n end
  /\ (forall listing,
         In (stem ++ ".json") listing -> exists f, latestCapture listing = Some f).
Proof.
  intros Hin.
  assert (Hs : sound newURL cfg (runEvents newURL cfg evs (init pages)))
    by apply sound_run, sound_init.
  destruct (written_sound newURL cfg _ d stem c Hs Hin) as (Hd & Hne & _ & Hdur & Hport).
  split; [|split; [|split; [|split]]].
  - intros r. unfold skillContent. destruct (requests c); [congruence | reflexivity].
  - intros r Hr. unfold domainOf. now rewrite Hr.
  - unfold portOf. now rewrite Hport.
  - unfold durationOf. now rewrite Hdur.
  - intros listing Hl.
    assert (Hf : In (stem ++ ".json") (captureFiles listing)).
    { apply Analysis.captureFiles_In. split; [exact Hl | apply Names.endsWith_app]. }
    unfold latestCapture. destruct (captureFiles listing) as [|f fs]; [destruct Hf|].
    now exists f.
Qed.
End Platform.
End Pipeline.

(* ================================================================== *)
(** * Examples on the reference platform *)
(* ================================================================== *)

Module Examples.
Import JS Capture Generate StringFacts.
Local Open Scope string_scope.

(** A subdomain, two levels down, of a listed domain. *)
Lemma isNoiseDomain_subdomains_witness :
  isNoiseDomain Node.newURL "https://m.checkout.stripe.com/v1/tokens" = true.
Proof.
  assert (Hu : Node.newURL "https://m.checkout.stripe.com/v1/tokens"
               = Some (mkURL "m.checkout.stripe.com" "/v1/tokens" []))
    by (vm_compute; reflexivity).
  apply (proj2 (Filters.isNoiseDomain_subdomains Node.newURL _ _ Hu)).
  exists "stripe.com". split.
  - apply Filters.isNoise_In. vm_compute. reflexivity.
  - right. exists "m.checkout". reflexivity.
Defined.

(** A search request answered with a body. *)
Lemma exchange_stored_witness :
  runEvents Node.newURL Runs.plain
            [RequestWillBeSent Runs.t0 "r7" "GET" "https://api.example.com/search?q=tea"
                               [] None "Fetch";
             ResponseReceived "r7" 200 [("content-type", "application/json")];
             LoadingFinished "r7";
             BodyResolved 2 (Some "{}")]
            (init 1)
  = storeEntry Node.newURL
      (mkEntry Runs.t0 "GET" "https://api.example.com/search?q=tea" [] None "Fetch"
               (Some 200) [("content-type", "application/json")] (Some "{}"))
      (Exchanges.tracking [] [] 2 (init 1)).
Proof.
  assert (Hadm : Sessions.tracked Node.newURL "https://api.example.com/search?q=tea" "Fetch").
  { split; [now right|]. split; vm_compute; reflexivity. }
  exact (proj1 (Exchanges.exchange_stored Node.newURL Runs.plain 1 []
                  Runs.t0 "r7" "GET" "https://api.example.com/search?q=tea" [] None
                  "Fetch" 200 [("content-type", "application/json")] eq_refl Hadm)
               (Some "{}")).
Defined.

(** Three requests: two searches and one upload. *)
Definition search (query : string) : entry :=
  mkEntry Runs.t0 "GET" ("https://api.example.com/search?" ++ query) [] None "Fetch"
          (Some 200) [] (Some "{}").

Definition upload : entry :=
  mkEntry Runs.t0 "POST" "https://api.example.com/upload" [] (Some "{}") "XHR"
          (Some 201) [] None.

Definition threeRequests : list entry := [upload; search "q=tea&page=2"; search "page=3&lang=en"].

Definition searches : endpoint :=
  mkEndpoint "GET" "/search" [search "q=tea&page=2"; search "page=3&lang=en"]
             ["q"; "page"; "lang"].

Lemma endpoint_queryParams_witness :
  In searches (sortedEndpoints Node.newURL threeRequests)
  /\ NoDup (queryParams searches)
  /\ (queryStr searches = ""
      <-> forall r, In r (ep_requests searches) -> Clusters.paramsOf Node.newURL r = []).
Proof.
  assert (Hin : In searches (sortedEndpoints Node.newURL threeRequests))
    by (vm_compute; left; reflexivity).
  split; [exact Hin|].
  destruct (Clusters.endpoint_queryParams Node.newURL threeRequests searches Hin)
    as (_ & H2 & _ & H4).
  split; [exact H2 | exact H4].
Defined.

Lemma endpointKey_separates_witness :
  (forall r, In r threeRequests -> free " " (method r))
  /\ forall ep r,
       In ep (sortedEndpoints Node.newURL threeRequests) -> In r (ep_requests ep) ->
       method r = ep_method ep /\ normalizePath Node.newURL (url r) = normalizedPath ep.
Proof.
  assert (H : forall r, In r threeRequests -> free " " (method r)).
  { intros r [<- | [<- | [<- | []]]]; vm_compute; intuition discriminate. }
  split; [exact H|].
  exact (proj2 (Clusters.endpointKey_separates Node.newURL threeRequests H)).
Defined.

Lemma cookie_names_clean_witness :
  In ("session_id", 6) (cookieNames (detectAuthPatterns Auth.tenRequests))
  /\ free ";" "session_id" /\ free "=" "session_id" /\ Tallies.headOk "session_id".
Proof.
  assert (Hin : In ("session_id", 6) (cookieNames (detectAuthPatterns Auth.tenRequests)))
    by (vm_compute; left; reflexivity).
  split; [exact Hin|].
  destruct (Tallies.cookie_names_clean Auth.tenRequests "session_id" 6 Hin)
    as (_ & H1 & H2 & H3 & _).
  auto.
Defined.

Definition twoCookies : list cookie :=
  [mkCookie "sid" "abc=="; mkCookie "theme" "dark"].

Lemma cookieStr_read_back_witness :
  Cookies.cookieStr twoCookies = Some "sid=abc==; theme=dark"
  /\ cookieNamesOf "sid=abc==; theme=dark" = ["sid"; "theme"].
Proof.
  assert (Hout : Cookies.cookieStr twoCookies = Some "sid=abc==; theme=dark")
    by reflexivity.
  split; [exact Hout|].
  refine (proj1 (proj2 (Extractor.cookieStr_read_back twoCookies _ Hout _))).
  intros c [<- | [<- | []]]; (split; [split; [|split]|]).
  - vm_compute. intuition discriminate.
  - vm_compute. intuition discriminate.
  - exists "s"%char, "id". repeat split; vm_compute; reflexivity.
  - vm_compute. intuition discriminate.
  - vm_compute. intuition discriminate.
  - vm_compute. intuition discriminate.
  - exists "t"%char, "heme". repeat split; vm_compute; reflexivity.
  - vm_compute. intuition discriminate.
Defined.

Definition mixedURL : string :=
  "https://api.example.com/users/48291/orders/3/cafebabe/1700000000000".

Lemma normalizePath_by_segment_witness :
  normalizePath Node.newURL mixedURL = "/users/{id}/orders/3/{hash}/{hash}".
Proof.
  pose (segs := ["users"; "48291"; "orders"; "3"; "cafebabe"; "1700000000000"]).
  assert (Hu : Node.newURL mixedURL
               = Some (mkURL "api.example.com"
                             "/users/48291/orders/3/cafebabe/1700000000000" []))
    by (vm_compute; reflexivity).
  assert (Hfree : forall seg, In seg segs -> free "/" seg).
  { intros seg [<- | [<- | [<- | [<- | [<- | [<- | []]]]]]];
      vm_compute; intuition discriminate. }
  assert (Huuid : RegExp.testS true uuidRe "/users/48291/orders/3/cafebabe/1700000000000"
                  = false) by (vm_compute; reflexivity).
  exact (Templates.normalizePath_by_segment Node.newURL mixedURL _ segs
           Hu eq_refl Hfree Huuid).
Defined.

(** The run of two sites, ended by the timer, and the file it writes
    for the first site. *)
Definition toTheTimer : list event := (Runs.twoSites ++ [TimerFired Runs.t1])%list.

Definition firstSession : capture :=
  mkCapture Runs.t1 300 9222 "example.com"
            [mkEntry Runs.t0 "GET" "https://api.example.com/a" [] None "XHR" (Some 200)
                     [("content-type", "application/json")] (Some "{}")].

Lemma sessions_feed_generator_witness :
  In ("example.com", "2024-01-02T03-09-05", firstSession)
     (written (runEvents Node.newURL Runs.plain toTheTimer (init 1)))
  /\ (forall r, truthy (DOMAIN r) = None -> domainOf r firstSession = "example.com")
  /\ exists f,
       latestCapture ["notes.txt"; "2024-01-02T03-09-05" ++ ".json"] = Some f.
Proof.
  assert (Hin : In ("example.com", "2024-01-02T03-09-05", firstSession)
                   (written (runEvents Node.newURL Runs.plain toTheTimer (init 1))))
    by (vm_compute; left; reflexivity).
  split; [exact Hin|].
  destruct (Pipeline.sessions_feed_generator Node.newURL Node.JSON_parse Runs.plain 1
              toTheTimer "example.com" "2024-01-02T03-09-05" firstSession Hin)
    as (_ & H2 & _ & _ & H5).
  split; [exact H2|]. apply H5. right. left. reflexivity.
Defined.
End Examples.
